(** * gmwm: wavelet decomposition and wavelet variance (build_file.cpp)

    A shallow embedding of the C++ functions [reverse_vec], [qmf],
    [haar_filter], [select_filter], [dwt_arma], [modwt_arma], [dft_acf],
    [brick_wall], [ci_eta3], [wave_variance] and [wavelet_variance_arma],
    of the generators [gen_white_noise], [gen_drift] and [gen_ar1] and of
    [Mod_arma] and [Mod_squared_arma] of build_file.cpp, and of the process
    generators of gen_process.cpp: [gen_wn], [gen_dr], [gen_qn], [gen_ar1],
    [gen_rw], [gen_ma1], [gen_arma11], [gen_arma], [gen_model], [gen_lts].

    Conventions of the embedding.
    - An [arma::vec] is a [list D], where [D] is the type of C++ [double]
      values.  The arithmetic of [D] is an interface ([Double]) with two
      instances: IEEE binary64 (Rocq's primitive floats, executable) and the
      real numbers (the idealised arithmetic in which the numerical
      statements are proved).
    - [unsigned int], [int] and [uword] values are integers in [Z];
      conversions between them and unsigned arithmetic are written with their
      wrap-around.  Armadillo's [uword] has 32 bits, so that a vector holds
      fewer than 2^32 elements.  Integer-valued [double] expressions
      ([pow(2, j)], [N / pow(2, j - 1)], ...) are exact below 2^53 and are
      computed in [Z].
    - [Rcpp::stop], Armadillo's run-time bounds checks and C++ conversions
      without a defined result all end the computation; they are the
      constructors of [error].
    - Library functions that the file calls but does not define ([R::qchisq],
      [R::qnorm], [arma::fft], [arma::ifft]) are interfaces; so are R's
      random number generator, whose state is passed explicitly, and the
      functions of [rtoarmadillo.h] and [ts_checks.h] that gen_process.cpp
      calls. *)

From Stdlib Require Import ZArith String List Bool Lia Reals Lra Floats.
Import ListNotations.

Open Scope Z_scope.

(** ** Outcomes *)

Inductive error : Type :=
| UnsupportedFilter        (* stop("Wave Filter is not supported! ...") *)
| UnsupportedBoundary      (* stop("The supplied 'boundary' argument is not supported! ...") *)
| InvalidDecomposition     (* stop(... divisible by 2^(nlevels) ...), stop(... exceeds sample size ...) *)
| UnsupportedCIType        (* stop("The wave variance type supplied is not supported. ...") *)
| IndexOutOfBounds         (* Armadillo: "index out of bounds", "indices out of bounds or incorrectly used" *)
| IncompatibleDimensions   (* Armadillo: "incompatible matrix dimensions" *)
| Undefined.               (* a double converted to an integer type that cannot hold it *)

Inductive result (A : Type) : Type :=
| Ok (a : A)
| Err (e : error).

Arguments Ok {A} a.
Arguments Err {A} e.

Definition bind {A B : Type} (r : result A) (k : A -> result B) : result B :=
  match r with
  | Ok a => k a
  | Err e => Err e
  end.

Notation "x <- r ;; k" := (bind r (fun x => k))
  (at level 61, r at next level, right associativity).
Notation "' p <- r ;; k" := (bind r (fun x => let p := x in k))
  (at level 61, p pattern, r at next level, right associativity).

(** [for (i = start; i < start + count; i++) s = body(i, s)] *)
Fixpoint for_loop {S : Type} (count : nat) (i : Z) (body : Z -> S -> result S) (s : S)
  : result S :=
  match count with
  | O => Ok s
  | Datatypes.S count' => s' <- body i s ;; for_loop count' (i + 1) body s'
  end.

Definition for_range {S : Type} (lo hi : Z) (body : Z -> S -> result S) (s : S) : result S :=
  for_loop (Z.to_nat (hi - lo)) lo body s.

(** A vector of [count] entries whose entry [t] is written once, in increasing
    order of [t], by [v[start + t] = f(start + t)]. *)
Fixpoint tabulate {A : Type} (count : nat) (i : Z) (f : Z -> result A) : result (list A) :=
  match count with
  | O => Ok []
  | Datatypes.S count' => a <- f i ;; rest <- tabulate count' (i + 1) f ;; Ok (a :: rest)
  end.

(** ** Machine integers *)

(** Conversion to [unsigned int]; Armadillo's index type [uword] has the same
    32 bits, so a vector's [n_elem] is stored in an [unsigned int] unchanged. *)
Definition uint (z : Z) : Z := z mod 2 ^ 32.

(** Conversion of an [unsigned int] to [int]. *)
Definition to_int (z : Z) : Z := if z <? 2 ^ 31 then z else z - 2 ^ 32.

(** An integer-valued [double] converted to [unsigned int]: defined only when
    the value fits. *)
Definition double_to_uint (z : Z) : result Z :=
  if (0 <=? z) && (z <? 2 ^ 32) then Ok z else Err Undefined.

(** ** Vectors *)

Definition n_elem {A : Type} (v : list A) : Z := Z.of_nat (length v).

(** [v(i)]: element access with Armadillo's bounds check; the index is a
    [uword], so a negative [int] is out of range as well. *)
Definition vget {A : Type} (v : list A) (i : Z) : result A :=
  if (0 <=? i) && (i <? n_elem v) then
    match nth_error v (Z.to_nat i) with
    | Some a => Ok a
    | None => Err IndexOutOfBounds
    end
  else Err IndexOutOfBounds.

(** [v(i) = a] *)
Fixpoint set_nth {A : Type} (v : list A) (i : nat) (a : A) : list A :=
  match v, i with
  | [], _ => []
  | _ :: v', O => a :: v'
  | b :: v', Datatypes.S i' => b :: set_nth v' i' a
  end.

Definition vset {A : Type} (v : list A) (i : Z) (a : A) : result (list A) :=
  if (0 <=? i) && (i <? n_elem v) then Ok (set_nth v (Z.to_nat i) a)
  else Err IndexOutOfBounds.

(** [v.rows(first, last)]: Armadillo refuses [first > last] and
    [last >= n_rows] ("indices out of bounds or incorrectly used"). *)
Definition rows {A : Type} (v : list A) (first last : Z) : result (list A) :=
  if (first >? last) || (last >=? n_elem v) then Err IndexOutOfBounds
  else Ok (firstn (Z.to_nat (last - first + 1)) (skipn (Z.to_nat first) v)).

(** ** The arithmetic of [double] *)

Class Double (D : Type) : Type := {
  of_Z : Z -> D;          (* an integer converted to double *)
  dadd : D -> D -> D;
  dsub : D -> D -> D;
  dmul : D -> D -> D;
  ddiv : D -> D -> D;
  dltb : D -> D -> bool;  (* operator< *)
  dsqrt : D -> D
}.

(** The value [datum::nan]. *)
Class NaN (D : Type) : Type := { datum_nan : D }.

(** [R::qchisq(p, df, 1, 0)] and [R::qnorm(p, 0.0, 1.0, 1, 0)]. *)
Class RMath (D : Type) : Type := {
  qchisq : D -> D -> D;
  qnorm : D -> D
}.

(** [arma::fft] of a real vector and [arma::ifft]; a complex number is the
    pair of its real and imaginary parts. *)
Class Fourier (D : Type) : Type := {
  fft : list D -> list (D * D);
  ifft : list (D * D) -> list (D * D)
}.

Section Numeric.

Context {D : Type} {Dbl : Double D}.

(** A decimal literal [num / den] of the source: the double nearest to it is
    the correctly rounded quotient of the two integers. *)
Definition decimal (num den : Z) : D := ddiv (of_Z num) (of_Z den).

(** [std::max(a, b)] is [(a < b) ? b : a]. *)
Definition dmax (a b : D) : D := if dltb a b then b else a.

(** [pow(2, k)] for an integer [k >= 0]. *)
Definition pow2 (k : Z) : D := of_Z (2 ^ k).

(** [arma::dot(a, b)]; the products are added from left to right (Armadillo
    leaves the order of the additions open, which matters to the rounding of
    binary64 only). *)
Definition dot (a b : list D) : D :=
  fold_left (fun acc xy => dadd acc (dmul (fst xy) (snd xy))) (combine a b) (of_Z 0).

(** *** Filters *)

(** [reverse_vec]: [std::reverse] on a copy. *)
Definition reverse_vec (x : list D) : list D := rev x.

(** One iteration of the loop of [qmf]. *)
Definition qmf_step (inverse : bool) (i : Z) (rev_g : list D) : result (list D) :=
  if negb (((i + (if negb inverse then 1 else 0)) mod 2) =? 0) then
    gi <- vget rev_g i ;;
    vset rev_g i (dmul gi (of_Z (-1)))
  else Ok rev_g.

Definition qmf (g : list D) (inverse : bool) : result (list D) :=
  let L := n_elem g in
  let rev_g := reverse_vec g in
  for_range 0 L (qmf_step inverse) rev_g.

(** The 3-entry [field<vec>] describing a filter: its length [L] (the single
    entry of the first vector, read as an integer), [h] and [g]. *)
Record wave_filter : Type := {
  wf_L : Z;
  wf_h : list D;
  wf_g : list D
}.

(** The vector ["0.7071067811865475 0.7071067811865475"]. *)
Definition haar_g : list D :=
  [decimal 7071067811865475 10000000000000000;
   decimal 7071067811865475 10000000000000000].

(** [qmf(g)]: the default argument is [inverse = true]. *)
Definition haar_filter : result wave_filter :=
  h <- qmf haar_g true ;;
  Ok {| wf_L := 2; wf_h := h; wf_g := haar_g |}.

Definition select_filter (filter_name : string) : result wave_filter :=
  if String.eqb filter_name "haar" then haar_filter
  else Err UnsupportedFilter.

(** *** Boundary handling: the first statements of [dwt_arma] and [modwt_arma] *)

(** [x.resize(n)]: the leading elements are kept, new ones are zero. *)
Definition resize (x : list D) (n : Z) : list D :=
  firstn (Z.to_nat n) x ++ repeat (of_Z 0) (Z.to_nat n - length x).

(** [x.rows(first, last) = src] *)
Definition set_rows (x : list D) (first last : Z) (src : list D) : result (list D) :=
  if (first >? last) || (last >=? n_elem x) then Err IndexOutOfBounds
  else if negb (n_elem src =? last - first + 1) then Err IncompatibleDimensions
  else Ok (firstn (Z.to_nat first) x ++ src ++ skipn (Z.to_nat (last + 1)) x).

Definition boundary_extend (x : list D) (boundary : string) : result (list D) :=
  if String.eqb boundary "periodic" then Ok x
  else if String.eqb boundary "reflection" then
    let temp_N := n_elem x in
    let rev_vec := reverse_vec x in
    let x := resize x (uint (2 * temp_N)) in
    set_rows x temp_N (uint (2 * temp_N - 1)) rev_vec
  else Err UnsupportedBoundary.

(** *** The decimated transform *)

(** The body of the loop over [t]: the pair [(Wjt, Vjt)]. *)
Definition dwt_coef (L : Z) (h g x : list D) (M t : Z) : result (D * D) :=
  let u := to_int (uint (2 * t + 1)) in
  h0 <- vget h 0 ;; g0 <- vget g 0 ;; xu <- vget x u ;;
  '(_, Wjt, Vjt) <-
    for_range 1 L
      (fun n '(u, Wjt, Vjt) =>
         let u := u - 1 in
         let u := if u <? 0 then to_int (uint (M - 1)) else u in
         hn <- vget h n ;; gn <- vget g n ;; xu <- vget x u ;;
         Ok (u, dadd Wjt (dmul hn xu), dadd Vjt (dmul gn xu)))
      (u, dmul h0 xu, dmul g0 xu) ;;
  Ok (Wjt, Vjt).

(** The loop over the levels [j, j + 1, ...], [count] of them; [x] is the
    scaling output of the level before. *)
Fixpoint dwt_levels (count : nat) (j N L : Z) (h g x : list D) : result (list (list D)) :=
  match count with
  | O => Ok []
  | Datatypes.S count' =>
      let M := N / 2 ^ (j - 1) in
      let M_over_2 := M / 2 in
      WV <- tabulate (Z.to_nat M_over_2) 0 (dwt_coef L h g x M) ;;
      let Wj := map fst WV in
      let Vj := map snd WV in
      rest <- dwt_levels count' (j + 1) N L h g Vj ;;
      Ok (Wj :: rest)
  end.

Definition dwt_arma (x : list D) (filter_name : string) (nlevels : Z) (boundary : string)
  : result (list (list D)) :=
  x <- boundary_extend x boundary ;;
  let N := n_elem x in
  let J := nlevels in
  tau <- double_to_uint (2 ^ J) ;;
  if negb (N mod tau =? 0) then Err InvalidDecomposition
  else if tau >? N then Err InvalidDecomposition
  else
    filter_info <- select_filter filter_name ;;
    dwt_levels (Z.to_nat J) 1 N (wf_L filter_info) (wf_h filter_info) (wf_g filter_info) x.

(** *** The non-decimated transform *)

(** An integer-valued [double] converted to [int]. *)
Definition double_to_int (z : Z) : result Z :=
  if (- 2 ^ 31 <=? z) && (z <? 2 ^ 31) then Ok z else Err Undefined.

Definition modwt_coef (L : Z) (ht gt x : list D) (N j t : Z) : result (D * D) :=
  let k := to_int t in
  h0 <- vget ht 0 ;; g0 <- vget gt 0 ;; xk <- vget x k ;;
  '(_, Wjt, Vjt) <-
    for_range 1 L
      (fun n '(k, Wjt, Vjt) =>
         k <- double_to_int (k - 2 ^ (j - 1)) ;;
         let k := if k <? 0 then to_int (uint (k + N)) else k in
         hn <- vget ht n ;; gn <- vget gt n ;; xk <- vget x k ;;
         Ok (k, dadd Wjt (dmul hn xk), dadd Vjt (dmul gn xk)))
      (k, dmul h0 xk, dmul g0 xk) ;;
  Ok (Wjt, Vjt).

Fixpoint modwt_levels (count : nat) (j N L : Z) (ht gt x : list D) : result (list (list D)) :=
  match count with
  | O => Ok []
  | Datatypes.S count' =>
      WV <- tabulate (Z.to_nat N) 0 (modwt_coef L ht gt x N j) ;;
      let Wj := map fst WV in
      let Vj := map snd WV in
      rest <- modwt_levels count' (j + 1) N L ht gt Vj ;;
      Ok (Wj :: rest)
  end.

Definition modwt_arma (x : list D) (filter_name : string) (nlevels : Z) (boundary : string)
  : result (list (list D)) :=
  x <- boundary_extend x boundary ;;
  let N := n_elem x in
  let J := nlevels in
  tau <- double_to_uint (2 ^ J) ;;
  if tau >? N then Err InvalidDecomposition
  else
    filter_info <- select_filter filter_name ;;
    let transform_factor := dsqrt (of_Z 2) in
    let ht := map (fun a => ddiv a transform_factor) (wf_h filter_info) in
    let gt := map (fun a => ddiv a transform_factor) (wf_g filter_info) in
    modwt_levels (Z.to_nat J) 1 N (wf_L filter_info) ht gt x.

End Numeric.

Section Estimation.

Context {D : Type} {Dbl : Double D} {Rm : RMath D} {Ft : Fourier D} {Nan : NaN D}.

(** *** Autocovariance through the discrete Fourier transform *)

Definition dft_acf (x : list D) : result (list D) :=
  let n := to_int (n_elem x) in
  let x := resize x (uint (2 * n)) in
  let ff := fft x in
  let iff := map (fun c => (dadd (dmul (fst c) (fst c)) (dmul (snd c) (snd c)), of_Z 0)) ff in
  let out := map (fun c => ddiv (fst c) (of_Z n)) (ifft iff) in
  rows out 0 (uint (n - 1)).

(** *** Removal of the boundary coefficients *)

(** [ceil(a / b)] for [b > 0]. *)
Definition ceil_div (a b : Z) : Z := - ((- a) / b).

(** The number [n] of coefficients to remove at level [j], before it is
    clamped: [(binary_power - 1.0) * (m - 1.0)], replaced for the method
    ["dwt"] by [ceil((m - 2) * (1.0 - 1.0 / binary_power))].  The two
    expressions are computed in [double]: [binary_power = pow(2, j + 1)] is
    a power of two up to [j + 1 = 1023] and infinite beyond, where the
    product is an infinity or a NaN; [binary_power - 1.0] and
    [1.0 - 1.0 / binary_power] are exact up to [j + 1 = 53] and round to
    [binary_power] and to [1.0] beyond.  A product that fits an
    [unsigned int] is exact, and so is the argument of [ceil] then. *)
Definition trim_count (m : Z) (method : string) (j : Z) : result Z :=
  let binary_power := 2 ^ (j + 1) in
  let exact := j + 1 <=? 53 in
  n <- (if j + 1 <=? 1023 then
          double_to_uint ((if exact then binary_power - 1 else binary_power) * (m - 1))
        else Err Undefined) ;;
  if String.eqb method "dwt" then
    double_to_uint (if exact then ceil_div ((m - 2) * (binary_power - 1)) binary_power
                    else m - 2)
  else Ok n.

(** The body of the loop of [brick_wall]: the new value of [x(j)]. *)
Definition brick_wall_level (m : Z) (method : string) (x : list (list D)) (j : Z)
  : result (list D) :=
  n <- trim_count m method j ;;
  temp <- vget x j ;;
  let temp_size := n_elem temp in
  let n := Z.min n temp_size in
  rows temp n (uint (temp_size - 1)).

Definition brick_wall (x : list (list D)) (wave_filter : wave_filter (D := D)) (method : string)
  : result (list (list D)) :=
  let m := wf_L wave_filter in
  tabulate (length x) 0 (brick_wall_level m method x).

(** *** Wavelet variance and its confidence interval *)

(** [std::max(dims(i) / pow(2, i + 1), 1.0)] *)
Definition eta3_df (dim : D) (i : Z) : D := dmax (ddiv dim (pow2 (i + 1))) (of_Z 1).

(** The entries [out(i, 1)] and [out(i, 2)]. *)
Definition ci_eta3_bounds (y dims : list D) (p : D) (i : Z) : result (D * D) :=
  dim <- vget dims i ;;
  let eta3 := eta3_df dim i in
  yi <- vget y i ;;
  Ok (ddiv (dmul eta3 yi) (qchisq (dsub (of_Z 1) p) eta3),
      ddiv (dmul eta3 yi) (qchisq p eta3)).

(** A row of the matrix [out] is the triple of its three columns. *)
Definition ci_eta3 (y dims : list D) (p : D) : result (list (D * D * D)) :=
  let num_elem := n_elem dims in
  bounds <- tabulate (length dims) 0 (ci_eta3_bounds y dims p) ;;
  if n_elem y =? num_elem then
    Ok (map (fun yb => (fst yb, fst (snd yb), snd (snd yb))) (combine y bounds))
  else Err IncompatibleDimensions.

(** The body of the first loop of [wave_variance]: [(y(i), dims(i))]. *)
Definition level_stats (x : list (list D)) (i : Z) : result (D * D) :=
  temp <- vget x i ;;
  let dim := of_Z (n_elem temp) in
  Ok (ddiv (dot temp temp) dim, dim).

Definition wave_variance (x : list (list D)) (type : string) (p : D)
  : result (list (D * D * D)) :=
  stats <- tabulate (length x) 0 (level_stats x) ;;
  let y := map fst stats in
  let dims := map snd stats in
  if String.eqb type "eta3" then ci_eta3 y dims p
  else Err UnsupportedCIType.

(** *** The whole analysis *)

Record wav_var : Type := {
  variance : list D;
  low : list D;
  high : list D;
  scales : list D;
  V : list (list D);
  up_gauss : list D;
  dw_gauss : list D
}.

(** [diagmat(v)], a matrix being the list of its rows. *)
Definition diagmat (v : list D) : list (list D) :=
  map (fun i => map (fun j => if Nat.eqb i j then nth i v (of_Z 0) else of_Z 0)
                    (seq 0 (length v)))
      (seq 0 (length v)).

(** [diagvec(V)] *)
Definition diagvec (V : list (list D)) : list D :=
  map (fun i => nth i (nth i V []) (of_Z 0)) (seq 0 (length V)).

(** [a + c * sqrt(b)] and [a - c * sqrt(b)] on vectors of one length. *)
Definition gauss_bound (op : D -> D -> D) (a : list D) (c : D) (b : list D) : result (list D) :=
  if n_elem a =? n_elem b then
    Ok (map (fun ab => op (fst ab) (dmul c (dsqrt (snd ab)))) (combine a b))
  else Err IncompatibleDimensions.

(** [Aj(i)] *)
Definition diag_Aj (signal_modwt : list (list D)) (i : Z) : result D :=
  level <- vget signal_modwt i ;;
  temp <- dft_acf level ;;
  t0 <- vget temp 0 ;;
  Ok (dsub (dot temp temp) (ddiv (dmul t0 t0) (of_Z 2))).

Definition wavelet_variance_arma (signal : list D) (strWavelet compute_v : string)
  : result wav_var :=
  let p := decimal 25 1000 in
  let n_ts := n_elem signal in
  (* floor(log2(n_ts)); log2(0) is minus infinity *)
  nb_level <- (if n_ts =? 0 then Err Undefined else double_to_uint (Z.log2 n_ts)) ;;
  signal_modwt <- modwt_arma signal strWavelet nb_level "periodic" ;;
  filter_info <- select_filter strWavelet ;;
  signal_modwt_bw <- brick_wall signal_modwt filter_info "modwt" ;;
  vmod <- wave_variance signal_modwt_bw "eta3" p ;;
  let scales := map (fun i => pow2 (Z.of_nat i + 1)) (seq 0 (Z.to_nat nb_level)) in
  let ones := repeat (of_Z 1) (Z.to_nat nb_level) in
  let V := diagmat ones in
  let col0 := map (fun r => fst (fst r)) vmod in
  '(V, up_gauss, dw_gauss) <-
    (if String.eqb compute_v "full" || String.eqb compute_v "diag" then
       V <- (if String.eqb compute_v "diag" then
               Aj <- tabulate (length signal_modwt) 0 (diag_Aj signal_modwt) ;;
               level0 <- vget signal_modwt 0 ;;
               Ok (diagmat (map (fun a => ddiv (dmul (of_Z 2) a) (of_Z (n_elem level0))) Aj))
             else Ok V) ;;
       let z := qnorm (dsub (of_Z 1) p) in
       up <- gauss_bound dadd col0 z (diagvec V) ;;
       dw <- gauss_bound dsub col0 z (diagvec V) ;;
       Ok (V, up, dw)
     else
       Ok (diagmat ones,
           repeat datum_nan (Z.to_nat nb_level),
           repeat datum_nan (Z.to_nat nb_level))) ;;
  Ok {| variance := col0;
        low := map (fun r => snd (fst r)) vmod;
        high := map (fun r => snd r) vmod;
        scales := scales;
        V := V;
        up_gauss := up_gauss;
        dw_gauss := dw_gauss |}.

End Estimation.

(** ** Two arithmetics *)

(** *** IEEE binary64 *)

Definition float_of_Z (z : Z) : float := SF2Prim (binary_normalize prec emax z 0 false).

#[export] Instance float_Double : Double float := {|
  of_Z := float_of_Z;
  dadd := PrimFloat.add;
  dsub := PrimFloat.sub;
  dmul := PrimFloat.mul;
  ddiv := PrimFloat.div;
  dltb := PrimFloat.ltb;
  dsqrt := PrimFloat.sqrt
|}.

#[export] Instance float_NaN : NaN float := {| datum_nan := PrimFloat.nan |}.

(** *** Real numbers *)

Definition Rltb (a b : R) : bool := if Rlt_dec a b then true else false.

#[export] Instance R_Double : Double R := {|
  of_Z := IZR;
  dadd := Rplus;
  dsub := Rminus;
  dmul := Rmult;
  ddiv := Rdiv;
  dltb := Rltb;
  dsqrt := R_sqrt.sqrt
|}.

(** The transform that [arma::fft] computes on a real vector of length [N]:
    entry [k] is the sum over [t] of [x(t) * exp(- 2 pi i k t / N)]; and the
    one [arma::ifft] computes: entry [t] is the sum over [k] of
    [X(k) * exp(2 pi i k t / N)], divided by [N]. *)

Definition Rsum (l : list R) : R := fold_right Rplus 0%R l.

Definition angle (N k t : nat) : R := (2 * PI * INR k * INR t / INR N)%R.

Definition dft_entry (x : list R) (k : nat) : R * R :=
  let N := length x in
  (Rsum (map (fun t => nth t x 0 * cos (angle N k t)) (seq 0 N)),
   Rsum (map (fun t => - (nth t x 0 * sin (angle N k t))) (seq 0 N)))%R.

Definition dft (x : list R) : list (R * R) :=
  map (dft_entry x) (seq 0 (length x)).

Definition idft_entry (X : list (R * R)) (t : nat) : R * R :=
  let N := length X in
  (Rsum (map (fun k => fst (nth k X (0, 0)) * cos (angle N k t)
                       - snd (nth k X (0, 0)) * sin (angle N k t)) (seq 0 N)) / INR N,
   Rsum (map (fun k => fst (nth k X (0, 0)) * sin (angle N k t)
                       + snd (nth k X (0, 0)) * cos (angle N k t)) (seq 0 N)) / INR N)%R.

Definition idft (X : list (R * R)) : list (R * R) :=
  map (idft_entry X) (seq 0 (length X)).

#[export] Instance R_Fourier : Fourier R := {| fft := dft; ifft := idft |}.

(** A quantile function for the reals, given the two library functions. *)
Definition R_RMath (qc : R -> R -> R) (qn : R -> R) : RMath R :=
  {| qchisq := qc; qnorm := qn |}.

(** ** Closed forms the loops are compared with *)

Section ClosedForms.

Context {D : Type} {Dbl : Double D}.

(** [x * -1] *)
Definition negated (x : D) : D := dmul x (of_Z (-1)).

(** What [qmf] does to the element at index [i] of the reversed vector: with
    [inverse] it negates the odd indices, without it the even ones. *)
Definition qmf_sign (inverse : bool) (i : nat) (x : D) : D :=
  if Bool.eqb (Nat.odd i) inverse then negated x else x.

Fixpoint mapi_from (i : nat) (f : nat -> D -> D) (l : list D) : list D :=
  match l with
  | [] => []
  | a :: l' => f i a :: mapi_from (Datatypes.S i) f l'
  end.

End ClosedForms.

Section EstimationClosedForms.

Context {D : Type} {Dbl : Double D} {Rm : RMath D}.

(** Row [i] of the matrix of [ci_eta3]: the variance [yi], and the two bounds
    computed from it and from [dim], the entry [dims(i)]. *)
Definition eta3_row (p : D) (i : nat) (yi dim : D) : D * D * D :=
  let eta3 := dmax (ddiv dim (pow2 (Z.of_nat i + 1))) (of_Z 1) in
  (yi,
   ddiv (dmul eta3 yi) (qchisq (dsub (of_Z 1) p) eta3),
   ddiv (dmul eta3 yi) (qchisq p eta3)).

(** Row [i] of the matrix of [wave_variance], from the level it is given. *)
Definition variance_row (p : D) (i : nat) (level : list D) : D * D * D :=
  let dim := of_Z (n_elem level) in
  eta3_row p i (ddiv (dot level level) dim) dim.

End EstimationClosedForms.

Section TransformClosedForms.

Context {D : Type} {Dbl : Double D}.

(** One level of the decimated transform for a filter of length two: entry
    [t] pairs the wavelet and the scaling coefficient computed from the
    samples [2t + 1] and [2t]. *)
Definition haar_dwt_level (h0 h1 g0 g1 : D) (x : list D) : list (D * D) :=
  map (fun t => (dadd (dmul h0 (nth (2 * t + 1) x (of_Z 0))) (dmul h1 (nth (2 * t) x (of_Z 0))),
                 dadd (dmul g0 (nth (2 * t + 1) x (of_Z 0))) (dmul g1 (nth (2 * t) x (of_Z 0)))))
      (seq 0 (length x / 2)).

(** The wavelet coefficients of [J] levels, each level computed from the
    scaling coefficients of the level before. *)
Fixpoint dwt_pyramid (J : nat) (h0 h1 g0 g1 : D) (x : list D) : list (list D) :=
  match J with
  | O => []
  | Datatypes.S J' =>
      let WV := haar_dwt_level h0 h1 g0 g1 x in
      map fst WV :: dwt_pyramid J' h0 h1 g0 g1 (map snd WV)
  end.

(** One level of the non-decimated transform for a filter of length two:
    entry [t] is computed from the samples [t] and [t - shift], the index
    taken modulo the length. *)
Definition modwt_level (h0 h1 g0 g1 : D) (shift : Z) (x : list D) : list (D * D) :=
  map (fun t =>
         let k := Z.to_nat ((Z.of_nat t - shift) mod n_elem x) in
         (dadd (dmul h0 (nth t x (of_Z 0))) (dmul h1 (nth k x (of_Z 0))),
          dadd (dmul g0 (nth t x (of_Z 0))) (dmul g1 (nth k x (of_Z 0)))))
      (seq 0 (length x)).

(** The wavelet coefficients of the levels [j, j + 1, ...], [J] of them, the
    shift of level [j] being [2^(j-1)]. *)
Fixpoint modwt_pyramid (J : nat) (j : Z) (h0 h1 g0 g1 : D) (x : list D) : list (list D) :=
  match J with
  | O => []
  | Datatypes.S J' =>
      let WV := modwt_level h0 h1 g0 g1 (2 ^ (j - 1)) x in
      map fst WV :: modwt_pyramid J' (j + 1) h0 h1 g0 g1 (map snd WV)
  end.

End TransformClosedForms.

(** ** The process generators *)

(** R's random number generator: [R::rnorm(mean, sd)] and [R::runif(a, b)]
    return a value and advance the state [G] of the generator. *)
Class RandomSource (G D : Type) : Type := {
  rnorm : D -> D -> G -> D * G;
  runif : D -> D -> G -> D * G
}.

(** A vector of [count] entries filled in increasing order with successive
    draws. *)
Fixpoint draws {G D : Type} (count : nat) (draw : G -> D * G) (g : G) : list D * G :=
  match count with
  | O => ([], g)
  | Datatypes.S count' =>
      let (a, g1) := draw g in
      let (rest, g2) := draws count' draw g1 in
      (a :: rest, g2)
  end.

Section Generators.

Context {G D : Type} {Dbl : Double D} {Rs : RandomSource G D}.

(** [arma::cumsum]: the running sum, started at zero. *)
Fixpoint cumsum_from (acc : D) (x : list D) : list D :=
  match x with
  | [] => []
  | a :: x' => let acc' := dadd acc a in acc' :: cumsum_from acc' x'
  end.

Definition cumsum (x : list D) : list D := cumsum_from (of_Z 0) x.

(** *** build_file.cpp *)

Definition gen_white_noise (N : Z) (sigma_WN : D) (g : G) : list D * G :=
  draws (Z.to_nat N) (rnorm (of_Z 0) sigma_WN) g.

Definition gen_drift (N : Z) (slope : D) : list D :=
  let gd := repeat slope (Z.to_nat N) in
  cumsum gd.

(** The loop runs over [i = 1, ..., N - 1] and writes [gm(i - 1)]. *)
Definition gen_ar1 (N : Z) (phi sig2 : D) (g : G) : result (list D * G) :=
  let (wn, g) := gen_white_noise N (dsqrt sig2) g in
  let gm := repeat (of_Z 0) (Z.to_nat N) in
  gm <- for_range 1 N
          (fun i gm =>
             a <- vget gm (i - 1) ;;
             w <- vget wn (i - 1) ;;
             vset gm (i - 1) (dadd (dmul phi a) w))
          gm ;;
  Ok (gm, g).

(** [pow(real(x), 2) + pow(imag(x), 2)] on a complex vector. *)
Definition Mod_squared_arma (x : list (D * D)) : list D :=
  map (fun c => dadd (dmul (fst c) (fst c)) (dmul (snd c) (snd c))) x.

Definition Mod_arma (x : list (D * D)) : list D :=
  map (fun c => dsqrt (dadd (dmul (fst c) (fst c)) (dmul (snd c) (snd c)))) x.

End Generators.

(** *** gen_process.cpp *)

Module GenProcess.

Section Generators.

Context {G D : Type} {Dbl : Double D} {Rs : RandomSource G D}.

Definition gen_wn (N : Z) (sigma2 : D) (g : G) : list D * G :=
  let sigma := dsqrt sigma2 in
  draws (Z.to_nat N) (rnorm (of_Z 0) sigma) g.

Definition gen_dr (N : Z) (slope : D) : list D :=
  let gd := repeat slope (Z.to_nat N) in
  cumsum gd.

Definition gen_ar1 (N : Z) (phi sigma2 : D) (g : G) : result (list D * G) :=
  let (wn, g) := gen_wn (uint (N + 1)) sigma2 g in
  let gm := repeat (of_Z 0) (Z.to_nat (uint (N + 1))) in
  gm <- for_range 1 (N + 1)
          (fun i gm =>
             a <- vget gm (i - 1) ;;
             w <- vget wn i ;;
             vset gm i (dadd (dmul phi a) w))
          gm ;;
  out <- rows gm 1 N ;;
  Ok (out, g).

Definition gen_rw (N : Z) (sigma2 : D) (g : G) : list D * G :=
  let sigma := dsqrt sigma2 in
  let (grw, g) := draws (Z.to_nat N) (rnorm (of_Z 0) sigma) g in
  (cumsum grw, g).

Definition gen_ma1 (N : Z) (theta sigma2 : D) (g : G) : result (list D * G) :=
  let (wn, g) := gen_wn (uint (N + 1)) sigma2 g in
  let ma := repeat (of_Z 0) (Z.to_nat (uint (N + 1))) in
  ma <- for_range 1 (N + 1)
          (fun i ma =>
             w0 <- vget wn (i - 1) ;;
             w <- vget wn i ;;
             vset ma i (dadd (dmul theta w0) w))
          ma ;;
  out <- rows ma 1 N ;;
  Ok (out, g).

Definition gen_arma11 (N : Z) (phi theta sigma2 : D) (g : G) : result (list D * G) :=
  let (wn, g) := gen_wn (uint (N + 1)) sigma2 g in
  let arma := repeat (of_Z 0) (Z.to_nat (uint (N + 1))) in
  arma <- for_range 1 (N + 1)
            (fun i arma =>
               a <- vget arma (i - 1) ;;
               w0 <- vget wn (i - 1) ;;
               w <- vget wn i ;;
               vset arma i (dadd (dadd (dmul phi a) (dmul theta w0)) w))
            arma ;;
  out <- rows arma 1 N ;;
  Ok (out, g).

End Generators.

End GenProcess.

Section GeneratorClosedForms.

Context {D : Type} {Dbl : Double D}.

(** [x(t) = phi * x(t-1) + w(t)], from the value [prev] before the first
    innovation of [ws]. *)
Fixpoint ar1_from (phi prev : D) (ws : list D) : list D :=
  match ws with
  | [] => []
  | w :: ws' => let v := dadd (dmul phi prev) w in v :: ar1_from phi v ws'
  end.

(** [x(t) = theta * w(t-1) + w(t)], from the innovation [w0] before the
    first one of [ws]. *)
Fixpoint ma1_from (theta w0 : D) (ws : list D) : list D :=
  match ws with
  | [] => []
  | w :: ws' => dadd (dmul theta w0) w :: ma1_from theta w ws'
  end.

(** [x(t) = phi * x(t-1) + theta * w(t-1) + w(t)]. *)
Fixpoint arma11_from (phi theta prev w0 : D) (ws : list D) : list D :=
  match ws with
  | [] => []
  | w :: ws' =>
      let v := dadd (dadd (dmul phi prev) (dmul theta w0)) w in
      v :: arma11_from phi theta v w ws'
  end.

(** The values a loop [v(i) = next(v(i-1), w(i-1), w(i))] writes. *)
Fixpoint recur (next : D -> D -> D -> D) (prev w0 : D) (ws : list D) : list D :=
  match ws with
  | [] => []
  | w :: ws' => let v := next prev w0 w in v :: recur next v w ws'
  end.

End GeneratorClosedForms.

(** *** gen_process.cpp: ARMA processes and sums of processes *)

(** [gen_arma] also ends by [throw std::runtime_error(what)], which the
    functions [gen_model] and [gen_lts] that call it let through. *)
Inductive failure : Type :=
| Stopped (e : error)            (* the outcomes of [error] *)
| RuntimeError (what : string).  (* throw std::runtime_error(what) *)

Inductive outcome (A : Type) : Type :=
| Returns (a : A)
| Throws (f : failure).

Arguments Returns {A} a.
Arguments Throws {A} f.

Definition lift {A : Type} (r : result A) : outcome A :=
  match r with
  | Ok a => Returns a
  | Err e => Throws (Stopped e)
  end.

Definition obind {A B : Type} (r : outcome A) (k : A -> outcome B) : outcome B :=
  match r with
  | Returns a => k a
  | Throws f => Throws f
  end.

Notation "x <~ r ;; k" := (obind r (fun x => k))
  (at level 61, r at next level, right associativity).
Notation "' p <~ r ;; k" := (obind r (fun x => let p := x in k))
  (at level 61, p pattern, r at next level, right associativity).

(** [for (i = start; i < start + count; i++) s = body(i, s)] *)
Fixpoint loop_from {S : Type} (count : nat) (i : Z) (body : Z -> S -> outcome S) (s : S)
  : outcome S :=
  match count with
  | O => Returns s
  | Datatypes.S count' => s' <~ body i s ;; loop_from count' (i + 1) body s'
  end.

Definition loop {S : Type} (lo hi : Z) (body : Z -> S -> outcome S) (s : S) : outcome S :=
  loop_from (Z.to_nat (hi - lo)) lo body s.

(** The functions of [rtoarmadillo.h] and [ts_checks.h] that gen_process.cpp
    calls: [diff_cpp(x)], [minroot(x)], [cfilter(x, filter, sides, circular)]
    and [rfilter(x, filter, init)]. *)
Class TimeSeries (D : Type) : Type := {
  diff_cpp : list D -> outcome (list D);
  minroot : list (D * D) -> outcome D;
  cfilter : list D -> list D -> Z -> bool -> outcome (list D);
  rfilter : list D -> list D -> list D -> outcome (list D)
}.

(** Unary minus, [operator<=], [log], and the integers [ceil(x)] and
    [trunc(x)] of a finite [x] (there is none for an infinity or a NaN). *)
Class Libm (D : Type) : Type := {
  dneg : D -> D;
  dleb : D -> D -> bool;
  dlog : D -> D;
  ceil_Z : D -> option Z;
  trunc_Z : D -> option Z
}.

Module GenModel.

Section Processes.

Context {G D : Type} {Dbl : Double D} {Rs : RandomSource G D}
        {Ts : TimeSeries D} {Lm : Libm D}.

(** A [double] converted to [unsigned int]: the fractional part is dropped;
    there is no result when the integer part does not fit. *)
Definition to_unsigned (d : D) : outcome Z :=
  match trunc_Z d with
  | Some z => lift (double_to_uint z)
  | None => Throws (Stopped Undefined)
  end.

(** [a + b] and [a += b] on vectors, with Armadillo's size check. *)
Definition vplus (a b : list D) : list D :=
  map (fun ab => dadd (fst ab) (snd ab)) (combine a b).

Definition vadd (a b : list D) : result (list D) :=
  if n_elem a =? n_elem b then Ok (vplus a b) else Err IncompatibleDimensions.

(** The loop runs over [i = 0, ..., N] and writes [gu(i)], which is out of
    bounds at once when [N + 1] wraps around to zero. *)
Definition gen_qn (N : Z) (q2 : D) (g : G) : outcome (list D * G) :=
  let sqrt12 := dsqrt (of_Z 12) in
  if uint (N + 1) =? 0 then Throws (Stopped IndexOutOfBounds)
  else
    let (gu, g) :=
      draws (Z.to_nat (uint (N + 1)))
            (fun g => let (u, g) := runif (of_Z 0) (of_Z 1) g in (dmul sqrt12 u, g)) g in
    d <~ diff_cpp gu ;;
    Returns (map (dmul (dsqrt q2)) d, g).

Definition gen_arma (N : Z) (ar ma : list D) (sigma2 : D) (n_start : Z) (g : G)
  : outcome (list D * G) :=
  let p := n_elem ar in
  let q := n_elem ma in
  let one := [of_Z 1] in
  let sd := dsqrt sigma2 in
  min_root <~
    (if negb (p =? 0) then
       min_root <~ minroot (map (fun a => (a, of_Z 0)) (one ++ map dneg ar)) ;;
       if dleb min_root (of_Z 1)
       then Throws (RuntimeError "Supplied model's AR component is NOT invertible!")
       else Returns min_root
     else Returns (of_Z 1)) ;;
  n_start <~
    (if n_start =? 0 then
       match (if p >? 0 then ceil_Z (ddiv (of_Z 6) (dlog min_root)) else Some 0) with
       | Some c => lift (double_to_uint (uint (p + q) + c))
       | None => Throws (Stopped Undefined)
       end
     else Returns n_start) ;;
  if n_start <? uint (p + q)
  then Throws (RuntimeError "burn-in 'n.start' must be as long as 'ar + ma'")
  else
    let (innov, g) := draws (Z.to_nat N) (rnorm (of_Z 0) sd) g in
    let (start_innov, g) := draws (Z.to_nat n_start) (rnorm (of_Z 0) sd) g in
    let x := start_innov ++ innov in
    x <~ (if q >? 0 then
            x <~ cfilter x (one ++ ma) 1 false ;;
            lift (set_rows x 0 (uint (q - 1)) (repeat (of_Z 0) (Z.to_nat q)))
          else Returns x) ;;
    x <~ (if p >? 0 then rfilter x ar (repeat (of_Z 0) (Z.to_nat p)) else Returns x) ;;
    x <~ (if n_start >? 0 then lift (rows x n_start (uint (n_elem x - 1)))
          else Returns x) ;;
    Returns (x, g).

(** The parameters of an ARMA process: [objdesc(i)] holds the orders [p] and
    [q], [theta] holds the [p] AR coefficients, the [q] MA coefficients and
    the variance from [i_theta] on; the index of the variance is returned. *)
Definition arma_params (theta : list D) (objdesc : list (list D)) (i i_theta : Z)
  : outcome (list D * list D * D * Z) :=
  model_params <~ lift (vget objdesc i) ;;
  p0 <~ lift (vget model_params 0) ;;
  p <~ to_unsigned p0 ;;
  q0 <~ lift (vget model_params 1) ;;
  q <~ to_unsigned q0 ;;
  ar <~ (if p =? 0 then Returns []
         else lift (rows theta i_theta (uint (i_theta + p - 1)))) ;;
  let i_theta := uint (i_theta + p) in
  ma <~ (if q =? 0 then Returns []
         else lift (rows theta i_theta (uint (i_theta + q - 1)))) ;;
  let i_theta := uint (i_theta + q) in
  sig2 <~ lift (vget theta i_theta) ;;
  Returns (ar, ma, sig2, i_theta).

(** The body of the loop of [gen_model] on the state [(x, i_theta)] and the
    state of the random generator. *)
Definition gen_model_body (N : Z) (theta : list D) (desc : list string)
    (objdesc : list (list D)) (i : Z) (st : list D * Z * G) : outcome (list D * Z * G) :=
  let '(x, i_theta, g) := st in
  theta_value <~ lift (vget theta i_theta) ;;
  let element_type := nth (Z.to_nat i) desc ""%string in
  ' (x, i_theta, g) <~
    (if (element_type =? "AR1")%string || (element_type =? "GM")%string then
       let i_theta := uint (i_theta + 1) in
       sig2 <~ lift (vget theta i_theta) ;;
       ' (v, g) <~ lift (GenProcess.gen_ar1 N theta_value sig2 g) ;;
       x <~ lift (vadd x v) ;;
       Returns (x, i_theta, g)
     else if (element_type =? "WN")%string then
       let (v, g) := GenProcess.gen_wn N theta_value g in
       x <~ lift (vadd x v) ;;
       Returns (x, i_theta, g)
     else if (element_type =? "DR")%string then
       x <~ lift (vadd x (GenProcess.gen_dr N theta_value)) ;;
       Returns (x, i_theta, g)
     else if (element_type =? "QN")%string then
       ' (v, g) <~ gen_qn N theta_value g ;;
       x <~ lift (vadd x v) ;;
       Returns (x, i_theta, g)
     else if (element_type =? "RW")%string then
       let (v, g) := GenProcess.gen_rw N theta_value g in
       x <~ lift (vadd x v) ;;
       Returns (x, i_theta, g)
     else
       ' (ar, ma, sig2, i_theta) <~ arma_params theta objdesc i i_theta ;;
       ' (v, g) <~ gen_arma N ar ma sig2 0 g ;;
       x <~ lift (vadd x v) ;;
       Returns (x, i_theta, g)) ;;
  Returns (x, uint (i_theta + 1), g).

Definition gen_model (N : Z) (theta : list D) (desc : list string)
    (objdesc : list (list D)) (g : G) : outcome (list D * G) :=
  let x := repeat (of_Z 0) (Z.to_nat N) in
  let i_theta := 0 in
  let num_desc := uint (n_elem desc) in
  ' (x, _, g) <~ loop 0 num_desc (gen_model_body N theta desc objdesc) (x, i_theta, g) ;;
  Returns (x, g).

(** A matrix of [n_rows] rows is the list of its columns.
    [x.col(i) = v], then [x.col(j) += x.col(i)]. *)
Definition set_col (x : list (list D)) (n_rows i : Z) (v : list D)
  : result (list (list D)) :=
  if i >=? n_elem x then Err IndexOutOfBounds
  else if n_elem v =? n_rows then vset x i v
  else Err IncompatibleDimensions.

Definition add_col (x : list (list D)) (j i : Z) : result (list (list D)) :=
  a <- vget x j ;;
  b <- vget x i ;;
  s <- vadd a b ;;
  vset x j s.

Definition store_process (x : list (list D)) (n_rows num_desc i : Z) (v : list D)
  : result (list (list D)) :=
  x <- set_col x n_rows i v ;;
  add_col x num_desc i.

(** The body of the loop of [gen_lts]. *)
Definition gen_lts_body (N : Z) (theta : list D) (desc : list string)
    (objdesc : list (list D)) (num_desc : Z) (i : Z) (st : list (list D) * Z * G)
  : outcome (list (list D) * Z * G) :=
  let '(x, i_theta, g) := st in
  theta_value <~ lift (vget theta i_theta) ;;
  let element_type := nth (Z.to_nat i) desc ""%string in
  ' (x, i_theta, g) <~
    (if (element_type =? "AR1")%string || (element_type =? "GM")%string then
       let i_theta := uint (i_theta + 1) in
       sig2 <~ lift (vget theta i_theta) ;;
       ' (v, g) <~ lift (GenProcess.gen_ar1 N theta_value sig2 g) ;;
       x <~ lift (store_process x N num_desc i v) ;;
       Returns (x, i_theta, g)
     else if (element_type =? "WN")%string then
       let (v, g) := GenProcess.gen_wn N theta_value g in
       x <~ lift (store_process x N num_desc i v) ;;
       Returns (x, i_theta, g)
     else if (element_type =? "DR")%string then
       x <~ lift (store_process x N num_desc i (GenProcess.gen_dr N theta_value)) ;;
       Returns (x, i_theta, g)
     else if (element_type =? "QN")%string then
       ' (v, g) <~ gen_qn N theta_value g ;;
       x <~ lift (store_process x N num_desc i v) ;;
       Returns (x, i_theta, g)
     else if (element_type =? "RW")%string then
       let (v, g) := GenProcess.gen_rw N theta_value g in
       x <~ lift (store_process x N num_desc i v) ;;
       Returns (x, i_theta, g)
     else
       ' (ar, ma, sig2, i_theta) <~ arma_params theta objdesc i i_theta ;;
       ' (v, g) <~ gen_arma N ar ma sig2 0 g ;;
       x <~ lift (store_process x N num_desc i v) ;;
       Returns (x, i_theta, g)) ;;
  Returns (x, uint (i_theta + 1), g).

Definition gen_lts (N : Z) (theta : list D) (desc : list string)
    (objdesc : list (list D)) (g : G) : outcome (list (list D) * G) :=
  let i_theta := 0 in
  let num_desc := uint (n_elem desc) in
  let x := repeat (repeat (of_Z 0) (Z.to_nat N)) (Z.to_nat (uint (num_desc + 1))) in
  ' (x, _, g) <~ loop 0 num_desc (gen_lts_body N theta desc objdesc num_desc)
                   (x, i_theta, g) ;;
  Returns (x, g).

(** Process number [i] of a model taken by itself: its values, the index in
    [theta] of the next process and the state of the generator after it. *)
Definition process (N : Z) (theta : list D) (desc : list string)
    (objdesc : list (list D)) (i i_theta : Z) (g : G) : outcome (list D * Z * G) :=
  theta_value <~ lift (vget theta i_theta) ;;
  let element_type := nth (Z.to_nat i) desc ""%string in
  if (element_type =? "AR1")%string || (element_type =? "GM")%string then
    sig2 <~ lift (vget theta (uint (i_theta + 1))) ;;
    ' (v, g) <~ lift (GenProcess.gen_ar1 N theta_value sig2 g) ;;
    Returns (v, uint (uint (i_theta + 1) + 1), g)
  else if (element_type =? "WN")%string then
    let (v, g) := GenProcess.gen_wn N theta_value g in
    Returns (v, uint (i_theta + 1), g)
  else if (element_type =? "DR")%string then
    Returns (GenProcess.gen_dr N theta_value, uint (i_theta + 1), g)
  else if (element_type =? "QN")%string then
    ' (v, g) <~ gen_qn N theta_value g ;;
    Returns (v, uint (i_theta + 1), g)
  else if (element_type =? "RW")%string then
    let (v, g) := GenProcess.gen_rw N theta_value g in
    Returns (v, uint (i_theta + 1), g)
  else
    ' (ar, ma, sig2, i_theta) <~ arma_params theta objdesc i i_theta ;;
    ' (v, g) <~ gen_arma N ar ma sig2 0 g ;;
    Returns (v, uint (i_theta + 1), g).

(** The processes [i, i + 1, ...], [count] of them, one after the other: each
    takes its parameters in [theta] where the one before stopped, and each
    must have [N] values. *)
Fixpoint processes (count : nat) (N : Z) (theta : list D) (desc : list string)
    (objdesc : list (list D)) (i i_theta : Z) (g : G)
  : outcome (list (list D) * Z * G) :=
  match count with
  | O => Returns ([], i_theta, g)
  | Datatypes.S count' =>
      ' (v, i_theta, g) <~ process N theta desc objdesc i i_theta g ;;
      if n_elem v =? N then
        ' (vs, i_theta, g) <~ processes count' N theta desc objdesc (i + 1) i_theta g ;;
        Returns (v :: vs, i_theta, g)
      else Throws (Stopped IncompatibleDimensions)
  end.

End Processes.

End GenModel.

#[export] Instance R_Libm : Libm R := {|
  dneg := Ropp;
  dleb := fun a b => negb (Rltb b a);
  dlog := ln;
  ceil_Z := fun x => Some (- Int_part (- x));
  trunc_Z := fun x => Some (if Rltb x 0 then - Int_part (- x) else Int_part x)
|}.

(** An instance for the models that hold no "QN" and no ARMA process, which
    call none of the four functions. *)
Definition no_time_series {D : Type} : TimeSeries D := {|
  diff_cpp := fun _ => Throws (RuntimeError "diff_cpp");
  minroot := fun _ => Throws (RuntimeError "minroot");
  cfilter := fun _ _ _ _ => Throws (RuntimeError "cfilter");
  rfilter := fun _ _ _ => Throws (RuntimeError "rfilter")
|}.

(** A deterministic source to run the generators on: the state counts the
    draws, and draw number [k] of [rnorm mean sd] is [mean + sd * k]. *)
Definition counter_source {D : Type} {Dbl : Double D} : RandomSource Z D := {|
  rnorm := fun mean sd k => (dadd mean (dmul sd (of_Z k)), k + 1);
  runif := fun a b k => (dadd a (dmul (dsub b a) (of_Z k)), k + 1)
|}.

(** * Properties *)

(** ** Loops, vectors, machine integers *)

Lemma bind_ok {A B : Type} (r : result A) (k : A -> result B) (b : B) :
  bind r k = Ok b -> exists a, r = Ok a /\ k a = Ok b.
Proof.
  destruct r as [a|e]; simpl; intros Hk; [exists a; auto | discriminate].
Qed.

Lemma n_elem_nonneg {A : Type} (v : list A) : 0 <= n_elem v.
Proof. unfold n_elem; lia. Qed.

Lemma n_elem_app {A : Type} (u v : list A) : n_elem (u ++ v) = n_elem u + n_elem v.
Proof. unfold n_elem; rewrite length_app; lia. Qed.

Lemma n_elem_map {A B : Type} (f : A -> B) (v : list A) : n_elem (map f v) = n_elem v.
Proof. unfold n_elem; now rewrite length_map. Qed.

Lemma vget_nth {A : Type} (v : list A) (i : nat) (a : A) :
  nth_error v i = Some a -> vget v (Z.of_nat i) = Ok a.
Proof.
  intros Hn. unfold vget, n_elem.
  assert (Hlt : (i < length v)%nat) by (apply nth_error_Some; congruence).
  replace ((0 <=? Z.of_nat i) && (Z.of_nat i <? Z.of_nat (length v))) with true
    by (symmetry; apply andb_true_iff; split; [apply Z.leb_le | apply Z.ltb_lt]; lia).
  now rewrite Nat2Z.id, Hn.
Qed.

Lemma vget_in_range {A : Type} (v : list A) (i : Z) :
  0 <= i < n_elem v -> exists a, vget v i = Ok a /\ nth_error v (Z.to_nat i) = Some a.
Proof.
  intros Hi. unfold n_elem in Hi.
  destruct (nth_error v (Z.to_nat i)) as [a|] eqn:Hn.
  - exists a; split; [|reflexivity].
    rewrite <- (Z2Nat.id i) by lia. now apply vget_nth.
  - apply nth_error_None in Hn; lia.
Qed.

Lemma set_nth_app {A : Type} (pre : list A) (a b : A) (post : list A) :
  set_nth (pre ++ a :: post) (length pre) b = pre ++ b :: post.
Proof. induction pre as [|c pre IH]; simpl; [reflexivity | now rewrite IH]. Qed.

Lemma tabulate_length {A : Type} (count : nat) (i : Z) (f : Z -> result A) (l : list A) :
  tabulate count i f = Ok l -> length l = count.
Proof.
  revert i l. induction count as [|c IH]; simpl; intros i l Ht.
  - now injection Ht as <-.
  - apply bind_ok in Ht. destruct Ht as (a & _ & Ht).
    apply bind_ok in Ht. destruct Ht as (rest & Hr & Ht).
    injection Ht as <-. simpl. f_equal. eauto.
Qed.

Lemma tabulate_nth {A : Type} (count : nat) (i : Z) (f : Z -> result A) (l : list A) :
  tabulate count i f = Ok l ->
  forall k, (k < count)%nat ->
       exists a, f (i + Z.of_nat k) = Ok a /\ nth_error l k = Some a.
Proof.
  revert i l. induction count as [|c IH]; simpl; intros i l Ht k Hk; [lia|].
  apply bind_ok in Ht. destruct Ht as (a & Ha & Ht).
  apply bind_ok in Ht. destruct Ht as (rest & Hr & Ht).
  injection Ht as <-.
  destruct k as [|k].
  - exists a. rewrite Z.add_0_r. auto.
  - destruct (IH _ _ Hr k ltac:(lia)) as (b & Hb & Hn).
    exists b. split; [|exact Hn].
    rewrite <- Hb. f_equal. lia.
Qed.

Lemma tabulate_ok {A : Type} (count : nat) (i : Z) (f : Z -> result A) :
  (forall k, (k < count)%nat -> exists a, f (i + Z.of_nat k) = Ok a) ->
  exists l, tabulate count i f = Ok l.
Proof.
  revert i. induction count as [|c IH]; simpl; intros i Hf; [eauto|].
  destruct (Hf O ltac:(lia)) as (a & Ha). rewrite Z.add_0_r in Ha. rewrite Ha. simpl.
  destruct (IH (i + 1)) as (rest & Hr).
  - intros k Hk. destruct (Hf (Datatypes.S k) ltac:(lia)) as (b & Hb).
    exists b. rewrite <- Hb. f_equal. lia.
  - rewrite Hr. simpl. eauto.
Qed.

Lemma tabulate_err_inv {A : Type} (count : nat) (i : Z) (f : Z -> result A) (e : error) :
  tabulate count i f = Err e ->
  exists k, (k < count)%nat /\ f (i + Z.of_nat k) = Err e.
Proof.
  revert i. induction count as [|c IH]; simpl; intros i Ht; [discriminate|].
  destruct (f i) as [a|e'] eqn:Hfi; simpl in Ht.
  - destruct (tabulate c (i + 1) f) as [rest|e'] eqn:Hrest; simpl in Ht; [discriminate|].
    injection Ht as ->.
    destruct (IH _ Hrest) as (k & Hk & Hfk).
    exists (Datatypes.S k). split; [lia|]. rewrite <- Hfk. f_equal. lia.
  - injection Ht as ->. exists O. split; [lia|]. now rewrite Z.add_0_r.
Qed.

Lemma tabulate_ext {A : Type} (count : nat) (i : Z) (f g : Z -> result A) :
  (forall k, (k < count)%nat -> f (i + Z.of_nat k) = g (i + Z.of_nat k)) ->
  tabulate count i f = tabulate count i g.
Proof.
  revert i. induction count as [|c IH]; simpl; intros i Hfg; [reflexivity|].
  assert (Hi : f i = g i) by (generalize (Hfg O ltac:(lia)); now rewrite Z.add_0_r).
  rewrite Hi. destruct (g i) as [a|e]; simpl; [|reflexivity].
  rewrite (IH (i + 1)); [reflexivity|].
  intros k Hk. replace (i + 1 + Z.of_nat k) with (i + Z.of_nat (Datatypes.S k)) by lia.
  apply Hfg. lia.
Qed.

Lemma uint_small (z : Z) : 0 <= z < 2 ^ 32 -> uint z = z.
Proof. intros Hz. unfold uint. now apply Z.mod_small. Qed.

Lemma to_int_small (z : Z) : z < 2 ^ 31 -> to_int z = z.
Proof.
  intros Hz. unfold to_int.
  destruct (z <? 2 ^ 31) eqn:Hb; [reflexivity | apply Z.ltb_ge in Hb; lia].
Qed.

Lemma double_to_uint_ok (z : Z) : 0 <= z < 2 ^ 32 -> double_to_uint z = Ok z.
Proof.
  intros Hz. unfold double_to_uint.
  replace ((0 <=? z) && (z <? 2 ^ 32)) with true; [reflexivity|].
  symmetry; apply andb_true_iff; split; [apply Z.leb_le | apply Z.ltb_lt]; lia.
Qed.

Lemma double_to_int_ok (z : Z) : - 2 ^ 31 <= z < 2 ^ 31 -> double_to_int z = Ok z.
Proof.
  intros Hz. unfold double_to_int.
  replace ((- 2 ^ 31 <=? z) && (z <? 2 ^ 31)) with true; [reflexivity|].
  symmetry; apply andb_true_iff; split; [apply Z.leb_le | apply Z.ltb_lt]; lia.
Qed.

Lemma parity_of_nat (i : nat) :
  Z.odd (Z.of_nat i) = Nat.odd i /\ Z.even (Z.of_nat i) = Nat.even i.
Proof.
  induction i as [|i [IHo IHe]]; [split; reflexivity|].
  rewrite Nat2Z.inj_succ, Z.odd_succ, Z.even_succ, Nat.odd_succ, Nat.even_succ.
  split; assumption.
Qed.

Lemma qmf_test_parity (inverse : bool) (i : nat) :
  negb ((Z.of_nat i + (if negb inverse then 1 else 0)) mod 2 =? 0)
  = Bool.eqb (Nat.odd i) inverse.
Proof.
  rewrite Zmod_odd, Z.odd_add.
  destruct (parity_of_nat i) as [-> _].
  destruct (Nat.odd i), inverse; reflexivity.
Qed.

(** ** The quadrature mirror filter *)

Section QmfFacts.

Context {D : Type} {Dbl : Double D}.

Lemma mapi_from_length (f : nat -> D -> D) (l : list D) (i : nat) :
  length (mapi_from i f l) = length l.
Proof. revert i; induction l as [|a l IH]; simpl; intros i; [reflexivity | now rewrite IH]. Qed.

Lemma mapi_from_nth (f : nat -> D -> D) (l : list D) (i k : nat) (x : D) :
  nth_error l k = Some x -> nth_error (mapi_from i f l) k = Some (f (i + k)%nat x).
Proof.
  revert i k. induction l as [|a l IH]; intros i k Hk.
  - destruct k; discriminate.
  - destruct k as [|k]; simpl in *.
    + injection Hk as ->. now rewrite Nat.add_0_r.
    + rewrite (IH (Datatypes.S i) k Hk). do 2 f_equal. lia.
Qed.

(** The loop of [qmf], started at index [length pre] with the elements of
    [pre] already treated. *)
Lemma qmf_loop (inverse : bool) (l pre : list D) :
  for_loop (length l) (n_elem pre) (qmf_step inverse) (pre ++ l)
  = Ok (pre ++ mapi_from (length pre) (qmf_sign inverse) l).
Proof.
  revert pre. induction l as [|a l IH]; intros pre; [reflexivity|].
  cbn [length for_loop mapi_from].
  assert (Hstep : qmf_step inverse (n_elem pre) (pre ++ a :: l)
                  = Ok (pre ++ qmf_sign inverse (length pre) a :: l)).
  { unfold qmf_step, qmf_sign, n_elem. rewrite qmf_test_parity.
    destruct (Bool.eqb (Nat.odd (length pre)) inverse); [|reflexivity].
    rewrite (vget_nth (pre ++ a :: l) (length pre) a)
      by (rewrite nth_error_app2, Nat.sub_diag; [reflexivity | lia]).
    cbn [bind]. unfold vset, n_elem. rewrite length_app. cbn [length].
    replace ((0 <=? Z.of_nat (length pre))
             && (Z.of_nat (length pre) <? Z.of_nat (length pre + Datatypes.S (length l))))
      with true
      by (symmetry; apply andb_true_iff; split; [apply Z.leb_le | apply Z.ltb_lt]; lia).
    now rewrite Nat2Z.id, set_nth_app. }
  rewrite Hstep. cbn [bind].
  specialize (IH (pre ++ [qmf_sign inverse (length pre) a])).
  rewrite n_elem_app in IH. unfold n_elem at 2 in IH. cbn [length Z.of_nat] in IH.
  rewrite <- app_assoc in IH. cbn [app] in IH.
  replace (n_elem pre + Z.pos (Pos.of_succ_nat 0)) with (n_elem pre + 1) in IH by lia.
  rewrite IH. rewrite length_app, <- app_assoc. cbn [length app].
  now rewrite Nat.add_1_r.
Qed.

Lemma qmf_closed_form (g : list D) (inverse : bool) :
  qmf g inverse = Ok (mapi_from 0 (qmf_sign inverse) (rev g)).
Proof.
  unfold qmf, for_range, reverse_vec.
  rewrite Z.sub_0_r. unfold n_elem at 1. rewrite Nat2Z.id, <- length_rev.
  exact (qmf_loop inverse (rev g) []).
Qed.

Lemma haar_filter_value :
  haar_filter = Ok {| wf_L := 2;
                      wf_h := [decimal 7071067811865475 10000000000000000;
                               negated (decimal 7071067811865475 10000000000000000)];
                      wf_g := haar_g |}.
Proof. unfold haar_filter. rewrite qmf_closed_form. reflexivity. Qed.

End QmfFacts.

(** ** The two transforms *)

Section TransformFacts.

Context {D : Type} {Dbl : Double D}.

Lemma select_filter_haar :
  select_filter "haar"
  = Ok {| wf_L := 2;
          wf_h := [decimal 7071067811865475 10000000000000000;
                   negated (decimal 7071067811865475 10000000000000000)];
          wf_g := haar_g |}.
Proof. unfold select_filter. cbn [String.eqb Ascii.eqb Bool.eqb]. apply haar_filter_value. Qed.

Lemma boundary_periodic (x : list D) : boundary_extend x "periodic" = Ok x.
Proof. reflexivity. Qed.

Lemma for_range_1_2 {S : Type} (body : Z -> S -> result S) (s : S) :
  for_range 1 2 body s = (s' <- body 1 s ;; Ok s').
Proof. reflexivity. Qed.

(** With a filter of length two the inner loop runs once and stays inside the
    current signal. *)
Lemma dwt_coef_ok (h0 h1 g0 g1 : D) (x : list D) (M t : Z) :
  0 <= t -> 2 * t + 1 < n_elem x -> n_elem x < 2 ^ 31 ->
  exists WV, dwt_coef 2 [h0; h1] [g0; g1] x M t = Ok WV.
Proof.
  intros Ht Hu Hx. unfold dwt_coef.
  rewrite uint_small, to_int_small by lia.
  destruct (vget_in_range x (2 * t + 1) ltac:(lia)) as (x1 & Hx1 & _).
  destruct (vget_in_range x (2 * t) ltac:(lia)) as (x0 & Hx0 & _).
  change (vget [h0; h1] 0) with (Ok h0). change (vget [g0; g1] 0) with (Ok g0).
  cbn [bind]. rewrite Hx1. cbn [bind]. rewrite for_range_1_2. cbv beta iota zeta.
  change (vget [h0; h1] 1) with (Ok h1). change (vget [g0; g1] 1) with (Ok g1).
  replace (2 * t + 1 - 1) with (2 * t) by lia.
  destruct (2 * t <? 0) eqn:Hneg; [apply Z.ltb_lt in Hneg; lia|].
  cbn [bind]. rewrite Hx0. cbn [bind]. eauto.
Qed.

Lemma dwt_levels_ok (h0 h1 g0 g1 : D) (N : Z) (count : nat) :
  N < 2 ^ 31 ->
  forall (j : Z) (x : list D),
    1 <= j -> n_elem x = N / 2 ^ (j - 1) ->
    exists y, dwt_levels count j N 2 [h0; h1] [g0; g1] x = Ok y
              /\ length y = count
              /\ forall k w, nth_error y k = Some w ->
                             n_elem w = N / 2 ^ (j + Z.of_nat k).
Proof.
  intros HN. induction count as [|c IH]; intros j x Hj Hx.
  - exists []. split; [reflexivity|]. split; [reflexivity|].
    intros [|k] w; discriminate.
  - cbn [dwt_levels].
    assert (H0N : 0 <= N / 2 ^ (j - 1)) by (rewrite <- Hx; apply n_elem_nonneg).
    assert (Hpow : 0 < 2 ^ (j - 1)) by (apply Z.pow_pos_nonneg; lia).
    assert (HM : N / 2 ^ (j - 1) <= Z.max N 0).
    { destruct (Z.le_gt_cases 0 N) as [Hpos|Hneg].
      - apply Z.le_trans with N; [|lia].
        apply Z.div_le_upper_bound; [lia|]. nia.
      - assert (N / 2 ^ (j - 1) < 0) by (apply Z.div_lt_upper_bound; lia). lia. }
    set (M := N / 2 ^ (j - 1)) in *.
    assert (Hhalf : 0 <= M / 2) by (apply Z.div_pos; lia).
    assert (H2half : 2 * (M / 2) <= M) by (apply Z.mul_div_le; lia).
    destruct (tabulate_ok (Z.to_nat (M / 2)) 0 (dwt_coef 2 [h0; h1] [g0; g1] x M))
      as (WV & HWV).
    { intros k Hk. apply dwt_coef_ok; lia. }
    rewrite HWV. cbn [bind].
    assert (HlenWV : length WV = Z.to_nat (M / 2)) by (eapply tabulate_length; eauto).
    assert (Hhalf_eq : M / 2 = N / 2 ^ j).
    { unfold M. rewrite Z.div_div by lia.
      f_equal. replace j with (Z.succ (j - 1)) at 2 by lia.
      rewrite Z.pow_succ_r by lia. lia. }
    destruct (IH (j + 1) (map snd WV)) as (rest & Hrest & Hlen & Hlevels).
    { lia. }
    { rewrite n_elem_map. unfold n_elem. rewrite HlenWV, Z2Nat.id by lia.
      rewrite Hhalf_eq. do 2 f_equal. lia. }
    rewrite Hrest. cbn [bind].
    exists (map fst WV :: rest). split; [reflexivity|]. split; [simpl; lia|].
    intros [|k] w Hw.
    + injection Hw as <-. rewrite n_elem_map. unfold n_elem.
      rewrite HlenWV, Z2Nat.id by lia. rewrite Hhalf_eq. f_equal. f_equal. lia.
    + rewrite (Hlevels k w Hw). do 2 f_equal. lia.
Qed.

Lemma modwt_coef_ok (h0 h1 g0 g1 : D) (x : list D) (N j t : Z) :
  n_elem x = N -> N < 2 ^ 31 -> 0 <= t < N -> 1 <= j -> 2 ^ (j - 1) <= N ->
  exists WV, modwt_coef 2 [h0; h1] [g0; g1] x N j t = Ok WV.
Proof.
  intros Hx HN Ht Hj Hpow. unfold modwt_coef.
  assert (H0 : 0 < 2 ^ (j - 1)) by (apply Z.pow_pos_nonneg; lia).
  rewrite to_int_small by lia.
  destruct (vget_in_range x t ltac:(lia)) as (xt & Hxt & _).
  change (vget [h0; h1] 0) with (Ok h0). change (vget [g0; g1] 0) with (Ok g0).
  cbn [bind]. rewrite Hxt. cbn [bind]. rewrite for_range_1_2. cbv beta iota zeta.
  rewrite double_to_int_ok by lia. cbn [bind].
  change (vget [h0; h1] 1) with (Ok h1). change (vget [g0; g1] 1) with (Ok g1).
  cbn [bind].
  destruct (t - 2 ^ (j - 1) <? 0) eqn:Hneg.
  - apply Z.ltb_lt in Hneg.
    rewrite uint_small, to_int_small by lia.
    destruct (vget_in_range x (t - 2 ^ (j - 1) + N) ltac:(lia)) as (xk & Hxk & _).
    rewrite Hxk. cbn [bind]. eauto.
  - apply Z.ltb_ge in Hneg.
    destruct (vget_in_range x (t - 2 ^ (j - 1)) ltac:(lia)) as (xk & Hxk & _).
    rewrite Hxk. cbn [bind]. eauto.
Qed.

Lemma modwt_levels_ok (h0 h1 g0 g1 : D) (N : Z) (count : nat) :
  N < 2 ^ 31 ->
  forall (j : Z) (x : list D),
    1 <= j -> n_elem x = N ->
    (forall j', j <= j' < j + Z.of_nat count -> 2 ^ (j' - 1) <= N) ->
    exists y, modwt_levels count j N 2 [h0; h1] [g0; g1] x = Ok y
              /\ length y = count
              /\ forall k w, nth_error y k = Some w -> n_elem w = N.
Proof.
  intros HN. induction count as [|c IH]; intros j x Hj Hx Hpow.
  - exists []. split; [reflexivity|]. split; [reflexivity|].
    intros [|k] w; discriminate.
  - cbn [modwt_levels].
    assert (H0N : 0 <= N) by (rewrite <- Hx; apply n_elem_nonneg).
    destruct (tabulate_ok (Z.to_nat N) 0 (modwt_coef 2 [h0; h1] [g0; g1] x N j))
      as (WV & HWV).
    { intros k Hk. apply modwt_coef_ok; try lia. apply Hpow. lia. }
    rewrite HWV. cbn [bind].
    assert (HlenWV : length WV = Z.to_nat N) by (eapply tabulate_length; eauto).
    destruct (IH (j + 1) (map snd WV)) as (rest & Hrest & Hlen & Hlevels).
    { lia. }
    { rewrite n_elem_map. unfold n_elem. rewrite HlenWV. lia. }
    { intros j' Hj'. apply Hpow. lia. }
    rewrite Hrest. cbn [bind].
    exists (map fst WV :: rest). split; [reflexivity|]. split; [simpl; lia|].
    intros [|k] w Hw.
    + injection Hw as <-. rewrite n_elem_map. unfold n_elem. rewrite HlenWV. lia.
    + exact (Hlevels k w Hw).
Qed.

Lemma pow2_lt_uint (J : Z) : 0 <= J < 32 -> 0 < 2 ^ J < 2 ^ 32.
Proof.
  intros HJ. split; [apply Z.pow_pos_nonneg; lia | apply Z.pow_lt_mono_r; lia].
Qed.

(** The two tests of [dwt_arma] refuse exactly the lengths that [2^J] does
    not divide or exceeds. *)
Lemma dwt_arma_invalid (x x' : list D) (filter_name boundary : string) (J : Z) :
  boundary_extend x boundary = Ok x' -> 0 <= J < 32 ->
  n_elem x' mod 2 ^ J <> 0 \/ 2 ^ J > n_elem x' ->
  dwt_arma x filter_name J boundary = Err InvalidDecomposition.
Proof.
  intros Hb HJ Hbad. unfold dwt_arma. rewrite Hb. cbn [bind].
  rewrite double_to_uint_ok by (pose proof (pow2_lt_uint J HJ); lia). cbn [bind].
  destruct (n_elem x' mod 2 ^ J =? 0) eqn:Hmod; [|reflexivity].
  apply Z.eqb_eq in Hmod. cbn [negb].
  destruct (2 ^ J >? n_elem x') eqn:Hgt; [reflexivity|].
  rewrite Z.gtb_ltb in Hgt. apply Z.ltb_ge in Hgt. lia.
Qed.

Lemma dwt_arma_ok (x x' : list D) (boundary : string) (J : Z) :
  boundary_extend x boundary = Ok x' -> 0 <= J < 32 -> n_elem x' < 2 ^ 31 ->
  n_elem x' mod 2 ^ J = 0 -> 2 ^ J <= n_elem x' ->
  exists y, dwt_arma x "haar" J boundary = Ok y
            /\ n_elem y = J
            /\ forall k w, nth_error y k = Some w ->
                           n_elem w = n_elem x' / 2 ^ (Z.of_nat k + 1).
Proof.
  intros Hb HJ HN Hmod Hle. unfold dwt_arma. rewrite Hb. cbn [bind].
  rewrite double_to_uint_ok by (pose proof (pow2_lt_uint J HJ); lia). cbn [bind].
  rewrite Hmod. cbn [Z.eqb negb].
  destruct (2 ^ J >? n_elem x') eqn:Hgt;
    [rewrite Z.gtb_ltb in Hgt; apply Z.ltb_lt in Hgt; lia|].
  rewrite select_filter_haar. cbn [bind wf_L wf_h wf_g]. unfold haar_g.
  destruct (dwt_levels_ok (decimal 7071067811865475 10000000000000000)
              (negated (decimal 7071067811865475 10000000000000000))
              (decimal 7071067811865475 10000000000000000)
              (decimal 7071067811865475 10000000000000000)
              (n_elem x') (Z.to_nat J) HN 1 x')
    as (y & Hy & Hlen & Hlevels).
  { lia. }
  { now rewrite Z.sub_diag, Z.pow_0_r, Z.div_1_r. }
  exists y. split; [exact Hy|]. split; [unfold n_elem; rewrite Hlen; lia|].
  intros k w Hw. rewrite (Hlevels k w Hw). do 2 f_equal. lia.
Qed.

Lemma modwt_arma_invalid (x x' : list D) (filter_name boundary : string) (J : Z) :
  boundary_extend x boundary = Ok x' -> 0 <= J < 32 -> 2 ^ J > n_elem x' ->
  modwt_arma x filter_name J boundary = Err InvalidDecomposition.
Proof.
  intros Hb HJ Hbad. unfold modwt_arma. rewrite Hb. cbn [bind].
  rewrite double_to_uint_ok by (pose proof (pow2_lt_uint J HJ); lia). cbn [bind].
  destruct (2 ^ J >? n_elem x') eqn:Hgt; [reflexivity|].
  rewrite Z.gtb_ltb in Hgt. apply Z.ltb_ge in Hgt. lia.
Qed.

Lemma modwt_arma_ok (x x' : list D) (boundary : string) (J : Z) :
  boundary_extend x boundary = Ok x' -> 0 <= J < 32 -> n_elem x' < 2 ^ 31 ->
  2 ^ J <= n_elem x' ->
  exists y, modwt_arma x "haar" J boundary = Ok y
            /\ n_elem y = J
            /\ forall k w, nth_error y k = Some w -> n_elem w = n_elem x'.
Proof.
  intros Hb HJ HN Hle. unfold modwt_arma. rewrite Hb. cbn [bind].
  rewrite double_to_uint_ok by (pose proof (pow2_lt_uint J HJ); lia). cbn [bind].
  destruct (2 ^ J >? n_elem x') eqn:Hgt;
    [rewrite Z.gtb_ltb in Hgt; apply Z.ltb_lt in Hgt; lia|].
  rewrite select_filter_haar. cbn [bind wf_L wf_h wf_g]. unfold haar_g. cbn [map].
  match goal with
  | |- exists y, modwt_levels _ _ _ _ [?a; ?b] [?c; ?d] _ = _ /\ _ =>
      destruct (modwt_levels_ok a b c d (n_elem x') (Z.to_nat J) HN 1 x')
        as (y & Hy & Hlen & Hlevels)
  end.
  { lia. }
  { reflexivity. }
  { intros j' Hj'. apply Z.le_trans with (2 ^ J); [|exact Hle].
    apply Z.pow_le_mono_r; lia. }
  exists y. split; [exact Hy|]. split; [unfold n_elem; rewrite Hlen; lia|].
  exact Hlevels.
Qed.

Lemma boundary_reflection (x : list D) :
  0 < n_elem x < 2 ^ 31 -> boundary_extend x "reflection" = Ok (x ++ rev x).
Proof.
  intros Hx. unfold boundary_extend. cbn [String.eqb Ascii.eqb Bool.eqb].
  unfold reverse_vec, resize, set_rows.
  rewrite !uint_small by lia.
  assert (Hlen : Z.to_nat (2 * n_elem x) = (length x + length x)%nat)
    by (unfold n_elem; lia).
  rewrite Hlen, firstn_all2 by lia.
  replace (length x + length x - length x)%nat with (length x) by lia.
  assert (Hz : n_elem (x ++ repeat (of_Z 0) (length x)) = 2 * n_elem x)
    by (unfold n_elem; rewrite length_app, repeat_length; lia).
  assert (Hr : n_elem (rev x) = n_elem x) by (unfold n_elem; now rewrite length_rev).
  rewrite Hz, Hr.
  destruct (n_elem x >? 2 * n_elem x - 1) eqn:H1;
    [rewrite Z.gtb_ltb in H1; apply Z.ltb_lt in H1; lia|].
  destruct (2 * n_elem x - 1 >=? 2 * n_elem x) eqn:H2;
    [rewrite Z.geb_leb in H2; apply Z.leb_le in H2; lia|].
  cbn [orb].
  replace (n_elem x =? 2 * n_elem x - 1 - n_elem x + 1) with true
    by (symmetry; apply Z.eqb_eq; lia).
  cbn [negb]. f_equal.
  unfold n_elem at 1. rewrite Nat2Z.id, firstn_app, Nat.sub_diag, firstn_all.
  cbn [firstn]. rewrite app_nil_r. f_equal.
  rewrite skipn_all2; [apply app_nil_r|].
  rewrite length_app, repeat_length. unfold n_elem. lia.
Qed.

End TransformFacts.

(** ** Claims on the filters and the transforms *)

(** C3 (amended).  For every input sequence [g], [qmf g inverse] is the
    reversal of [g] in which the inverse form ([inverse = true]) negates every
    element at an odd index and the forward form ([inverse = false]) every
    element at an even index; [haar_filter] applies the default, inverse,
    form to [g = (0.7071067811865475, 0.7071067811865475)], the source's
    decimal for 1/sqrt(2), to build [h]. *)
Theorem qmf_negates_by_parity {D : Type} {Dbl : Double D} (g : list D) (inverse : bool) :
  (exists h, qmf g inverse = Ok h
             /\ length h = length g
             /\ forall i x, nth_error (rev g) i = Some x ->
                            nth_error h i
                            = Some (if inverse
                                    then (if Nat.odd i then negated x else x)
                                    else (if Nat.even i then negated x else x)))
  /\ (exists h, qmf haar_g true = Ok h
                /\ haar_filter = Ok {| wf_L := 2; wf_h := h; wf_g := haar_g |})
  /\ haar_g = [decimal 7071067811865475 10000000000000000;
               decimal 7071067811865475 10000000000000000].
Proof.
  split; [|split; [|reflexivity]].
  - exists (mapi_from 0 (qmf_sign inverse) (rev g)).
    split; [apply qmf_closed_form|].
    split; [now rewrite mapi_from_length, length_rev|].
    intros i x Hx. rewrite (mapi_from_nth _ _ 0 i x Hx). cbn [Nat.add].
    unfold qmf_sign. rewrite <- Nat.negb_odd.
    destruct inverse, (Nat.odd i); reflexivity.
  - exists (mapi_from 0 (qmf_sign true) (rev haar_g)).
    split; [apply qmf_closed_form|].
    unfold haar_filter. now rewrite qmf_closed_form.
Qed.

(** C3 as stated fails: in the inverse form the element at the even index 0
    of the reversal of (1, 2) is left as it is, and in the forward form it is
    the one negated. *)
Lemma qmf_parity_as_claimed_fails :
  qmf (D := float) [1; 2]%float true = Ok [2; -1]%float
  /\ qmf (D := float) [1; 2]%float false = Ok [-2; 1]%float
  /\ ~ (forall (g : list float) (inverse : bool) (h : list float),
           qmf g inverse = Ok h ->
           forall i x, nth_error (rev g) i = Some x ->
                       nth_error h i
                       = Some (if inverse
                               then (if Nat.even i then negated x else x)
                               else (if Nat.odd i then negated x else x))).
Proof.
  split; [vm_compute; reflexivity|]. split; [vm_compute; reflexivity|].
  intros Hclaim.
  specialize (Hclaim [1; 2]%float true [2; -1]%float ltac:(vm_compute; reflexivity)
                     O 2%float eq_refl).
  cbn [nth_error Nat.even] in Hclaim.
  apply (f_equal (fun o => match o with
                           | Some v => PrimFloat.ltb 0 v
                           | None => false
                           end)) in Hclaim.
  vm_compute in Hclaim. discriminate Hclaim.
Qed.

(** C4 at a failing input.  A level count of 32 is not reported as invalid:
    [pow(2, 32)] does not fit the [unsigned int] [tau], so that the two
    tests on [tau] decide nothing and neither transform ends with the
    invalid-decomposition error for the signal (1, 2, 3, 4), although
    [2^32] exceeds 4; with 31 levels both transforms report it. *)
Theorem level_count_overflow_is_not_reported :
  dwt_arma (D := float) [1; 2; 3; 4]%float "haar" 32 "periodic" = Err Undefined
  /\ modwt_arma (D := float) [1; 2; 3; 4]%float "haar" 32 "periodic" = Err Undefined
  /\ dwt_arma (D := float) [1; 2; 3; 4]%float "haar" 31 "periodic"
     = Err InvalidDecomposition
  /\ modwt_arma (D := float) [1; 2; 3; 4]%float "haar" 31 "periodic"
     = Err InvalidDecomposition.
Proof.
  split; [vm_compute; reflexivity|].
  split; [vm_compute; reflexivity|].
  split; vm_compute; reflexivity.
Qed.

(** X26.  For a signal whose boundary-handled form [x'] has a length
    [N < 2^31] and a level count [0 <= J < 32] (the counts whose power of
    two fits the [unsigned int] [tau]), with the Haar filter: [dwt_arma]
    fails with the invalid-decomposition error exactly when [2^J] does not
    divide [N] or exceeds it, [modwt_arma] exactly when [2^J] exceeds [N], and
    both succeed otherwise. *)
Theorem decomposition_fails_exactly_when_invalid {D : Type} {Dbl : Double D}
    (x x' : list D) (boundary : string) (J : Z) :
  boundary_extend x boundary = Ok x' -> 0 <= J < 32 -> n_elem x' < 2 ^ 31 ->
  (dwt_arma x "haar" J boundary = Err InvalidDecomposition
   <-> (n_elem x' mod 2 ^ J <> 0 \/ 2 ^ J > n_elem x'))
  /\ (~ (n_elem x' mod 2 ^ J <> 0 \/ 2 ^ J > n_elem x') ->
      exists y, dwt_arma x "haar" J boundary = Ok y)
  /\ (modwt_arma x "haar" J boundary = Err InvalidDecomposition
      <-> 2 ^ J > n_elem x')
  /\ (~ 2 ^ J > n_elem x' ->
      exists y, modwt_arma x "haar" J boundary = Ok y).
Proof.
  intros Hb HJ HN.
  assert (Hdwt : ~ (n_elem x' mod 2 ^ J <> 0 \/ 2 ^ J > n_elem x') ->
                 exists y, dwt_arma x "haar" J boundary = Ok y).
  { intros Hgood.
    destruct (dwt_arma_ok x x' boundary J Hb HJ HN) as (y & Hy & _); [lia | lia | eauto]. }
  assert (Hmodwt : ~ 2 ^ J > n_elem x' ->
                   exists y, modwt_arma x "haar" J boundary = Ok y).
  { intros Hgood.
    destruct (modwt_arma_ok x x' boundary J Hb HJ HN) as (y & Hy & _); [lia | eauto]. }
  repeat split.
  - intros Herr.
    destruct (Z.eq_dec (n_elem x' mod 2 ^ J) 0) as [Hmod|Hmod]; [|now left].
    destruct (Z_gt_dec (2 ^ J) (n_elem x')) as [Hgt|Hgt]; [now right|].
    destruct Hdwt as (y & Hy); [lia | congruence].
  - intros Hbad. eapply dwt_arma_invalid; eauto.
  - exact Hdwt.
  - intros Herr.
    destruct (Z_gt_dec (2 ^ J) (n_elem x')) as [Hgt|Hgt]; [assumption|].
    destruct (Hmodwt Hgt) as (y & Hy). congruence.
  - intros Hbad. eapply modwt_arma_invalid; eauto.
  - exact Hmodwt.
Qed.

(** X26 at the signal (1, ..., 8) with three levels and a periodic boundary. *)
Lemma decomposition_fails_exactly_when_invalid_witness :
  (dwt_arma (D := float) [1; 2; 3; 4; 5; 6; 7; 8]%float "haar" 3 "periodic"
   = Err InvalidDecomposition
   <-> (8 mod 2 ^ 3 <> 0 \/ 2 ^ 3 > 8))
  /\ (~ (8 mod 2 ^ 3 <> 0 \/ 2 ^ 3 > 8) ->
      exists y, dwt_arma (D := float) [1; 2; 3; 4; 5; 6; 7; 8]%float "haar" 3 "periodic"
                = Ok y)
  /\ (modwt_arma (D := float) [1; 2; 3; 4; 5; 6; 7; 8]%float "haar" 3 "periodic"
      = Err InvalidDecomposition
      <-> 2 ^ 3 > 8)
  /\ (~ 2 ^ 3 > 8 ->
      exists y, modwt_arma (D := float) [1; 2; 3; 4; 5; 6; 7; 8]%float "haar" 3 "periodic"
                = Ok y).
Proof.
  apply (decomposition_fails_exactly_when_invalid
           (D := float) [1; 2; 3; 4; 5; 6; 7; 8]%float [1; 2; 3; 4; 5; 6; 7; 8]%float
           "periodic" 3).
  - reflexivity.
  - lia.
  - reflexivity.
Defined.

(** C6.  Under the preconditions of the decomposition, [dwt_arma] returns
    exactly [J] levels, level [j] (counted from 1) of length [N / 2^j], and
    [modwt_arma] returns exactly [J] levels, each of length [N]. *)
Theorem decomposition_level_lengths {D : Type} {Dbl : Double D}
    (x x' : list D) (boundary : string) (J : Z) :
  boundary_extend x boundary = Ok x' -> 0 <= J < 32 -> n_elem x' < 2 ^ 31 ->
  2 ^ J <= n_elem x' ->
  (n_elem x' mod 2 ^ J = 0 ->
   exists y, dwt_arma x "haar" J boundary = Ok y
             /\ n_elem y = J
             /\ forall j, 1 <= j <= J ->
                          exists w, nth_error y (Z.to_nat (j - 1)) = Some w
                                    /\ n_elem w = n_elem x' / 2 ^ j)
  /\ (exists y, modwt_arma x "haar" J boundary = Ok y
                /\ n_elem y = J
                /\ forall j, 1 <= j <= J ->
                             exists w, nth_error y (Z.to_nat (j - 1)) = Some w
                                       /\ n_elem w = n_elem x').
Proof.
  intros Hb HJ HN Hle. split.
  - intros Hmod.
    destruct (dwt_arma_ok x x' boundary J Hb HJ HN Hmod Hle) as (y & Hy & Hlen & Hlevels).
    exists y. split; [exact Hy|]. split; [exact Hlen|].
    intros j Hj.
    destruct (nth_error y (Z.to_nat (j - 1))) as [w|] eqn:Hw.
    + exists w. split; [reflexivity|].
      rewrite (Hlevels _ _ Hw). do 2 f_equal. lia.
    + apply nth_error_None in Hw. unfold n_elem in Hlen. lia.
  - destruct (modwt_arma_ok x x' boundary J Hb HJ HN Hle) as (y & Hy & Hlen & Hlevels).
    exists y. split; [exact Hy|]. split; [exact Hlen|].
    intros j Hj.
    destruct (nth_error y (Z.to_nat (j - 1))) as [w|] eqn:Hw.
    + exists w. split; [reflexivity|]. exact (Hlevels _ _ Hw).
    + apply nth_error_None in Hw. unfold n_elem in Hlen. lia.
Qed.

(** C6 at the reflected signal (1, 2, 3, 4), of handled length 8, with two
    levels. *)
Lemma decomposition_level_lengths_witness :
  (8 mod 2 ^ 2 = 0 ->
   exists y, dwt_arma (D := float) [1; 2; 3; 4]%float "haar" 2 "reflection" = Ok y
             /\ n_elem y = 2
             /\ forall j, 1 <= j <= 2 ->
                          exists w, nth_error y (Z.to_nat (j - 1)) = Some w
                                    /\ n_elem w = 8 / 2 ^ j)
  /\ (exists y, modwt_arma (D := float) [1; 2; 3; 4]%float "haar" 2 "reflection" = Ok y
                /\ n_elem y = 2
                /\ forall j, 1 <= j <= 2 ->
                             exists w, nth_error y (Z.to_nat (j - 1)) = Some w
                                       /\ n_elem w = 8).
Proof.
  apply (decomposition_level_lengths
           (D := float) [1; 2; 3; 4]%float [1; 2; 3; 4; 4; 3; 2; 1]%float
           "reflection" 2).
  - vm_compute. reflexivity.
  - lia.
  - reflexivity.
  - vm_compute. discriminate.
Defined.

(** ** Trimming, variance and confidence interval *)

Lemma tabulate_map {A : Type} (count : nat) (f : Z -> result A) (g : nat -> A) :
  forall i, (forall k, (k < count)%nat -> f (i + Z.of_nat k) = Ok (g k)) ->
            tabulate count i f = Ok (map g (seq 0 count)).
Proof.
  revert g. induction count as [|c IH]; intros g i Hf; [reflexivity|].
  cbn [tabulate seq map].
  generalize (Hf O ltac:(lia)). rewrite Z.add_0_r. intros ->. cbn [bind].
  rewrite (IH (fun k => g (Datatypes.S k)) (i + 1)).
  - cbn [bind]. now rewrite <- seq_shift, map_map.
  - intros k Hk. rewrite <- (Hf (Datatypes.S k)) by lia. f_equal. lia.
Qed.

Lemma vget_nth_default {A : Type} (v : list A) (k : nat) (d : A) :
  (k < length v)%nat -> vget v (Z.of_nat k) = Ok (nth k v d).
Proof.
  intros Hk. apply vget_nth. now apply nth_error_nth'.
Qed.

Lemma combine_map_same {A B C : Type} (f : A -> B) (g : A -> C) (l : list A) :
  combine (map f l) (map g l) = map (fun a => (f a, g a)) l.
Proof. induction l as [|a l IH]; simpl; [reflexivity | now rewrite IH]. Qed.

Lemma nth_error_map_seq {A : Type} (g : nat -> A) (n i : nat) :
  (i < n)%nat -> nth_error (map g (seq 0 n)) i = Some (g i).
Proof.
  intros Hi. rewrite nth_error_map, nth_error_seq.
  destruct (Nat.ltb_spec i n); [reflexivity | lia].
Qed.

Lemma nth_map_seq {A : Type} (g : nat -> A) (n i : nat) (d : A) :
  (i < n)%nat -> nth i (map g (seq 0 n)) d = g i.
Proof.
  intros Hi. apply nth_error_nth. now apply nth_error_map_seq.
Qed.

Lemma map_nth_seq {A : Type} (l : list A) (d : A) :
  map (fun i => nth i l d) (seq 0 (length l)) = l.
Proof.
  apply nth_error_ext. intros i.
  destruct (Nat.lt_ge_cases i (length l)) as [Hi|Hi].
  - rewrite nth_error_map_seq by assumption. symmetry. now apply nth_error_nth'.
  - transitivity (@None A); [|symmetry]; apply nth_error_None;
      [rewrite length_map, length_seq|]; assumption.
Qed.

Section TrimFacts.

Context {D : Type} {Dbl : Double D}.

Lemma trim_count_nonneg (m : Z) (method : string) (j n : Z) :
  trim_count m method j = Ok n -> 0 <= n < 2 ^ 32.
Proof.
  assert (Hconv : forall z, double_to_uint z = Ok n -> 0 <= n < 2 ^ 32).
  { intros z. unfold double_to_uint.
    destruct ((0 <=? z) && (z <? 2 ^ 32)) eqn:Hb; [|discriminate].
    apply andb_true_iff in Hb. destruct Hb as [H1 H2].
    apply Z.leb_le in H1. apply Z.ltb_lt in H2. intros [= <-]. lia. }
  unfold trim_count. intros Ht.
  apply bind_ok in Ht. destruct Ht as (n0 & Hn0 & Ht).
  destruct (String.eqb method "dwt"); [eauto|].
  injection Ht as <-.
  destruct (j + 1 <=? 1023); [eauto | discriminate].
Qed.

(** A power of two below [2^32] has an exponent below 32. *)
Lemma small_power_exponent (k : Z) : 0 <= k -> 2 ^ k - 1 < 2 ^ 32 -> k <= 32.
Proof.
  intros Hk Hlt. destruct (Z.le_gt_cases k 32) as [Hle|Hgt]; [assumption|].
  assert (H33 : 2 ^ 33 <= 2 ^ k) by (apply Z.pow_le_mono_r; lia).
  change (2 ^ 33) with (2 * 2 ^ 32) in H33. lia.
Qed.

(** Every method other than "dwt" takes the count of the method "modwt". *)
Lemma trim_count_not_dwt (m : Z) (method : string) (j : Z) :
  method <> "dwt"%string -> trim_count m method j = trim_count m "modwt" j.
Proof.
  intros Hm. unfold trim_count.
  apply String.eqb_neq in Hm. rewrite Hm. reflexivity.
Qed.

(** The count of the MODWT formula, where it fits: for a filter length
    [m >= 2] the level is below 32 then, for [m = 1] the count is zero as
    long as [pow(2, j + 1)] is finite. *)
Lemma trim_count_modwt (m : Z) (method : string) (j : Z) :
  method <> "dwt"%string -> 1 <= m -> 0 <= j -> j + 1 <= 1023 ->
  (2 ^ (j + 1) - 1) * (m - 1) < 2 ^ 32 ->
  trim_count m method j = Ok ((2 ^ (j + 1) - 1) * (m - 1)).
Proof.
  intros Hm H1 Hj Hfin Hfit. unfold trim_count.
  apply String.eqb_neq in Hm. rewrite Hm.
  assert (Hbp : 2 <= 2 ^ (j + 1)).
  { replace 2 with (2 ^ 1) at 1 by reflexivity. apply Z.pow_le_mono_r; lia. }
  destruct (j + 1 <=? 1023) eqn:H1023; [|apply Z.leb_gt in H1023; lia].
  destruct (Z.eq_dec m 1) as [->|Hm2].
  - replace ((if j + 1 <=? 53 then 2 ^ (j + 1) - 1 else 2 ^ (j + 1)) * (1 - 1)) with 0
      by (destruct (j + 1 <=? 53); lia).
    replace ((2 ^ (j + 1) - 1) * (1 - 1)) with 0 by lia. reflexivity.
  - assert (Hle : j + 1 <= 32) by (apply small_power_exponent; nia).
    destruct (j + 1 <=? 53) eqn:H53; [|apply Z.leb_gt in H53; lia].
    rewrite double_to_uint_ok by nia. reflexivity.
Qed.

(** A level longer than its count loses its first [n] coefficients. *)
Lemma brick_wall_level_trims (m : Z) (method : string) (x : list (list D))
    (j : nat) (temp : list D) (n : Z) :
  nth_error x j = Some temp -> trim_count m method (Z.of_nat j) = Ok n ->
  n < n_elem temp <= 2 ^ 32 ->
  brick_wall_level m method x (Z.of_nat j) = Ok (skipn (Z.to_nat n) temp).
Proof.
  intros Hx Hn Hlt. unfold brick_wall_level. rewrite Hn. cbn [bind].
  rewrite (vget_nth x j temp Hx). cbn [bind].
  pose proof (trim_count_nonneg _ _ _ _ Hn) as Hn0.
  rewrite Z.min_l by lia. rewrite uint_small by lia.
  unfold rows.
  destruct (n >? n_elem temp - 1) eqn:H1;
    [rewrite Z.gtb_ltb in H1; apply Z.ltb_lt in H1; lia|].
  destruct (n_elem temp - 1 >=? n_elem temp) eqn:H2;
    [rewrite Z.geb_leb in H2; apply Z.leb_le in H2; lia|].
  cbn [orb]. f_equal. apply firstn_all2.
  rewrite length_skipn. unfold n_elem. lia.
Qed.

(** A level that is not longer than its count is not emptied: the row range
    [(n, temp_size - 1)] is refused. *)
Lemma brick_wall_level_whole (m : Z) (method : string) (x : list (list D))
    (j : nat) (temp : list D) (n : Z) :
  nth_error x j = Some temp -> trim_count m method (Z.of_nat j) = Ok n ->
  n_elem temp <= n ->
  brick_wall_level m method x (Z.of_nat j) = Err IndexOutOfBounds.
Proof.
  intros Hx Hn Hge. unfold brick_wall_level. rewrite Hn. cbn [bind].
  rewrite (vget_nth x j temp Hx). cbn [bind].
  pose proof (n_elem_nonneg temp) as Hts.
  rewrite Z.min_r by lia. unfold rows, uint.
  pose proof (Z.mod_pos_bound (n_elem temp - 1) (2 ^ 32) ltac:(lia)) as Hmod.
  destruct (Z.eq_dec (n_elem temp) 0) as [Hzero|Hpos].
  - rewrite Hzero. reflexivity.
  - assert (Hle : (n_elem temp - 1) mod 2 ^ 32 <= n_elem temp - 1)
      by (apply Z.mod_le; lia).
    replace (n_elem temp >? (n_elem temp - 1) mod 2 ^ 32) with true; [reflexivity|].
    symmetry. rewrite Z.gtb_ltb. apply Z.ltb_lt. lia.
Qed.

Lemma brick_wall_trims (x : list (list D)) (wf : wave_filter (D := D)) (method : string)
    (n : nat -> Z) :
  (forall j temp, nth_error x j = Some temp ->
                  trim_count (wf_L wf) method (Z.of_nat j) = Ok (n j)
                  /\ n j < n_elem temp <= 2 ^ 32) ->
  brick_wall x wf method
  = Ok (map (fun j => skipn (Z.to_nat (n j)) (nth j x [])) (seq 0 (length x))).
Proof.
  intros Hlevels. unfold brick_wall. apply tabulate_map.
  intros k Hk. cbn [Z.add].
  assert (Hnth : nth_error x k = Some (nth k x [])) by now apply nth_error_nth'.
  destruct (Hlevels k _ Hnth) as (Hn & Hlt).
  now apply brick_wall_level_trims.
Qed.

(** [brick_wall] has no [stop]: it can only end early in a conversion or in
    a bounds check. *)
Lemma brick_wall_errors (x : list (list D)) (wf : wave_filter (D := D)) (method : string)
    (e : error) :
  brick_wall x wf method = Err e -> e = IndexOutOfBounds \/ e = Undefined.
Proof.
  intros Hbw. unfold brick_wall in Hbw.
  destruct (tabulate_err_inv _ _ _ _ Hbw) as (k & _ & Hk).
  unfold brick_wall_level, trim_count, double_to_uint, vget, rows in Hk.
  repeat match type of Hk with
         | context [if ?c then _ else _] => destruct c; cbn [bind] in Hk
         | context [match nth_error ?l ?n with _ => _ end] =>
             destruct (nth_error l n); cbn [bind] in Hk
         end;
    try discriminate Hk; injection Hk as <-; auto.
Qed.

Lemma brick_wall_not_dwt (x : list (list D)) (wf : wave_filter (D := D)) (method : string) :
  method <> "dwt"%string -> brick_wall x wf method = brick_wall x wf "modwt".
Proof.
  intros Hm. unfold brick_wall. apply tabulate_ext. intros k Hk.
  unfold brick_wall_level.
  rewrite (trim_count_not_dwt _ method) by assumption.
  reflexivity.
Qed.

End TrimFacts.

Section EstimationFacts.

Context {D : Type} {Dbl : Double D} {Rm : RMath D}.

Lemma ci_eta3_closed_form (y dims : list D) (p : D) :
  length y = length dims ->
  ci_eta3 y dims p
  = Ok (map (fun i => eta3_row p i (nth i y (of_Z 0)) (nth i dims (of_Z 0)))
            (seq 0 (length dims))).
Proof.
  intros Hlen. unfold ci_eta3.
  rewrite (tabulate_map (length dims) (ci_eta3_bounds y dims p)
             (fun i => (snd (fst (eta3_row p i (nth i y (of_Z 0)) (nth i dims (of_Z 0)))),
                        snd (eta3_row p i (nth i y (of_Z 0)) (nth i dims (of_Z 0)))))).
  - cbn [bind]. unfold n_elem. rewrite Hlen, Z.eqb_refl.
    f_equal. rewrite <- (map_nth_seq y (of_Z 0)) at 1. rewrite Hlen.
    rewrite combine_map_same, map_map. reflexivity.
  - intros k Hk. cbn [Z.add]. unfold ci_eta3_bounds.
    rewrite (vget_nth_default dims k (of_Z 0)) by assumption.
    rewrite (vget_nth_default y k (of_Z 0)) by lia.
    reflexivity.
Qed.

Lemma ci_eta3_ok_length (y dims : list D) (p : D) (out : list (D * D * D)) :
  ci_eta3 y dims p = Ok out -> length y = length dims.
Proof.
  unfold ci_eta3. intros Hout.
  apply bind_ok in Hout. destruct Hout as (bounds & _ & Hout).
  destruct (n_elem y =? n_elem dims) eqn:Heq; [|discriminate].
  apply Z.eqb_eq in Heq. unfold n_elem in Heq. lia.
Qed.

Lemma level_stats_closed_form (x : list (list D)) (k : nat) :
  (k < length x)%nat ->
  level_stats x (Z.of_nat k)
  = Ok (ddiv (dot (nth k x []) (nth k x [])) (of_Z (n_elem (nth k x []))),
        of_Z (n_elem (nth k x []))).
Proof.
  intros Hk. unfold level_stats.
  now rewrite (vget_nth_default x k []) by assumption.
Qed.

Lemma wave_variance_closed_form (x : list (list D)) (p : D) :
  wave_variance x "eta3" p
  = Ok (map (fun i => variance_row p i (nth i x [])) (seq 0 (length x))).
Proof.
  unfold wave_variance.
  rewrite (tabulate_map (length x) (level_stats x)
             (fun k => (ddiv (dot (nth k x []) (nth k x [])) (of_Z (n_elem (nth k x []))),
                        of_Z (n_elem (nth k x []))))).
  2:{ intros k Hk. cbn [Z.add]. now apply level_stats_closed_form. }
  cbn [bind String.eqb Ascii.eqb Bool.eqb].
  rewrite ci_eta3_closed_form by now rewrite !length_map.
  f_equal. rewrite !length_map, length_seq.
  apply map_ext_in. intros i Hi. apply in_seq in Hi.
  unfold variance_row.
  rewrite !map_map, !nth_map_seq by lia. reflexivity.
Qed.

Lemma wave_variance_errors (x : list (list D)) (type : string) (p : D) (e : error) :
  wave_variance x type p = Err e -> e = UnsupportedCIType /\ type <> "eta3"%string.
Proof.
  destruct (String.eqb type "eta3") eqn:Htype.
  - apply String.eqb_eq in Htype. subst type.
    rewrite wave_variance_closed_form. discriminate.
  - unfold wave_variance. rewrite Htype.
    rewrite (tabulate_map (length x) (level_stats x)
               (fun k => (ddiv (dot (nth k x []) (nth k x [])) (of_Z (n_elem (nth k x []))),
                          of_Z (n_elem (nth k x []))))).
    2:{ intros k Hk. cbn [Z.add]. now apply level_stats_closed_form. }
    cbn [bind]. intros [= <-]. split; [reflexivity|].
    intros ->. discriminate.
Qed.

End EstimationFacts.

(** ** Claims on trimming and on the variance estimator *)

(** C2 at a failing input.  A level whose trim count reaches its length is not
    emptied: with the Haar filter ([m = 2]) and the method "modwt" the count at
    level 0 is 1, and a level of one coefficient, like an empty level, makes
    [brick_wall] fail on the row range [(n, temp_size - 1)]; a level of two
    coefficients loses its first one. *)
Theorem brick_wall_whole_level_fails :
  (wf <- select_filter (D := float) "haar" ;; brick_wall [[1]%float] wf "modwt")
  = Err IndexOutOfBounds
  /\ (wf <- select_filter (D := float) "haar" ;; brick_wall [[]] wf "modwt")
     = Err IndexOutOfBounds
  /\ (wf <- select_filter (D := float) "haar" ;; brick_wall [[1; 2]%float] wf "modwt")
     = Ok [[2]%float].
Proof. repeat split; vm_compute; reflexivity. Qed.

(** C10.  For every method string other than "dwt", recognised or not,
    [brick_wall] does what it does for the method "modwt": the count of
    level [j] is the one of the MODWT formula, [(2^(j+1) - 1) * (m - 1)],
    and [brick_wall] removes that many leading coefficients from level [j]
    whenever every level is longer than its count (filter length [m >= 1],
    at most 1023 levels, of at most 2^32 coefficients each).  The method
    string raises no error of its own: [brick_wall] ends early only in a
    bounds check or in a conversion. *)
Theorem brick_wall_other_methods_are_modwt {D : Type} {Dbl : Double D}
    (x : list (list D)) (wf : wave_filter (D := D)) (method : string) :
  method <> "dwt"%string ->
  (1 <= wf_L wf ->
   forall j, 0 <= j -> j + 1 <= 1023 -> (2 ^ (j + 1) - 1) * (wf_L wf - 1) < 2 ^ 32 ->
             trim_count (wf_L wf) method j = Ok ((2 ^ (j + 1) - 1) * (wf_L wf - 1)))
  /\ (1 <= wf_L wf -> Z.of_nat (length x) <= 1023 ->
      (forall j temp,
          nth_error x j = Some temp ->
          (2 ^ (Z.of_nat j + 1) - 1) * (wf_L wf - 1) < n_elem temp <= 2 ^ 32) ->
      brick_wall x wf method
      = Ok (map (fun j => skipn (Z.to_nat ((2 ^ (Z.of_nat j + 1) - 1) * (wf_L wf - 1)))
                               (nth j x []))
                (seq 0 (length x))))
  /\ brick_wall x wf method = brick_wall x wf "modwt"
  /\ forall e, brick_wall x wf method = Err e -> e = IndexOutOfBounds \/ e = Undefined.
Proof.
  intros Hm. split; [|split; [|split]].
  - intros H1 j Hj Hfin Hfit. now apply trim_count_modwt.
  - intros H1 Hlevels Hlong.
    apply (brick_wall_trims x wf method
             (fun j => (2 ^ (Z.of_nat j + 1) - 1) * (wf_L wf - 1))).
    intros j temp Htemp.
    assert (Hj : (j < length x)%nat) by (apply nth_error_Some; congruence).
    specialize (Hlong j temp Htemp).
    split; [|exact Hlong].
    apply trim_count_modwt; [assumption | assumption | lia | lia | lia].
  - now apply brick_wall_not_dwt.
  - apply brick_wall_errors.
Qed.

(** C10 at the method "bogus": the counts of the two levels are 1 and 3. *)
Lemma brick_wall_other_methods_are_modwt_witness :
  trim_count 2 "bogus" 1 = Ok 3
  /\ brick_wall (D := float) [[1; 2; 3]%float; [4; 5; 6; 7]%float]
       {| wf_L := 2; wf_h := []; wf_g := [] |} "bogus"
     = Ok [[2; 3]%float; [7]%float]
  /\ brick_wall (D := float) [[1; 2; 3]%float; [4; 5; 6; 7]%float]
       {| wf_L := 2; wf_h := []; wf_g := [] |} "bogus"
     = brick_wall (D := float) [[1; 2; 3]%float; [4; 5; 6; 7]%float]
         {| wf_L := 2; wf_h := []; wf_g := [] |} "modwt".
Proof.
  destruct (brick_wall_other_methods_are_modwt
              (D := float) [[1; 2; 3]%float; [4; 5; 6; 7]%float]
              {| wf_L := 2; wf_h := []; wf_g := [] |} "bogus" ltac:(discriminate))
    as (Hcount & Htrim & Hsame & _).
  split; [|split].
  - apply (Hcount ltac:(cbn; lia) 1); [lia | lia | reflexivity].
  - rewrite Htrim; [reflexivity | cbn; lia | cbn; lia |].
    intros [|[|j]] temp Htemp.
    + injection Htemp as <-. unfold n_elem. simpl. lia.
    + injection Htemp as <-. unfold n_elem. simpl. lia.
    + destruct j; discriminate Htemp.
  - exact Hsame.
Defined.

(** C1 (amended).  For every decomposition [x] given to [wave_variance] (in
    the analysis, the trimmed one) and every level [i] of it, the bounds are
    computed with the degrees of freedom [max(M_i / 2^(i+1), 1)], where [M_i]
    is the length of level [i] of [x] itself, that is, the length after
    trimming; this value is the second argument of both chi-squared
    quantiles. *)
Theorem eta3_uses_length_of_given_level {D : Type} {Dbl : Double D} {Rm : RMath D}
    (x : list (list D)) (p : D) :
  exists out,
    wave_variance x "eta3" p = Ok out
    /\ forall i level,
         nth_error x i = Some level ->
         let eta3 := dmax (ddiv (of_Z (n_elem level)) (pow2 (Z.of_nat i + 1))) (of_Z 1) in
         let yi := ddiv (dot level level) (of_Z (n_elem level)) in
         nth_error out i
         = Some (yi,
                 ddiv (dmul eta3 yi) (qchisq (dsub (of_Z 1) p) eta3),
                 ddiv (dmul eta3 yi) (qchisq p eta3)).
Proof.
  eexists. split; [apply wave_variance_closed_form|].
  intros i level Hlevel eta3 yi.
  assert (Hi : (i < length x)%nat) by (apply nth_error_Some; congruence).
  rewrite nth_error_map_seq by assumption.
  rewrite (nth_error_nth x i [] Hlevel). reflexivity.
Qed.

(** C1 as stated fails: a level of four coefficients trimmed by [brick_wall]
    keeps three, and the degrees of freedom [wave_variance] computes from the
    trimmed level are max(3/2, 1) = 1.5, not max(4/2, 1) = 2 as the length
    before trimming would give.  With quantiles that are constantly 1 the
    lower bound is the degrees of freedom times the variance: it is
    1.5 * (29/3) = 14.5 and differs from 2 * (29/3). *)
Lemma eta3_from_pretrim_length_fails :
  exists (T : list float) (v lo hi : float),
    (wf <- select_filter (D := float) "haar" ;; brick_wall [[1; 2; 3; 4]%float] wf "modwt")
    = Ok [T]
    /\ n_elem T = 3
    /\ wave_variance (D := float)
         (Rm := {| qchisq := fun _ _ => 1%float; qnorm := fun q => q |})
         [T] "eta3" (decimal 25 1000)
       = Ok [(v, lo, hi)]
    /\ eta3_df (D := float) (of_Z (n_elem T)) 0 = 1.5%float
    /\ eta3_df (D := float) (of_Z (n_elem [1; 2; 3; 4]%float)) 0 = 2%float
    /\ lo = ddiv (dmul (eta3_df (of_Z (n_elem T)) 0) v) 1%float
    /\ lo <> ddiv (dmul (eta3_df (of_Z (n_elem [1; 2; 3; 4]%float)) 0) v) 1%float.
Proof.
  exists [2; 3; 4]%float.
  exists (29 / 3)%float, 14.5%float, 14.5%float.
  split; [vm_compute; reflexivity|]. split; [reflexivity|].
  split; [vm_compute; reflexivity|].
  split; [vm_compute; reflexivity|]. split; [vm_compute; reflexivity|].
  split; [vm_compute; reflexivity|].
  intros Heq. apply (f_equal (PrimFloat.ltb 15)) in Heq.
  vm_compute in Heq. discriminate Heq.
Qed.

(** C9.  [wave_variance] with the type "eta3" returns a matrix for every
    decomposition: the variance of a level without coefficients is the dot
    product of the empty vector with itself divided by its length 0, no test
    precedes the division, and the only failure of [wave_variance] is the one
    for an unsupported type. *)
Theorem wave_variance_accepts_empty_levels {D : Type} {Dbl : Double D} {Rm : RMath D}
    (x : list (list D)) (p : D) :
  (exists out,
      wave_variance x "eta3" p = Ok out
      /\ length out = length x
      /\ forall i, nth_error x i = Some [] ->
                   exists lo hi,
                     nth_error out i = Some (ddiv (dot [] []) (of_Z 0), lo, hi))
  /\ dot (D := D) [] [] = of_Z 0
  /\ forall type e, wave_variance x type p = Err e ->
                    e = UnsupportedCIType /\ type <> "eta3"%string.
Proof.
  split; [|split; [reflexivity | intros type e; apply wave_variance_errors]].
  eexists. split; [apply wave_variance_closed_form|].
  split; [now rewrite length_map, length_seq|].
  intros i Hlevel.
  assert (Hi : (i < length x)%nat) by (apply nth_error_Some; congruence).
  rewrite nth_error_map_seq by assumption.
  rewrite (nth_error_nth x i [] Hlevel).
  unfold variance_row, eta3_row. cbn [n_elem length Z.of_nat]. eauto.
Qed.

(** In binary64 the variance of a level without coefficients, 0.0 / 0.0, is
    not a number. *)
Example empty_level_variance_is_nan :
  ddiv (D := float) (dot [] []) (of_Z 0) = nan.
Proof. vm_compute. reflexivity. Qed.

Lemma Rdiv_le_upper (a b c : R) : (0 < c -> a <= b * c -> a / c <= b)%R.
Proof.
  intros Hc Hab. unfold Rdiv. apply Rmult_le_reg_r with c; [assumption|].
  rewrite Rmult_assoc, Rinv_l by lra. lra.
Qed.

Lemma Rdiv_le_lower (a b c : R) : (0 < c -> a * c <= b -> a <= b / c)%R.
Proof.
  intros Hc Hab. unfold Rdiv. apply Rmult_le_reg_r with c; [assumption|].
  rewrite Rmult_assoc, Rinv_l by lra. lra.
Qed.

(** C7.  In real arithmetic, with a chi-squared quantile function that at
    every [df >= 1] has its 0.025-quantile in (0, df] and its 0.975-quantile
    at or above [df], every row of [ci_eta3] at p = 0.025 with a positive
    variance has lower bound <= variance <= upper bound (the degrees of
    freedom are at least 1 by construction). *)
Theorem eta3_interval_contains_variance (qc : R -> R -> R) (qn : R -> R) :
  (forall df, (1 <= df)%R ->
              (0 < qc (25 / 1000)%R df <= df)%R /\ (df <= qc (1 - 25 / 1000)%R df)%R) ->
  forall (y dims : list R) (out : list (R * R * R)),
    ci_eta3 (Rm := R_RMath qc qn) y dims (decimal 25 1000) = Ok out ->
    forall i v lo hi,
      nth_error out i = Some (v, lo, hi) -> (0 < v)%R -> (lo <= v <= hi)%R.
Proof.
  intros Hq y dims out Hout i v lo hi Hrow Hv.
  pose proof (ci_eta3_ok_length _ _ _ _ Hout) as Hlen.
  rewrite ci_eta3_closed_form in Hout by assumption.
  injection Hout as <-.
  match type of Hrow with
  | nth_error ?l _ = _ =>
      assert (Hi : (i < length l)%nat) by (apply nth_error_Some; rewrite Hrow; discriminate)
  end.
  rewrite length_map, length_seq in Hi.
  rewrite nth_error_map_seq in Hrow by assumption.
  unfold eta3_row in Hrow. cbv zeta in Hrow.
  match type of Hrow with
  | context [dmax ?a ?b] => set (eta3 := dmax a b) in *
  end.
  injection Hrow as Hv' Hlo Hhi.
  assert (Heta : (1 <= eta3)%R).
  { unfold eta3, dmax. cbn [dltb R_Double of_Z]. unfold Rltb.
    destruct (Rlt_dec _ 1); lra. }
  clearbody eta3.
  destruct (Hq eta3 Heta) as ((Hq0 & Hq1) & Hq2).
  change (dsub (of_Z 1) (decimal 25 1000)) with (1 - 25 / 1000)%R in Hlo.
  change (decimal 25 1000) with (25 / 1000)%R in Hhi.
  cbn [ddiv dmul R_Double qchisq R_RMath] in Hlo, Hhi.
  rewrite Hv' in Hlo, Hhi. subst lo hi. split.
  - apply Rdiv_le_upper; [lra | nra].
  - apply Rdiv_le_lower; [lra | nra].
Qed.

(** C7 at one level of variance 1 and length 4, with the quantile function
    [2 * p * df]. *)
Lemma eta3_interval_contains_variance_witness :
  (2 * 1 / (2 * (1 - 25 / 1000) * 2) <= 1 <= 2 * 1 / (2 * (25 / 1000) * 2))%R.
Proof.
  refine (eta3_interval_contains_variance
            (fun p df => 2 * p * df)%R (fun p => p) _
            [1%R] [4%R]
            [(1, 2 * 1 / (2 * (1 - 25 / 1000) * 2), 2 * 1 / (2 * (25 / 1000) * 2))%R] _
            O 1%R _ _ eq_refl _).
  - intros df Hdf. cbv beta. lra.
  - rewrite ci_eta3_closed_form by reflexivity.
    cbn [length seq map nth]. unfold eta3_row, dmax, pow2, decimal.
    cbn [dltb R_Double of_Z ddiv dmul dsub qchisq R_RMath Z.of_nat Z.add
         Z.pow Z.pow_pos Pos.iter Z.mul Pos.mul].
    unfold Rltb. destruct (Rlt_dec (4 / 2) 1); [lra|].
    replace (4 / 2)%R with 2%R by lra. reflexivity.
  - lra.
Defined.

(** ** The whole analysis *)

Section AnalysisFacts.

Context {D : Type} {Dbl : Double D} {Rm : RMath D} {Ft : Fourier D} {Nan : NaN D}.

Lemma diagmat_repeat (a : D) (n : nat) :
  diagmat (repeat a n)
  = map (fun i => map (fun j => if Nat.eqb i j then a else of_Z 0) (seq 0 n)) (seq 0 n).
Proof.
  unfold diagmat. rewrite repeat_length.
  apply map_ext_in. intros i Hi. apply in_seq in Hi.
  apply map_ext_in. intros j _.
  destruct (Nat.eqb i j); [|reflexivity].
  rewrite (nth_indep _ (of_Z 0) a) by (rewrite repeat_length; lia).
  apply nth_repeat.
Qed.

Lemma log2_level_count (N : Z) :
  1 <= N < 2 ^ 31 -> 0 <= Z.log2 N < 31 /\ 2 ^ Z.log2 N <= N.
Proof.
  intros HN. pose proof (Z.log2_nonneg N) as H0.
  destruct (Z.log2_spec N ltac:(lia)) as [Hlow _].
  repeat split; try assumption.
  apply Z.log2_lt_pow2; lia.
Qed.

(** The counts of the MODWT formula stay below the common length of the
    levels when the level count is [floor(log2(N))]. *)
Lemma modwt_trim_below_length (N : Z) (j : nat) :
  1 <= N < 2 ^ 31 -> Z.of_nat j < Z.log2 N ->
  trim_count 2 "modwt" (Z.of_nat j) = Ok ((2 ^ (Z.of_nat j + 1) - 1) * (2 - 1))
  /\ (2 ^ (Z.of_nat j + 1) - 1) * (2 - 1) < N.
Proof.
  intros HN Hj. destruct (log2_level_count N HN) as (Hlog & Hpow).
  assert (Hle : 2 ^ (Z.of_nat j + 1) <= 2 ^ Z.log2 N) by (apply Z.pow_le_mono_r; lia).
  assert (Hpos : 0 < 2 ^ (Z.of_nat j + 1)) by (apply Z.pow_pos_nonneg; lia).
  assert (Hlt : 2 ^ Z.log2 N < 2 ^ 32) by (apply Z.pow_lt_mono_r; lia).
  assert (H31 : Z.log2 N < 31) by (apply Z.log2_lt_pow2; lia).
  split; [|lia].
  apply trim_count_modwt; [discriminate | lia | lia | lia | lia].
Qed.

(** C5.  For a signal of length [N] (at least one sample, fewer than 2^31),
    [wavelet_variance_arma] with the Haar filter and [compute_v = "no"] takes
    [floor(log2(N))] levels, runs [modwt_arma] with the periodic boundary,
    trims level [j] by the MODWT count [(2^(j+1) - 1)(m - 1)] with [m = 2],
    estimates the variance and its eta3 interval at p = 0.025, and returns
    them with the scales [2^j] for [j = 1 .. levels], Gaussian bounds that
    are all not-a-number and the identity for [V]. *)
Theorem analysis_without_covariance (signal : list D) :
  1 <= n_elem signal < 2 ^ 31 ->
  exists W T vmod,
    modwt_arma signal "haar" (Z.log2 (n_elem signal)) "periodic" = Ok W
    /\ n_elem W = Z.log2 (n_elem signal)
    /\ (wf <- select_filter "haar" ;; brick_wall W wf "modwt") = Ok T
    /\ T = map (fun j => skipn (Z.to_nat ((2 ^ (Z.of_nat j + 1) - 1) * (2 - 1))) (nth j W []))
               (seq 0 (length W))
    /\ wave_variance T "eta3" (decimal 25 1000) = Ok vmod
    /\ wavelet_variance_arma signal "haar" "no"
       = Ok {| variance := map (fun r => fst (fst r)) vmod;
               low := map (fun r => snd (fst r)) vmod;
               high := map (fun r => snd r) vmod;
               scales := map (fun i => pow2 (Z.of_nat i + 1))
                             (seq 0 (Z.to_nat (Z.log2 (n_elem signal))));
               V := map (fun i => map (fun j => if Nat.eqb i j then of_Z 1 else of_Z 0)
                                      (seq 0 (Z.to_nat (Z.log2 (n_elem signal)))))
                        (seq 0 (Z.to_nat (Z.log2 (n_elem signal))));
               up_gauss := repeat datum_nan (Z.to_nat (Z.log2 (n_elem signal)));
               dw_gauss := repeat datum_nan (Z.to_nat (Z.log2 (n_elem signal))) |}.
Proof.
  intros HN. destruct (log2_level_count _ HN) as (Hlog & Hpow).
  destruct (modwt_arma_ok signal signal "periodic" (Z.log2 (n_elem signal))
              (boundary_periodic signal) ltac:(lia) ltac:(lia) Hpow)
    as (W & HW & HlenW & Hlevels).
  set (n := fun j : nat => (2 ^ (Z.of_nat j + 1) - 1) * (2 - 1)).
  assert (HT : forall wf : wave_filter (D := D), wf_L wf = 2 ->
               brick_wall W wf "modwt"
               = Ok (map (fun j => skipn (Z.to_nat (n j)) (nth j W [])) (seq 0 (length W)))).
  { intros wf HL. apply brick_wall_trims. intros j temp Htemp. rewrite HL.
    assert (Hj : (j < length W)%nat) by (apply nth_error_Some; congruence).
    assert (Hjlt : Z.of_nat j < Z.log2 (n_elem signal))
      by (rewrite <- HlenW; unfold n_elem; lia).
    destruct (modwt_trim_below_length (n_elem signal) j HN Hjlt) as (Hcount & Hlt).
    rewrite (Hlevels j temp Htemp). split; [exact Hcount | unfold n; lia]. }
  exists W, (map (fun j => skipn (Z.to_nat (n j)) (nth j W [])) (seq 0 (length W))).
  eexists.
  split; [exact HW|]. split; [exact HlenW|].
  split; [rewrite select_filter_haar; cbn [bind]; now apply HT|].
  split; [reflexivity|].
  split; [apply wave_variance_closed_form|].
  unfold wavelet_variance_arma.
  destruct (n_elem signal =? 0) eqn:Hzero; [apply Z.eqb_eq in Hzero; lia|].
  rewrite double_to_uint_ok by lia. cbn [bind].
  rewrite HW. cbn [bind]. rewrite select_filter_haar. cbn [bind].
  rewrite HT by reflexivity. cbn [bind].
  rewrite wave_variance_closed_form. cbn [bind].
  cbn [String.eqb Ascii.eqb Bool.eqb orb].
  now rewrite diagmat_repeat.
Qed.

End AnalysisFacts.

(** C5 at the signal (1, ..., 8): three levels, scales 2, 4 and 8.  The
    library functions are arbitrary here; the theorem holds for all. *)
Lemma analysis_without_covariance_witness :
  exists r,
    wavelet_variance_arma
      (D := float)
      (Rm := {| qchisq := fun _ df => df; qnorm := fun q => q |})
      (Ft := {| fft := fun x => map (fun a => (a, 0%float)) x; ifft := fun X => X |})
      [1; 2; 3; 4; 5; 6; 7; 8]%float "haar" "no" = Ok r
    /\ scales r = [2; 4; 8]%float
    /\ up_gauss r = [nan; nan; nan]
    /\ dw_gauss r = [nan; nan; nan]
    /\ V r = [[1; 0; 0]; [0; 1; 0]; [0; 0; 1]]%float.
Proof.
  destruct (analysis_without_covariance
              (D := float)
              (Rm := {| qchisq := fun _ df => df; qnorm := fun q => q |})
              (Ft := {| fft := fun x => map (fun a => (a, 0%float)) x; ifft := fun X => X |})
              [1; 2; 3; 4; 5; 6; 7; 8]%float ltac:(unfold n_elem; simpl; lia))
    as (W & T & vmod & _ & _ & _ & _ & _ & Hres).
  eexists. split; [exact Hres|].
  cbn [scales up_gauss dw_gauss V].
  repeat split; vm_compute; reflexivity.
Defined.

(** ** Autocovariance through the Fourier transform, in real arithmetic *)

Section AutocovarianceFacts.

Local Open Scope R_scope.

Lemma Rsum_app (l1 l2 : list R) : Rsum (l1 ++ l2) = Rsum l1 + Rsum l2.
Proof. induction l1 as [|a l1 IH]; simpl; [lra | rewrite IH; lra]. Qed.

Lemma Rsum_map_ext {A : Type} (f g : A -> R) (l : list A) :
  (forall a, In a l -> f a = g a) -> Rsum (map f l) = Rsum (map g l).
Proof. intros Hfg. f_equal. now apply map_ext_in. Qed.

Lemma Rsum_map_plus {A : Type} (f g : A -> R) (l : list A) :
  Rsum (map (fun a => f a + g a) l) = Rsum (map f l) + Rsum (map g l).
Proof. induction l as [|a l IH]; simpl; [lra | rewrite IH; lra]. Qed.

Lemma Rsum_map_scal {A : Type} (c : R) (f : A -> R) (l : list A) :
  Rsum (map (fun a => c * f a) l) = c * Rsum (map f l).
Proof. induction l as [|a l IH]; simpl; [lra | rewrite IH; lra]. Qed.

Lemma Rsum_map_zero {A : Type} (l : list A) : Rsum (map (fun _ => 0) l) = 0.
Proof. induction l as [|a l IH]; simpl; [reflexivity | rewrite IH; lra]. Qed.

Lemma Rsum_map_const {A : Type} (c : R) (l : list A) :
  Rsum (map (fun _ => c) l) = INR (length l) * c.
Proof.
  induction l as [|a l IH]; [simpl; lra|].
  cbn [map Rsum fold_right length]. fold (Rsum (map (fun _ => c) l)).
  rewrite IH, S_INR. lra.
Qed.

Lemma Rsum_exchange {A B : Type} (F : A -> B -> R) (la : list A) (lb : list B) :
  Rsum (map (fun a => Rsum (map (fun b => F a b) lb)) la)
  = Rsum (map (fun b => Rsum (map (fun a => F a b) la)) lb).
Proof.
  induction la as [|a la IH]; simpl.
  - now rewrite Rsum_map_zero.
  - fold (Rsum (map (fun a0 => Rsum (map (fun b => F a0 b) lb)) la)).
    rewrite IH, <- Rsum_map_plus. reflexivity.
Qed.

Lemma Rsum_mult {A B : Type} (f : A -> R) (g : B -> R) (la : list A) (lb : list B) :
  Rsum (map f la) * Rsum (map g lb)
  = Rsum (map (fun a => Rsum (map (fun b => f a * g b) lb)) la).
Proof.
  induction la as [|a la IH]; simpl; [lra|].
  fold (Rsum (map f la)).
  fold (Rsum (map (fun a0 => Rsum (map (fun b => f a0 * g b) lb)) la)).
  rewrite <- IH, Rsum_map_scal. lra.
Qed.

(** sum over seq with a single non zero term *)
Lemma Rsum_single (n t : nat) (v : R) :
  (t < n)%nat ->
  Rsum (map (fun s => if Nat.eqb t s then v else 0) (seq 0 n)) = v.
Proof.
  intros Ht.
  replace n with (t + (1 + (n - t - 1)))%nat by lia.
  rewrite !seq_app, !map_app, !Rsum_app. cbn [seq map Rsum fold_right Nat.add].
  rewrite Nat.eqb_refl.
  rewrite (Rsum_map_ext _ (fun _ => 0)), Rsum_map_zero.
  - rewrite (Rsum_map_ext _ (fun _ => 0)), Rsum_map_zero; [lra|].
    intros s Hs. apply in_seq in Hs.
    destruct (Nat.eqb_spec t s); [lia | reflexivity].
  - intros s Hs. apply in_seq in Hs.
    destruct (Nat.eqb_spec t s); [lia | reflexivity].
Qed.

(** 2 sin(a/2) * sum_{k<n} cos(k a) = sin((n - 1/2) a) + sin(a/2) *)
Lemma cos_sum_telescope (a : R) (n : nat) :
  2 * sin (a / 2) * Rsum (map (fun k => cos (INR k * a)) (seq 0 n))
  = sin ((INR n - 1 / 2) * a) + sin (a / 2).
Proof.
  induction n as [|n IH].
  - cbn [seq map Rsum fold_right INR].
    replace ((0 - 1 / 2) * a) with (- (a / 2)) by lra.
    rewrite sin_neg. lra.
  - rewrite seq_S, map_app, Rsum_app. cbn [Nat.add map Rsum fold_right].
    rewrite Rmult_plus_distr_l, IH, S_INR.
    replace ((INR n + 1 - 1 / 2) * a) with (INR n * a + a / 2) by lra.
    replace ((INR n - 1 / 2) * a) with (INR n * a - a / 2) by lra.
    rewrite sin_plus, sin_minus. lra.
Qed.

Lemma cos_sum_roots (N d : nat) :
  (0 < d < N)%nat ->
  Rsum (map (fun k => cos (INR k * (2 * PI * INR d / INR N))) (seq 0 N)) = 0.
Proof.
  intros Hd.
  assert (HN : 0 < INR N) by (apply lt_0_INR; lia).
  assert (Hd0 : 0 < INR d) by (apply lt_0_INR; lia).
  assert (HdN : INR d < INR N) by (apply lt_INR; lia).
  pose proof PI_RGT_0 as Hpi.
  set (a := 2 * PI * INR d / INR N).
  assert (Hhalf : a / 2 = PI * (INR d / INR N)) by (unfold a; field; lra).
  assert (Hfrac : 0 < INR d / INR N < 1).
  { split; [apply Rdiv_lt_0_compat; lra|].
    apply Rmult_lt_reg_r with (INR N); [lra|].
    unfold Rdiv. rewrite Rmult_assoc, Rinv_l by lra. lra. }
  assert (Hsin : 0 < sin (a / 2)).
  { apply sin_gt_0; rewrite Hhalf; nra. }
  pose proof (cos_sum_telescope a N) as Htel.
  replace ((INR N - 1 / 2) * a) with (- (a / 2) + 2 * INR d * PI) in Htel
    by (unfold a; field; lra).
  rewrite sin_period, sin_neg in Htel.
  assert (Hzero : 2 * sin (a / 2) * Rsum (map (fun k => cos (INR k * a)) (seq 0 N)) = 0)
    by lra.
  apply Rmult_integral in Hzero. destruct Hzero as [Hzero|Hzero]; [lra | exact Hzero].
Qed.

(** orthogonality of the characters, on the angles of the transform *)
Lemma angle_diff_sum (N t s : nat) :
  (t < N)%nat -> (s < N)%nat ->
  Rsum (map (fun k => cos (angle N k t - angle N k s)) (seq 0 N))
  = if Nat.eqb t s then INR N else 0.
Proof.
  intros Ht Hs.
  assert (HN : 0 < INR N) by (apply lt_0_INR; lia).
  destruct (Nat.eqb_spec t s) as [->|Hne].
  - rewrite (Rsum_map_ext _ (fun _ => 1)).
    + rewrite Rsum_map_const, length_seq. lra.
    + intros k _. rewrite Rminus_diag. apply cos_0.
  - destruct (Nat.lt_ge_cases s t) as [Hlt|Hge].
    + rewrite <- (cos_sum_roots N (t - s)) by lia.
      apply Rsum_map_ext. intros k _. f_equal.
      unfold angle. rewrite minus_INR by lia. field. lra.
    + rewrite <- (cos_sum_roots N (s - t)) by lia.
      apply Rsum_map_ext. intros k _.
      rewrite <- cos_neg. f_equal.
      unfold angle. rewrite minus_INR by lia. field. lra.
Qed.

Lemma dft_power (a : list R) (k : nat) :
  fst (dft_entry a k) * fst (dft_entry a k) + snd (dft_entry a k) * snd (dft_entry a k)
  = Rsum (map (fun t =>
       Rsum (map (fun s => nth t a 0 * nth s a 0
                           * cos (angle (length a) k t - angle (length a) k s))
                 (seq 0 (length a))))
       (seq 0 (length a))).
Proof.
  unfold dft_entry. cbn [fst snd]. rewrite !Rsum_mult, <- Rsum_map_plus.
  apply Rsum_map_ext. intros t _. rewrite <- Rsum_map_plus.
  apply Rsum_map_ext. intros s _. rewrite cos_minus. ring.
Qed.

Lemma parseval (a : list R) :
  Rsum (map (fun k => fst (dft_entry a k) * fst (dft_entry a k)
                      + snd (dft_entry a k) * snd (dft_entry a k))
            (seq 0 (length a)))
  = INR (length a) * Rsum (map (fun t => nth t a 0 * nth t a 0) (seq 0 (length a))).
Proof.
  set (N := length a).
  rewrite (Rsum_map_ext _ _ _ (fun k _ => dft_power a k)). fold N.
  rewrite Rsum_exchange, <- Rsum_map_scal.
  apply Rsum_map_ext. intros t Ht. apply in_seq in Ht.
  rewrite Rsum_exchange.
  rewrite (Rsum_map_ext _ (fun s => if Nat.eqb t s then INR N * (nth t a 0 * nth t a 0) else 0)).
  - apply Rsum_single. lia.
  - intros s Hs. apply in_seq in Hs.
    rewrite Rsum_map_scal, angle_diff_sum by lia.
    destruct (Nat.eqb_spec t s) as [->|_]; ring.
Qed.

Local Close Scope R_scope.

Lemma dot_sum_of_squares (x : list R) :
  dot x x = Rsum (map (fun a => a * a)%R x).
Proof.
  unfold dot. cbn [of_Z R_Double].
  assert (Hacc : forall acc,
             fold_left (fun acc xy => dadd acc (dmul (fst xy) (snd xy))) (combine x x) acc
             = (acc + Rsum (map (fun a => a * a) x))%R).
  { induction x as [|a x IH]; intros acc; cbn [combine fold_left map Rsum fold_right].
    - lra.
    - rewrite IH. cbn [fst snd dadd dmul R_Double]. unfold Rsum. lra. }
  rewrite Hacc. lra.
Qed.

Lemma Rsum_squares_by_index (a : list R) :
  Rsum (map (fun t => nth t a 0 * nth t a 0)%R (seq 0 (length a)))
  = Rsum (map (fun v => v * v)%R a).
Proof.
  rewrite <- (map_map (fun t => nth t a 0%R) (fun v => v * v)%R).
  now rewrite map_nth_seq.
Qed.

Lemma Rsum_squares_padded (x : list R) (n : nat) :
  Rsum (map (fun v => v * v)%R (x ++ repeat 0%R n)) = Rsum (map (fun v => v * v)%R x).
Proof.
  rewrite map_app, Rsum_app.
  replace (Rsum (map (fun v => v * v)%R (repeat 0%R n))) with 0%R; [lra|].
  induction n as [|n IH]; cbn [repeat map Rsum fold_right]; [reflexivity|].
  fold (Rsum (map (fun v => v * v)%R (repeat 0%R n))). rewrite <- IH. lra.
Qed.

(** Entry 0 of the inverse transform of the power spectrum of [a]. *)
Lemma idft_power_lag0 (a : list R) :
  a <> [] ->
  fst (idft_entry
         (map (fun c => (dadd (dmul (fst c) (fst c)) (dmul (snd c) (snd c)), of_Z 0)) (dft a))
         0)
  = Rsum (map (fun v => v * v)%R a).
Proof.
  intros Ha.
  assert (HN : (0 < INR (length a))%R)
    by (apply lt_0_INR; destruct a; [congruence | simpl; lia]).
  unfold idft_entry, dft. cbn [fst]. rewrite !length_map, length_seq.
  rewrite (Rsum_map_ext _ (fun k => fst (dft_entry a k) * fst (dft_entry a k)
                                    + snd (dft_entry a k) * snd (dft_entry a k))%R).
  - rewrite parseval, Rsum_squares_by_index. field. lra.
  - intros k Hk. apply in_seq in Hk.
    rewrite map_map, nth_map_seq by lia. cbn [fst snd dadd dmul of_Z R_Double].
    unfold angle. cbn [INR].
    replace (2 * PI * INR k * 0 / INR (length a))%R with 0%R by (field; lra).
    rewrite cos_0, sin_0. lra.
Qed.

Lemma dft_acf_nonempty (x : list R) :
  1 <= n_elem x < 2 ^ 30 ->
  dft_acf x
  = Ok (firstn (length x)
          (map (fun c => ddiv (fst c) (of_Z (n_elem x)))
               (idft (map (fun c => (dadd (dmul (fst c) (fst c)) (dmul (snd c) (snd c)), of_Z 0))
                          (dft (x ++ repeat 0%R (length x))))))).
Proof.
  intros Hn. unfold dft_acf.
  rewrite to_int_small by lia. rewrite !uint_small by lia.
  assert (Hresize : resize x (2 * n_elem x) = x ++ repeat 0%R (length x)).
  { unfold resize. cbn [of_Z R_Double].
    replace (Z.to_nat (2 * n_elem x)) with (length x + length x)%nat by (unfold n_elem; lia).
    rewrite firstn_all2 by lia. do 2 f_equal. lia. }
  rewrite Hresize. cbn [fft ifft R_Fourier].
  unfold rows.
  match goal with
  | |- (if (_ >? _) || (_ >=? n_elem ?out) then _ else _) = _ =>
      assert (Hout : n_elem out = 2 * n_elem x)
  end.
  { unfold n_elem, idft, dft.
    repeat first [rewrite length_map | rewrite length_seq
                  | rewrite length_app | rewrite repeat_length].
    lia. }
  rewrite Hout.
  destruct (0 >? n_elem x - 1) eqn:H1;
    [rewrite Z.gtb_ltb in H1; apply Z.ltb_lt in H1; lia|].
  destruct (n_elem x - 1 >=? 2 * n_elem x) eqn:H2;
    [rewrite Z.geb_leb in H2; apply Z.leb_le in H2; lia|].
  cbn [orb Z.to_nat skipn]. do 2 f_equal. unfold n_elem. lia.
Qed.

End AutocovarianceFacts.

(** C8 (amended).  In real arithmetic, for every sequence [x] of [n] entries
    with [1 <= n < 2^30], [dft_acf x] returns a sequence of exactly [n]
    entries, and its entry at lag 0 is the sum of the squares of [x] divided
    by [n]. *)
Theorem dft_acf_lag0_is_mean_square (x : list R) :
  1 <= n_elem x < 2 ^ 30 ->
  exists out,
    dft_acf x = Ok out
    /\ length out = length x
    /\ nth_error out 0 = Some (ddiv (dot x x) (of_Z (n_elem x))).
Proof.
  intros Hn. rewrite dft_acf_nonempty by assumption.
  eexists. split; [reflexivity|].
  assert (Hpad : x ++ repeat 0%R (length x) <> [])
    by (destruct x; [unfold n_elem in Hn; simpl in Hn; lia | discriminate]).
  split.
  - rewrite length_firstn. unfold idft, dft.
    repeat first [rewrite length_map | rewrite length_seq
                  | rewrite length_app | rewrite repeat_length].
    lia.
  - destruct (length x) as [|m] eqn:Hlen; [unfold n_elem in Hn; lia|].
    unfold idft.
    set (iff := map (fun c => (dadd (dmul (fst c) (fst c)) (dmul (snd c) (snd c)), of_Z 0))
                    (dft (x ++ repeat 0%R (Datatypes.S m)))).
    assert (Hiff : length iff = Datatypes.S (m + Datatypes.S m)).
    { unfold iff, dft.
      repeat first [rewrite length_map | rewrite length_seq
                    | rewrite length_app | rewrite repeat_length].
      lia. }
    rewrite Hiff. cbn [seq map firstn nth_error]. do 2 f_equal.
    unfold iff. rewrite <- Hlen in *.
    rewrite (idft_power_lag0 _ Hpad), Rsum_squares_padded.
    symmetry. apply dot_sum_of_squares.
Qed.

(** C8 at the sequence (3, 4). *)
Lemma dft_acf_lag0_is_mean_square_witness :
  exists out,
    dft_acf [3%R; 4%R] = Ok out
    /\ length out = 2%nat
    /\ nth_error out 0 = Some (ddiv (dot [3%R; 4%R] [3%R; 4%R]) (of_Z 2)).
Proof.
  apply (dft_acf_lag0_is_mean_square [3%R; 4%R]).
  unfold n_elem. simpl. lia.
Defined.

(** C8 as stated fails on the empty sequence: the row range [(0, n - 1)] is
    [(0, 4294967295)] there and is refused. *)
Lemma dft_acf_of_empty_fails :
  dft_acf (D := R) [] = Err IndexOutOfBounds.
Proof. reflexivity. Qed.

(** ** Further properties of the trimming and of the boundary handling *)

Lemma ceil_div_spec (a b : Z) :
  0 < b -> (ceil_div a b - 1) * b < a <= ceil_div a b * b.
Proof.
  intros Hb. unfold ceil_div.
  pose proof (Z.div_mod (- a) b ltac:(lia)) as Hdiv.
  pose proof (Z.mod_pos_bound (- a) b Hb) as Hmod.
  nia.
Qed.

(** X1.  When every level is longer than its count, [brick_wall] returns a
    decomposition of the same number of levels in which level [j] has lost
    its first [n j] coefficients. *)
Theorem brick_wall_removes_leading_coefficients {D : Type} {Dbl : Double D}
    (x : list (list D)) (wf : wave_filter (D := D)) (method : string) (n : nat -> Z) :
  (forall j temp, nth_error x j = Some temp ->
                  trim_count (wf_L wf) method (Z.of_nat j) = Ok (n j)
                  /\ n j < n_elem temp <= 2 ^ 32) ->
  exists T, brick_wall x wf method = Ok T
            /\ length T = length x
            /\ forall j temp, nth_error x j = Some temp ->
                              nth_error T j = Some (skipn (Z.to_nat (n j)) temp).
Proof.
  intros Hlevels. rewrite (brick_wall_trims x wf method n Hlevels).
  eexists. split; [reflexivity|]. split; [now rewrite length_map, length_seq|].
  intros j temp Htemp.
  assert (Hj : (j < length x)%nat) by (apply nth_error_Some; congruence).
  rewrite nth_error_map_seq by assumption.
  now rewrite (nth_error_nth x j [] Htemp).
Qed.

(** X1 at two levels of three and four coefficients with the Haar length. *)
Lemma brick_wall_removes_leading_coefficients_witness :
  exists T, brick_wall (D := float) [[1; 2; 3]%float; [4; 5; 6; 7]%float]
              {| wf_L := 2; wf_h := []; wf_g := [] |} "modwt" = Ok T
            /\ length T = 2%nat
            /\ forall j temp,
                 nth_error [[1; 2; 3]%float; [4; 5; 6; 7]%float] j = Some temp ->
                 nth_error T j
                 = Some (skipn (Z.to_nat ((2 ^ (Z.of_nat j + 1) - 1) * (2 - 1))) temp).
Proof.
  apply (brick_wall_removes_leading_coefficients
           (D := float) [[1; 2; 3]%float; [4; 5; 6; 7]%float]
           {| wf_L := 2; wf_h := []; wf_g := [] |} "modwt"
           (fun j => (2 ^ (Z.of_nat j + 1) - 1) * (2 - 1))).
  intros [|[|j]] temp Htemp.
  - injection Htemp as <-. split; [reflexivity | unfold n_elem; simpl; lia].
  - injection Htemp as <-. split; [reflexivity | unfold n_elem; simpl; lia].
  - destruct j; discriminate Htemp.
Defined.

(** X2.  When the count of some level reaches the length of that level,
    [brick_wall] returns no decomposition. *)
Theorem brick_wall_fails_when_count_reaches_length {D : Type} {Dbl : Double D}
    (x : list (list D)) (wf : wave_filter (D := D)) (method : string)
    (j : nat) (temp : list D) (n : Z) :
  nth_error x j = Some temp ->
  trim_count (wf_L wf) method (Z.of_nat j) = Ok n ->
  n_elem temp <= n ->
  exists e, brick_wall x wf method = Err e.
Proof.
  intros Htemp Hn Hge.
  destruct (brick_wall x wf method) as [T|e] eqn:Hbw; [|eauto].
  exfalso. unfold brick_wall in Hbw.
  assert (Hj : (j < length x)%nat) by (apply nth_error_Some; congruence).
  destruct (tabulate_nth _ _ _ _ Hbw j Hj) as (a & Ha & _).
  cbn [Z.add] in Ha.
  rewrite (brick_wall_level_whole _ _ _ _ _ _ Htemp Hn Hge) in Ha. discriminate Ha.
Qed.

(** X2 at a second level of three coefficients, whose count is 3. *)
Lemma brick_wall_fails_when_count_reaches_length_witness :
  exists e, brick_wall (D := float) [[1; 2; 3]%float; [4; 5; 6]%float]
              {| wf_L := 2; wf_h := []; wf_g := [] |} "modwt" = Err e.
Proof.
  apply (brick_wall_fails_when_count_reaches_length
           (D := float) [[1; 2; 3]%float; [4; 5; 6]%float]
           {| wf_L := 2; wf_h := []; wf_g := [] |} "modwt" 1 [4; 5; 6]%float 3).
  - reflexivity.
  - reflexivity.
  - unfold n_elem. simpl. lia.
Defined.

(** X3.  With the boundary "reflection" a nonempty signal is followed by its
    reversal, and both transforms are the periodic ones of that signal. *)
Theorem reflection_appends_reversal {D : Type} {Dbl : Double D}
    (x : list D) (filter_name : string) (J : Z) :
  0 < n_elem x < 2 ^ 31 ->
  boundary_extend x "reflection" = Ok (x ++ rev x)
  /\ dwt_arma x filter_name J "reflection" = dwt_arma (x ++ rev x) filter_name J "periodic"
  /\ modwt_arma x filter_name J "reflection"
     = modwt_arma (x ++ rev x) filter_name J "periodic".
Proof.
  intros Hx. pose proof (boundary_reflection x Hx) as Hrefl.
  split; [exact Hrefl|].
  unfold dwt_arma, modwt_arma. rewrite Hrefl, boundary_periodic. split; reflexivity.
Qed.

(** X3 at the signal (1, 2, 3). *)
Lemma reflection_appends_reversal_witness :
  boundary_extend (D := float) [1; 2; 3]%float "reflection"
  = Ok ([1; 2; 3]%float ++ rev [1; 2; 3]%float)
  /\ dwt_arma (D := float) [1; 2; 3]%float "haar" 1 "reflection"
     = dwt_arma ([1; 2; 3]%float ++ rev [1; 2; 3]%float) "haar" 1 "periodic"
  /\ modwt_arma (D := float) [1; 2; 3]%float "haar" 1 "reflection"
     = modwt_arma ([1; 2; 3]%float ++ rev [1; 2; 3]%float) "haar" 1 "periodic".
Proof.
  apply (reflection_appends_reversal (D := float) [1; 2; 3]%float "haar" 1).
  unfold n_elem. simpl. lia.
Defined.

(** X4.  The count of [brick_wall] at level [j >= 0], before it is clamped.
    For a filter length [m >= 2] whose MODWT count fits an [unsigned int],
    the count of the method "modwt" is [(2^(j+1) - 1) * (m - 1)] and the
    count [c] of the method "dwt" is the ceiling of
    [(m - 2) * (1 - 2^-(j+1))]: the least integer with
    [(m - 2) * (2^(j+1) - 1) <= c * 2^(j+1)].  For [m = 1] both counts are
    zero while the [double] expressions are exact, and undefined beyond:
    the product of the method "modwt" is [inf * 0] from [j + 1 = 1024] on,
    and the argument of [ceil] is [-1.0] from [j + 1 = 54] on. *)
Theorem trim_count_formulas (m j : Z) :
  0 <= j ->
  (2 <= m -> (2 ^ (j + 1) - 1) * (m - 1) < 2 ^ 32 ->
   trim_count m "modwt" j = Ok ((2 ^ (j + 1) - 1) * (m - 1))
   /\ exists c, trim_count m "dwt" j = Ok c
                /\ (c - 1) * 2 ^ (j + 1) < (m - 2) * (2 ^ (j + 1) - 1) <= c * 2 ^ (j + 1))
  /\ (j + 1 <= 1023 -> trim_count 1 "modwt" j = Ok 0)
  /\ (1023 < j + 1 -> trim_count 1 "modwt" j = Err Undefined)
  /\ (j + 1 <= 53 -> trim_count 1 "dwt" j = Ok 0)
  /\ (53 < j + 1 -> trim_count 1 "dwt" j = Err Undefined).
Proof.
  intros Hj.
  assert (Hbp : 2 <= 2 ^ (j + 1)).
  { replace 2 with (2 ^ 1) at 1 by reflexivity. apply Z.pow_le_mono_r; lia. }
  split; [|split; [|split; [|split]]].
  - intros Hm Hfit.
    assert (Hle : j + 1 <= 32) by (apply small_power_exponent; nia).
    assert (Hmodwt : trim_count m "modwt" j = Ok ((2 ^ (j + 1) - 1) * (m - 1)))
      by (apply trim_count_modwt; [discriminate | lia | lia | lia | lia]).
    split; [exact Hmodwt|].
    pose proof (ceil_div_spec ((m - 2) * (2 ^ (j + 1) - 1)) (2 ^ (j + 1)) ltac:(lia))
      as Hceil.
    exists (ceil_div ((m - 2) * (2 ^ (j + 1) - 1)) (2 ^ (j + 1))).
    split; [|exact Hceil].
    unfold trim_count in *.
    destruct (j + 1 <=? 1023) eqn:H1023; [|apply Z.leb_gt in H1023; lia].
    destruct (j + 1 <=? 53) eqn:H53; [|apply Z.leb_gt in H53; lia].
    rewrite double_to_uint_ok by nia. cbn [bind String.eqb Ascii.eqb Bool.eqb].
    apply double_to_uint_ok. nia.
  - intros Hfin.
    rewrite (trim_count_modwt 1 "modwt" j) by (try discriminate; lia).
    f_equal. lia.
  - intros Hinf. unfold trim_count.
    destruct (j + 1 <=? 1023) eqn:H1023; [apply Z.leb_le in H1023; lia | reflexivity].
  - intros Hexact. unfold trim_count.
    destruct (j + 1 <=? 1023) eqn:H1023; [|apply Z.leb_gt in H1023; lia].
    destruct (j + 1 <=? 53) eqn:H53; [|apply Z.leb_gt in H53; lia].
    replace ((2 ^ (j + 1) - 1) * (1 - 1)) with 0 by lia.
    cbn [bind String.eqb Ascii.eqb Bool.eqb double_to_uint].
    replace (ceil_div ((1 - 2) * (2 ^ (j + 1) - 1)) (2 ^ (j + 1))) with 0; [reflexivity|].
    unfold ceil_div.
    replace (- ((1 - 2) * (2 ^ (j + 1) - 1))) with (2 ^ (j + 1) - 1) by lia.
    rewrite Z.div_small by lia. reflexivity.
  - intros Hround. unfold trim_count.
    destruct (j + 1 <=? 53) eqn:H53; [apply Z.leb_le in H53; lia|].
    destruct (j + 1 <=? 1023); [|reflexivity].
    replace (2 ^ (j + 1) * (1 - 1)) with 0 by lia. reflexivity.
Qed.

(** X4 for the Haar length at level 0: one coefficient is removed by the
    method "modwt", none by the method "dwt". *)
Lemma trim_count_formulas_witness :
  trim_count 2 "modwt" 0 = Ok ((2 ^ (0 + 1) - 1) * (2 - 1))
  /\ exists c, trim_count 2 "dwt" 0 = Ok c
               /\ (c - 1) * 2 ^ (0 + 1) < (2 - 2) * (2 ^ (0 + 1) - 1) <= c * 2 ^ (0 + 1).
Proof.
  destruct (trim_count_formulas 2 0 ltac:(lia)) as (Hcount & _).
  apply Hcount; [lia | reflexivity].
Defined.

(** ** The values of the two transforms *)

Section TransformValues.

Context {D : Type} {Dbl : Double D}.

Lemma dwt_coef_value (h0 h1 g0 g1 : D) (x : list D) (M : Z) (t : nat) :
  (2 * t + 1 < length x)%nat -> n_elem x < 2 ^ 31 ->
  dwt_coef 2 [h0; h1] [g0; g1] x M (Z.of_nat t)
  = Ok (dadd (dmul h0 (nth (2 * t + 1) x (of_Z 0))) (dmul h1 (nth (2 * t) x (of_Z 0))),
        dadd (dmul g0 (nth (2 * t + 1) x (of_Z 0))) (dmul g1 (nth (2 * t) x (of_Z 0)))).
Proof.
  intros Ht Hx. unfold n_elem in Hx. unfold dwt_coef.
  rewrite uint_small, to_int_small by lia.
  change (vget [h0; h1] 0) with (Ok h0). change (vget [g0; g1] 0) with (Ok g0).
  cbn [bind].
  replace (2 * Z.of_nat t + 1) with (Z.of_nat (2 * t + 1)) by lia.
  rewrite (vget_nth_default x (2 * t + 1) (of_Z 0)) by lia. cbn [bind].
  rewrite for_range_1_2. cbv beta iota zeta.
  change (vget [h0; h1] 1) with (Ok h1). change (vget [g0; g1] 1) with (Ok g1).
  cbn [bind].
  replace (Z.of_nat (2 * t + 1) - 1) with (Z.of_nat (2 * t)) by lia.
  destruct (Z.of_nat (2 * t) <? 0) eqn:Hneg; [apply Z.ltb_lt in Hneg; lia|].
  rewrite (vget_nth_default x (2 * t) (of_Z 0)) by lia. reflexivity.
Qed.

Lemma dwt_level_value (h0 h1 g0 g1 : D) (x : list D) (M : Z) :
  n_elem x = M -> M < 2 ^ 31 ->
  tabulate (Z.to_nat (M / 2)) 0 (dwt_coef 2 [h0; h1] [g0; g1] x M)
  = Ok (haar_dwt_level h0 h1 g0 g1 x).
Proof.
  intros HM Hlt. unfold haar_dwt_level.
  assert (Hcount : Z.to_nat (M / 2) = (length x / 2)%nat).
  { rewrite <- HM. unfold n_elem.
    change 2 with (Z.of_nat 2). rewrite <- Nat2Z.inj_div. apply Nat2Z.id. }
  rewrite Hcount. apply tabulate_map. intros k Hk. cbn [Z.add].
  apply dwt_coef_value; [|lia].
  pose proof (Nat.Div0.mul_div_le (length x) 2). lia.
Qed.

Lemma dwt_levels_value (h0 h1 g0 g1 : D) (N : Z) (count : nat) :
  N < 2 ^ 31 ->
  forall (j : Z) (x : list D),
    1 <= j -> n_elem x = N / 2 ^ (j - 1) ->
    dwt_levels count j N 2 [h0; h1] [g0; g1] x = Ok (dwt_pyramid count h0 h1 g0 g1 x).
Proof.
  intros HN. induction count as [|c IH]; intros j x Hj Hx; [reflexivity|].
  cbn [dwt_levels dwt_pyramid].
  assert (H0N : 0 <= N / 2 ^ (j - 1)) by (rewrite <- Hx; apply n_elem_nonneg).
  assert (Hpow : 0 < 2 ^ (j - 1)) by (apply Z.pow_pos_nonneg; lia).
  assert (HM : N / 2 ^ (j - 1) <= Z.max N 0).
  { destruct (Z.le_gt_cases 0 N) as [Hpos|Hneg].
    - apply Z.le_trans with N; [|lia]. apply Z.div_le_upper_bound; [lia|]. nia.
    - assert (N / 2 ^ (j - 1) < 0) by (apply Z.div_lt_upper_bound; lia). lia. }
  rewrite (dwt_level_value h0 h1 g0 g1 x (N / 2 ^ (j - 1)) Hx) by lia.
  cbn [bind]. rewrite IH; [reflexivity | lia |].
  rewrite n_elem_map. unfold n_elem, haar_dwt_level. rewrite length_map, length_seq.
  rewrite Nat2Z.inj_div. fold (n_elem x). rewrite Hx.
  change (Z.of_nat 2) with 2. rewrite Z.div_div by lia.
  f_equal. replace (j + 1 - 1) with (Z.succ (j - 1)) by lia.
  rewrite Z.pow_succ_r by lia. lia.
Qed.

Lemma modwt_coef_value (h0 h1 g0 g1 : D) (x : list D) (N j : Z) (t : nat) :
  n_elem x = N -> N < 2 ^ 31 -> Z.of_nat t < N -> 1 <= j -> 2 ^ (j - 1) <= N ->
  modwt_coef 2 [h0; h1] [g0; g1] x N j (Z.of_nat t)
  = Ok (let k := Z.to_nat ((Z.of_nat t - 2 ^ (j - 1)) mod n_elem x) in
        (dadd (dmul h0 (nth t x (of_Z 0))) (dmul h1 (nth k x (of_Z 0))),
         dadd (dmul g0 (nth t x (of_Z 0))) (dmul g1 (nth k x (of_Z 0))))).
Proof.
  intros Hx HN Ht Hj Hpow. unfold modwt_coef.
  assert (H0 : 0 < 2 ^ (j - 1)) by (apply Z.pow_pos_nonneg; lia).
  assert (Hlen : (t < length x)%nat) by (unfold n_elem in Hx; lia).
  rewrite to_int_small by lia.
  change (vget [h0; h1] 0) with (Ok h0). change (vget [g0; g1] 0) with (Ok g0).
  cbn [bind]. rewrite (vget_nth_default x t (of_Z 0)) by assumption. cbn [bind].
  rewrite for_range_1_2. cbv beta iota zeta.
  rewrite double_to_int_ok by lia. cbn [bind].
  change (vget [h0; h1] 1) with (Ok h1). change (vget [g0; g1] 1) with (Ok g1).
  cbn [bind]. rewrite Hx.
  destruct (Z.of_nat t - 2 ^ (j - 1) <? 0) eqn:Hneg.
  - apply Z.ltb_lt in Hneg.
    rewrite uint_small, to_int_small by lia.
    replace ((Z.of_nat t - 2 ^ (j - 1)) mod N) with (Z.of_nat t - 2 ^ (j - 1) + N)
      by (apply Z.mod_unique with (-1); lia).
    rewrite <- (Z2Nat.id (Z.of_nat t - 2 ^ (j - 1) + N)) at 1 by lia.
    rewrite (vget_nth_default x _ (of_Z 0)) by (unfold n_elem in Hx; lia).
    reflexivity.
  - apply Z.ltb_ge in Hneg.
    rewrite Z.mod_small by lia.
    rewrite <- (Z2Nat.id (Z.of_nat t - 2 ^ (j - 1))) at 1 by lia.
    rewrite (vget_nth_default x _ (of_Z 0)) by (unfold n_elem in Hx; lia).
    reflexivity.
Qed.

Lemma modwt_levels_value (h0 h1 g0 g1 : D) (N : Z) (count : nat) :
  N < 2 ^ 31 ->
  forall (j : Z) (x : list D),
    1 <= j -> n_elem x = N ->
    (forall j', j <= j' < j + Z.of_nat count -> 2 ^ (j' - 1) <= N) ->
    modwt_levels count j N 2 [h0; h1] [g0; g1] x
    = Ok (modwt_pyramid count j h0 h1 g0 g1 x).
Proof.
  intros HN. induction count as [|c IH]; intros j x Hj Hx Hpow; [reflexivity|].
  cbn [modwt_levels modwt_pyramid].
  assert (Hlevel : tabulate (Z.to_nat N) 0 (modwt_coef 2 [h0; h1] [g0; g1] x N j)
                   = Ok (modwt_level h0 h1 g0 g1 (2 ^ (j - 1)) x)).
  { unfold modwt_level. replace (Z.to_nat N) with (length x) by (unfold n_elem in Hx; lia).
    apply tabulate_map. intros k Hk. cbn [Z.add].
    apply modwt_coef_value; try lia; [unfold n_elem in Hx; lia | apply Hpow; lia]. }
  rewrite Hlevel. cbn [bind]. rewrite IH; [reflexivity | lia | |].
  - rewrite n_elem_map. unfold n_elem, modwt_level.
    rewrite length_map, length_seq. exact Hx.
  - intros j' Hj'. apply Hpow. lia.
Qed.

End TransformValues.

(** X5.  Under the preconditions of the decomposition, the levels that
    [dwt_arma] returns for the Haar filter are the wavelet coefficients of
    the pyramid: with [c] the filter constant, level 1 holds
    [c * x(2t+1) + (c * -1) * x(2t)], and each further level is computed in
    the same way from the scaling coefficients [c * x(2t+1) + c * x(2t)] of
    the level before. *)
Theorem dwt_arma_is_haar_pyramid {D : Type} {Dbl : Double D}
    (x x' : list D) (boundary : string) (J : Z) :
  boundary_extend x boundary = Ok x' -> 0 <= J < 32 -> n_elem x' < 2 ^ 31 ->
  n_elem x' mod 2 ^ J = 0 -> 2 ^ J <= n_elem x' ->
  let c := decimal 7071067811865475 10000000000000000 in
  dwt_arma x "haar" J boundary = Ok (dwt_pyramid (Z.to_nat J) c (negated c) c c x').
Proof.
  intros Hb HJ HN Hmod Hle c. unfold dwt_arma. rewrite Hb. cbn [bind].
  rewrite double_to_uint_ok by (pose proof (pow2_lt_uint J HJ); lia). cbn [bind].
  rewrite Hmod. cbn [Z.eqb negb].
  destruct (2 ^ J >? n_elem x') eqn:Hgt;
    [rewrite Z.gtb_ltb in Hgt; apply Z.ltb_lt in Hgt; lia|].
  rewrite select_filter_haar. cbn [bind wf_L wf_h wf_g]. unfold haar_g.
  apply dwt_levels_value; [assumption | lia |].
  now rewrite Z.sub_diag, Z.pow_0_r, Z.div_1_r.
Qed.

(** X5 at the signal (1, ..., 8) with two levels. *)
Lemma dwt_arma_is_haar_pyramid_witness :
  dwt_arma (D := float) [1; 2; 3; 4; 5; 6; 7; 8]%float "haar" 2 "periodic"
  = Ok (dwt_pyramid 2
          (decimal 7071067811865475 10000000000000000)
          (negated (decimal 7071067811865475 10000000000000000))
          (decimal 7071067811865475 10000000000000000)
          (decimal 7071067811865475 10000000000000000)
          [1; 2; 3; 4; 5; 6; 7; 8]%float).
Proof.
  apply (dwt_arma_is_haar_pyramid
           (D := float) [1; 2; 3; 4; 5; 6; 7; 8]%float [1; 2; 3; 4; 5; 6; 7; 8]%float
           "periodic" 2).
  - reflexivity.
  - lia.
  - reflexivity.
  - reflexivity.
  - vm_compute. discriminate.
Defined.

(** X6.  When [2^J] does not exceed the handled length [N], the levels that
    [modwt_arma] returns for the Haar filter are the wavelet coefficients of
    the pyramid with the filter divided by [sqrt(2)]: level [j] holds
    [ht(0) * v(t) + ht(1) * v((t - 2^(j-1)) mod N)], where [v] is the signal
    for [j = 1] and the scaling coefficients of level [j - 1] after it. *)
Theorem modwt_arma_is_circular_pyramid {D : Type} {Dbl : Double D}
    (x x' : list D) (boundary : string) (J : Z) :
  boundary_extend x boundary = Ok x' -> 0 <= J < 32 -> n_elem x' < 2 ^ 31 ->
  2 ^ J <= n_elem x' ->
  let c := decimal 7071067811865475 10000000000000000 in
  let r := dsqrt (of_Z 2) in
  modwt_arma x "haar" J boundary
  = Ok (modwt_pyramid (Z.to_nat J) 1
          (ddiv c r) (ddiv (negated c) r) (ddiv c r) (ddiv c r) x').
Proof.
  intros Hb HJ HN Hle c r. unfold modwt_arma. rewrite Hb. cbn [bind].
  rewrite double_to_uint_ok by (pose proof (pow2_lt_uint J HJ); lia). cbn [bind].
  destruct (2 ^ J >? n_elem x') eqn:Hgt;
    [rewrite Z.gtb_ltb in Hgt; apply Z.ltb_lt in Hgt; lia|].
  rewrite select_filter_haar. cbn [bind wf_L wf_h wf_g]. unfold haar_g. cbn [map].
  apply modwt_levels_value; [assumption | lia | reflexivity |].
  intros j' Hj'. apply Z.le_trans with (2 ^ J); [|exact Hle].
  apply Z.pow_le_mono_r; lia.
Qed.

(** X6 at the signal (1, ..., 5) with two levels. *)
Lemma modwt_arma_is_circular_pyramid_witness :
  modwt_arma (D := float) [1; 2; 3; 4; 5]%float "haar" 2 "periodic"
  = Ok (modwt_pyramid 2 1
          (ddiv (decimal 7071067811865475 10000000000000000) (dsqrt (of_Z 2)))
          (ddiv (negated (decimal 7071067811865475 10000000000000000)) (dsqrt (of_Z 2)))
          (ddiv (decimal 7071067811865475 10000000000000000) (dsqrt (of_Z 2)))
          (ddiv (decimal 7071067811865475 10000000000000000) (dsqrt (of_Z 2)))
          [1; 2; 3; 4; 5]%float).
Proof.
  apply (modwt_arma_is_circular_pyramid
           (D := float) [1; 2; 3; 4; 5]%float [1; 2; 3; 4; 5]%float "periodic" 2).
  - reflexivity.
  - lia.
  - reflexivity.
  - vm_compute. discriminate.
Defined.

(** ** A constant signal *)

Lemma map_seq_const {A : Type} (f : nat -> A) (c : A) (n : nat) :
  (forall i, (i < n)%nat -> f i = c) -> map f (seq 0 n) = repeat c n.
Proof.
  intros Hf. induction n as [|n IH]; [reflexivity|].
  rewrite seq_S, map_app, IH by (intros i Hi; apply Hf; lia).
  cbn [Nat.add map]. rewrite Hf by lia.
  change (Datatypes.S n) with (1 + n)%nat.
  now rewrite Nat.add_comm, repeat_app.
Qed.

Lemma nth_repeat_lt {A : Type} (a d : A) (n i : nat) :
  (i < n)%nat -> nth i (repeat a n) d = a.
Proof.
  intros Hi. rewrite (nth_indep _ d a) by (rewrite repeat_length; lia).
  apply nth_repeat.
Qed.

Section ConstantSignal.

Context {D : Type} {Dbl : Double D}.

Lemma modwt_level_repeat (h0 h1 g0 g1 : D) (shift : Z) (a : D) (n : nat) :
  modwt_level h0 h1 g0 g1 shift (repeat a n)
  = repeat (dadd (dmul h0 a) (dmul h1 a), dadd (dmul g0 a) (dmul g1 a)) n.
Proof.
  unfold modwt_level. rewrite repeat_length.
  apply map_seq_const. intros i Hi. cbv zeta.
  assert (Hk : (Z.to_nat ((Z.of_nat i - shift) mod n_elem (repeat a n)) < n)%nat).
  { unfold n_elem. rewrite repeat_length.
    pose proof (Z.mod_pos_bound (Z.of_nat i - shift) (Z.of_nat n) ltac:(lia)). lia. }
  now rewrite !nth_repeat_lt by assumption.
Qed.

Lemma haar_dwt_level_repeat (h0 h1 g0 g1 : D) (a : D) (n : nat) :
  haar_dwt_level h0 h1 g0 g1 (repeat a n)
  = repeat (dadd (dmul h0 a) (dmul h1 a), dadd (dmul g0 a) (dmul g1 a)) (n / 2).
Proof.
  unfold haar_dwt_level. rewrite repeat_length.
  apply map_seq_const. intros i Hi.
  pose proof (Nat.Div0.mul_div_le n 2).
  now rewrite !nth_repeat_lt by lia.
Qed.

Lemma map_repeat {A B : Type} (f : A -> B) (a : A) (n : nat) :
  map f (repeat a n) = repeat (f a) n.
Proof. induction n as [|n IH]; simpl; [reflexivity | now rewrite IH]. Qed.

End ConstantSignal.

Lemma modwt_pyramid_constant (h0 h1 g0 g1 : R) (n J : nat) :
  (h0 + h1 = 0)%R ->
  forall (j : Z) (a : R),
    modwt_pyramid J j h0 h1 g0 g1 (repeat a n) = repeat (repeat 0%R n) J.
Proof.
  intros Hh. induction J as [|J IH]; intros j a; [reflexivity|].
  cbn [modwt_pyramid repeat]. rewrite modwt_level_repeat, !map_repeat. cbn [fst snd].
  rewrite IH. f_equal. f_equal. cbn [dadd dmul R_Double].
  replace (h0 * a + h1 * a)%R with ((h0 + h1) * a)%R by ring. rewrite Hh. ring.
Qed.

Lemma dwt_pyramid_constant (h0 h1 g0 g1 : R) (J : nat) :
  (h0 + h1 = 0)%R ->
  forall (n : nat) (a : R),
    dwt_pyramid J h0 h1 g0 g1 (repeat a n)
    = map (fun j => repeat 0%R (n / 2 ^ (j + 1))) (seq 0 J).
Proof.
  intros Hh. induction J as [|J IH]; intros n a; [reflexivity|].
  cbn [dwt_pyramid seq map]. rewrite haar_dwt_level_repeat, !map_repeat. cbn [fst snd].
  rewrite IH, <- seq_shift, map_map.
  assert (HW : dadd (dmul h0 a) (dmul h1 a) = 0%R).
  { cbn [dadd dmul R_Double].
    replace (h0 * a + h1 * a)%R with ((h0 + h1) * a)%R by ring. rewrite Hh. ring. }
  rewrite HW. change (2 ^ (0 + 1))%nat with 2%nat.
  apply (f_equal (cons (repeat 0%R (n / 2)))).
  apply map_ext. intros k.
  rewrite Nat.Div0.div_div.
  replace (Datatypes.S k + 1)%nat with (Datatypes.S (k + 1)) by lia.
  now rewrite Nat.pow_succ_r'.
Qed.

Lemma haar_wavelet_filter_sums_to_zero (r : R) :
  (ddiv (decimal 7071067811865475 10000000000000000) r
   + ddiv (negated (decimal 7071067811865475 10000000000000000)) r = 0)%R.
Proof. unfold negated, decimal. cbn [ddiv dmul of_Z R_Double]. unfold Rdiv. ring. Qed.

Lemma constant_levels_of_modwt (a : R) (n : nat) (J : Z) :
  0 <= J < 32 -> 2 ^ J <= Z.of_nat n < 2 ^ 31 ->
  modwt_arma (repeat a n) "haar" J "periodic" = Ok (repeat (repeat 0%R n) (Z.to_nat J)).
Proof.
  intros HJ Hn.
  assert (Hlen : n_elem (repeat a n) = Z.of_nat n)
    by (unfold n_elem; now rewrite repeat_length).
  pose proof (pow2_lt_uint J HJ) as Hpow.
  unfold modwt_arma. rewrite boundary_periodic. cbn [bind].
  rewrite double_to_uint_ok by lia. cbn [bind]. rewrite Hlen.
  destruct (2 ^ J >? Z.of_nat n) eqn:Hgt;
    [rewrite Z.gtb_ltb in Hgt; apply Z.ltb_lt in Hgt; lia|].
  rewrite select_filter_haar. cbn [bind wf_L wf_h wf_g]. unfold haar_g. cbn [map].
  rewrite modwt_levels_value; [| lia | lia | exact Hlen |].
  - f_equal. apply modwt_pyramid_constant, haar_wavelet_filter_sums_to_zero.
  - intros j' Hj'. apply Z.le_trans with (2 ^ J); [|lia].
    apply Z.pow_le_mono_r; lia.
Qed.

(** X7.  In real arithmetic the wavelet coefficients of a constant signal
    are zero at every level, for [modwt_arma] and, when [2^J] divides the
    length, for [dwt_arma]. *)
Theorem constant_signal_has_zero_wavelet_coefficients (a : R) (n : nat) (J : Z) :
  0 <= J < 32 -> 2 ^ J <= Z.of_nat n < 2 ^ 31 ->
  modwt_arma (repeat a n) "haar" J "periodic" = Ok (repeat (repeat 0%R n) (Z.to_nat J))
  /\ (Z.of_nat n mod 2 ^ J = 0 ->
      dwt_arma (repeat a n) "haar" J "periodic"
      = Ok (map (fun j => repeat 0%R (n / 2 ^ (j + 1))) (seq 0 (Z.to_nat J)))).
Proof.
  intros HJ Hn.
  assert (Hlen : n_elem (repeat a n) = Z.of_nat n)
    by (unfold n_elem; now rewrite repeat_length).
  pose proof (pow2_lt_uint J HJ) as Hpow.
  split.
  - now apply constant_levels_of_modwt.
  - intros Hmod. unfold dwt_arma. rewrite boundary_periodic. cbn [bind].
    rewrite double_to_uint_ok by lia. cbn [bind]. rewrite Hlen, Hmod.
    cbn [Z.eqb negb].
    destruct (2 ^ J >? Z.of_nat n) eqn:Hgt;
      [rewrite Z.gtb_ltb in Hgt; apply Z.ltb_lt in Hgt; lia|].
    rewrite select_filter_haar. cbn [bind wf_L wf_h wf_g]. unfold haar_g.
    rewrite dwt_levels_value; [| lia | lia |].
    + f_equal. apply dwt_pyramid_constant.
      unfold negated, decimal. cbn [ddiv dmul of_Z R_Double]. ring.
    + now rewrite Z.sub_diag, Z.pow_0_r, Z.div_1_r.
Qed.

(** X7 at the signal (5, 5, 5, 5) with two levels. *)
Lemma constant_signal_has_zero_wavelet_coefficients_witness :
  modwt_arma (repeat 5%R 4) "haar" 2 "periodic" = Ok (repeat (repeat 0%R 4) (Z.to_nat 2))
  /\ (Z.of_nat 4 mod 2 ^ 2 = 0 ->
      dwt_arma (repeat 5%R 4) "haar" 2 "periodic"
      = Ok (map (fun j => repeat 0%R (4 / 2 ^ (j + 1))) (seq 0 (Z.to_nat 2)))).
Proof.
  apply (constant_signal_has_zero_wavelet_coefficients 5%R 4 2); [lia|].
  split; [vm_compute; discriminate | reflexivity].
Defined.

Lemma skipn_repeat {A : Type} (a : A) (n k : nat) :
  skipn k (repeat a n) = repeat a (n - k).
Proof.
  revert n. induction k as [|k IH]; intros n.
  - now rewrite Nat.sub_0_r.
  - destruct n as [|n]; [reflexivity|]. cbn [repeat skipn]. rewrite IH. reflexivity.
Qed.

Lemma variance_row_of_zeros {Rm : RMath R} (p : R) (i m : nat) :
  variance_row p i (repeat 0%R m) = (0%R, 0%R, 0%R).
Proof.
  unfold variance_row, eta3_row.
  assert (Hdot : dot (repeat 0%R m) (repeat 0%R m) = 0%R).
  { rewrite dot_sum_of_squares.
    exact (Rsum_squares_padded [] m). }
  rewrite Hdot. cbn [ddiv dmul R_Double]. unfold Rdiv.
  repeat f_equal; ring.
Qed.

(** X8.  In real arithmetic, for a constant signal of [N] samples the
    pipeline of the analysis ([modwt_arma] with [floor(log2(N))] levels and
    the periodic boundary, [brick_wall] with the Haar filter, [wave_variance])
    gives the variance 0 with both bounds 0 at every level. *)
Theorem constant_signal_has_zero_wavelet_variance {Rm : RMath R} (a p : R) (n : nat) :
  1 <= Z.of_nat n < 2 ^ 31 ->
  exists W T,
    modwt_arma (repeat a n) "haar" (Z.log2 (Z.of_nat n)) "periodic" = Ok W
    /\ (wf <- select_filter "haar" ;; brick_wall W wf "modwt") = Ok T
    /\ wave_variance T "eta3" p
       = Ok (repeat (0%R, 0%R, 0%R) (Z.to_nat (Z.log2 (Z.of_nat n)))).
Proof.
  intros Hn. destruct (log2_level_count _ Hn) as (Hlog & Hpow).
  set (J := Z.log2 (Z.of_nat n)) in *.
  pose proof (constant_levels_of_modwt a n J ltac:(lia) ltac:(lia)) as HW.
  set (count := fun j : nat => (2 ^ (Z.of_nat j + 1) - 1) * (2 - 1)).
  assert (HT : forall wf : wave_filter (D := R), wf_L wf = 2 ->
               brick_wall (repeat (repeat 0%R n) (Z.to_nat J)) wf "modwt"
               = Ok (map (fun j => repeat 0%R (n - Z.to_nat (count j)))
                         (seq 0 (Z.to_nat J)))).
  { intros wf HL.
    rewrite (brick_wall_trims _ wf "modwt" count).
    - rewrite repeat_length. f_equal. apply map_ext_in. intros j Hj. apply in_seq in Hj.
      rewrite nth_repeat_lt by lia. apply skipn_repeat.
    - intros j temp Htemp. rewrite HL.
      assert (Hj : (j < Z.to_nat J)%nat).
      { rewrite <- (repeat_length (repeat 0%R n) (Z.to_nat J)).
        apply nth_error_Some. congruence. }
      apply nth_error_In, repeat_spec in Htemp. subst temp.
      destruct (modwt_trim_below_length (Z.of_nat n) j Hn ltac:(fold J; lia))
        as (Hcount & Hlt).
      split; [exact Hcount|]. unfold n_elem. rewrite repeat_length. unfold count. lia. }
  exists (repeat (repeat 0%R n) (Z.to_nat J)).
  eexists. split; [exact HW|].
  split; [rewrite select_filter_haar; cbn [bind]; now apply HT|].
  rewrite wave_variance_closed_form, length_map, length_seq.
  f_equal. apply map_seq_const. intros i Hi.
  rewrite nth_map_seq by assumption. apply variance_row_of_zeros.
Qed.

(** X8 at the signal of eight samples 5, with the quantile function
    [fun _ df => df]. *)
Lemma constant_signal_has_zero_wavelet_variance_witness :
  exists W T,
    modwt_arma (repeat 5%R 8) "haar" (Z.log2 (Z.of_nat 8)) "periodic" = Ok W
    /\ (wf <- select_filter "haar" ;; brick_wall W wf "modwt") = Ok T
    /\ wave_variance (Rm := R_RMath (fun _ df => df) (fun q => q)) T "eta3" (25 / 1000)%R
       = Ok (repeat (0%R, 0%R, 0%R) (Z.to_nat (Z.log2 (Z.of_nat 8)))).
Proof.
  apply (constant_signal_has_zero_wavelet_variance
           (Rm := R_RMath (fun _ df => df) (fun q => q)) 5%R (25 / 1000)%R 8).
  split; [vm_compute; discriminate | reflexivity].
Defined.

(** ** The order of the failures of the transforms *)


Lemma select_filter_unsupported {D : Type} {Dbl : Double D} (filter_name : string) :
  filter_name <> "haar"%string -> select_filter (D := D) filter_name = Err UnsupportedFilter.
Proof.
  intros Hf. unfold select_filter. apply String.eqb_neq in Hf. now rewrite Hf.
Qed.


(** ** The modes and the failures of the analysis *)

(** The steps of [wavelet_variance_arma] up to the choice of the mode, given
    the decomposition [HW] and its trimming [HT]. *)
Ltac analysis_prefix HW HT :=
  unfold wavelet_variance_arma;
  match goal with
  | |- context [n_elem ?s =? 0] =>
      let Hz := fresh "Hz" in
      destruct (n_elem s =? 0) eqn:Hz; [apply Z.eqb_eq in Hz; lia|]
  end;
  rewrite double_to_uint_ok by lia; cbn [bind];
  rewrite HW; cbn [bind];
  rewrite select_filter_haar; cbn [bind];
  rewrite HT by reflexivity; cbn [bind];
  rewrite wave_variance_closed_form; cbn [bind].

Section AnalysisModes.

Context {D : Type} {Dbl : Double D} {Rm : RMath D} {Ft : Fourier D} {Nan : NaN D}.

Lemma analysis_trim (signal : list D) (W : list (list D)) :
  1 <= n_elem signal < 2 ^ 31 ->
  n_elem W = Z.log2 (n_elem signal) ->
  (forall k w, nth_error W k = Some w -> n_elem w = n_elem signal) ->
  forall wf : wave_filter (D := D), wf_L wf = 2 ->
    brick_wall W wf "modwt"
    = Ok (map (fun j => skipn (Z.to_nat ((2 ^ (Z.of_nat j + 1) - 1) * (2 - 1))) (nth j W []))
              (seq 0 (length W))).
Proof.
  intros HN HlenW Hlevels wf HL.
  apply (brick_wall_trims W wf "modwt" (fun j => (2 ^ (Z.of_nat j + 1) - 1) * (2 - 1))).
  intros j temp Htemp. rewrite HL.
  assert (Hj : (j < length W)%nat) by (apply nth_error_Some; congruence).
  assert (Hjlt : Z.of_nat j < Z.log2 (n_elem signal))
    by (rewrite <- HlenW; unfold n_elem; lia).
  destruct (modwt_trim_below_length (n_elem signal) j HN Hjlt) as (Hcount & Hlt).
  rewrite (Hlevels j temp Htemp). split; [exact Hcount | lia].
Qed.

Lemma diagvec_identity (n : nat) :
  diagvec (map (fun i => map (fun j => if Nat.eqb i j then of_Z 1 else of_Z 0) (seq 0 n))
               (seq 0 n))
  = repeat (of_Z 1) n.
Proof.
  unfold diagvec. rewrite length_map, length_seq.
  apply map_seq_const. intros i Hi.
  rewrite (nth_map_seq _ n i []) by assumption.
  rewrite nth_map_seq by assumption. now rewrite Nat.eqb_refl.
Qed.

Lemma gauss_bound_constant (op : D -> D -> D) (a : list D) (c b : D) (n : nat) :
  length a = n ->
  gauss_bound op a c (repeat b n)
  = Ok (map (fun v => op v (dmul c (dsqrt b))) a).
Proof.
  intros <-. unfold gauss_bound, n_elem. rewrite repeat_length, Z.eqb_refl. f_equal.
  induction a as [|v a IH]; [reflexivity|].
  cbn [length repeat combine map fst snd]. now rewrite IH.
Qed.

(** X10.  For a signal of [1 <= N < 2^31] samples, the mode "full" returns
    what the mode "no" returns, identity matrix [V] included, except for the
    Gaussian bounds, which are the variances plus and minus
    [qnorm(1 - 0.025) * sqrt(1)]: no covariance is computed in this mode. *)
Theorem full_mode_keeps_identity_covariance (signal : list D) :
  1 <= n_elem signal < 2 ^ 31 ->
  exists r0 r,
    wavelet_variance_arma signal "haar" "no" = Ok r0
    /\ wavelet_variance_arma signal "haar" "full" = Ok r
    /\ variance r = variance r0 /\ low r = low r0 /\ high r = high r0
    /\ scales r = scales r0 /\ V r = V r0
    /\ up_gauss r
       = map (fun v => dadd v (dmul (qnorm (dsub (of_Z 1) (decimal 25 1000)))
                                    (dsqrt (of_Z 1))))
             (variance r)
    /\ dw_gauss r
       = map (fun v => dsub v (dmul (qnorm (dsub (of_Z 1) (decimal 25 1000)))
                                    (dsqrt (of_Z 1))))
             (variance r).
Proof.
  intros HN. destruct (log2_level_count _ HN) as (Hlog & Hpow).
  destruct (modwt_arma_ok signal signal "periodic" (Z.log2 (n_elem signal))
              (boundary_periodic signal) ltac:(lia) ltac:(lia) Hpow)
    as (W & HW & HlenW & Hlevels).
  pose proof (analysis_trim signal W HN HlenW Hlevels) as HT.
  assert (HJ : Z.to_nat (Z.log2 (n_elem signal)) = length W)
    by (rewrite <- HlenW; unfold n_elem; lia).
  eexists. eexists.
  split; [analysis_prefix HW HT; cbn [String.eqb Ascii.eqb Bool.eqb orb]; reflexivity|].
  split.
  - analysis_prefix HW HT. cbn [String.eqb Ascii.eqb Bool.eqb orb bind].
    rewrite !diagmat_repeat, diagvec_identity.
    rewrite !gauss_bound_constant
      by (repeat first [rewrite length_map | rewrite length_seq]; symmetry; exact HJ).
    cbn [bind]. reflexivity.
  - cbn [variance low high scales V up_gauss dw_gauss].
    repeat split;
      first [reflexivity | apply diagmat_repeat | symmetry; apply diagmat_repeat].
Qed.

Lemma modwt_arma_unsupported_filter (signal : list D) (filter_name : string) (J : Z) :
  filter_name <> "haar"%string -> 0 <= J < 32 -> 2 ^ J <= n_elem signal ->
  modwt_arma signal filter_name J "periodic" = Err UnsupportedFilter.
Proof.
  intros Hf HJ Hle. pose proof (pow2_lt_uint J HJ) as Hpow.
  unfold modwt_arma. rewrite boundary_periodic. cbn [bind].
  rewrite double_to_uint_ok by lia. cbn [bind].
  destruct (2 ^ J >? n_elem signal) eqn:Hgt;
    [rewrite Z.gtb_ltb in Hgt; apply Z.ltb_lt in Hgt; lia|].
  now rewrite (select_filter_unsupported filter_name Hf).
Qed.

(** X11.  [wavelet_variance_arma] fails with the unsupported-filter error for
    every filter name other than "haar" (signal of [1 <= N < 2^31] samples,
    any mode); and for a signal of a single sample, which has no level, the
    mode "diag" fails on [signal_modwt(0)] whereas the mode "no" returns
    empty vectors. *)
Theorem analysis_failures (signal : list D) (strWavelet compute_v : string) (a : D) :
  (1 <= n_elem signal < 2 ^ 31 -> strWavelet <> "haar"%string ->
   wavelet_variance_arma signal strWavelet compute_v = Err UnsupportedFilter)
  /\ wavelet_variance_arma [a] "haar" "diag" = Err IndexOutOfBounds
  /\ wavelet_variance_arma [a] "haar" "no"
     = Ok {| variance := []; low := []; high := []; scales := []; V := [];
             up_gauss := []; dw_gauss := [] |}.
Proof.
  split; [|split].
  - intros HN Hf. destruct (log2_level_count _ HN) as (Hlog & Hpow).
    unfold wavelet_variance_arma.
    destruct (n_elem signal =? 0) eqn:Hz; [apply Z.eqb_eq in Hz; lia|].
    rewrite double_to_uint_ok by lia. cbn [bind].
    now rewrite modwt_arma_unsupported_filter by (assumption || lia).
  - unfold wavelet_variance_arma, modwt_arma.
    cbn [n_elem length Z.of_nat Z.eqb Z.log2 double_to_uint Z.leb Z.ltb Z.compare
         andb bind boundary_extend String.eqb Ascii.eqb Bool.eqb Z.pow Z.gtb Pos.compare
         Pos.compare_cont Z.to_nat].
    rewrite select_filter_haar. reflexivity.
  - unfold wavelet_variance_arma, modwt_arma.
    cbn [n_elem length Z.of_nat Z.eqb Z.log2 double_to_uint Z.leb Z.ltb Z.compare
         andb bind boundary_extend String.eqb Ascii.eqb Bool.eqb Z.pow Z.gtb Pos.compare
         Pos.compare_cont Z.to_nat].
    rewrite select_filter_haar. reflexivity.
Qed.

End AnalysisModes.


(** X10 and X11 at the signal (1, ..., 8); the library functions are
    arbitrary there. *)
Lemma full_mode_keeps_identity_covariance_witness :
  exists r,
    wavelet_variance_arma
      (D := float)
      (Rm := {| qchisq := fun _ df => df; qnorm := fun q => q |})
      (Ft := {| fft := fun x => map (fun a => (a, 0%float)) x; ifft := fun X => X |})
      [1; 2; 3; 4; 5; 6; 7; 8]%float "haar" "full" = Ok r
    /\ V r = [[1; 0; 0]; [0; 1; 0]; [0; 0; 1]]%float.
Proof.
  destruct (full_mode_keeps_identity_covariance
              (D := float)
              (Rm := {| qchisq := fun _ df => df; qnorm := fun q => q |})
              (Ft := {| fft := fun x => map (fun a => (a, 0%float)) x; ifft := fun X => X |})
              [1; 2; 3; 4; 5; 6; 7; 8]%float ltac:(unfold n_elem; simpl; lia))
    as (r0 & r & Hno & Hfull & _ & _ & _ & _ & HV & _).
  exists r. split; [exact Hfull|].
  rewrite HV.
  assert (Hr0 : Ok r0 = wavelet_variance_arma
                          (D := float)
                          (Rm := {| qchisq := fun _ df => df; qnorm := fun q => q |})
                          (Ft := {| fft := fun x => map (fun a => (a, 0%float)) x;
                                    ifft := fun X => X |})
                          [1; 2; 3; 4; 5; 6; 7; 8]%float "haar" "no")
    by (symmetry; exact Hno).
  vm_compute in Hr0.
  apply (f_equal (fun o => match o with Ok r => V r | Err _ => [] end)) in Hr0.
  exact Hr0.
Defined.

Lemma analysis_failures_witness :
  wavelet_variance_arma
    (D := float)
    (Rm := {| qchisq := fun _ df => df; qnorm := fun q => q |})
    (Ft := {| fft := fun x => map (fun a => (a, 0%float)) x; ifft := fun X => X |})
    [1; 2; 3; 4; 5; 6; 7; 8]%float "d4" "no" = Err UnsupportedFilter.
Proof.
  apply (proj1 (analysis_failures
                  (D := float)
                  (Rm := {| qchisq := fun _ df => df; qnorm := fun q => q |})
                  (Ft := {| fft := fun x => map (fun a => (a, 0%float)) x;
                            ifft := fun X => X |})
                  [1; 2; 3; 4; 5; 6; 7; 8]%float "d4" "no" 0%float)).
  - unfold n_elem. simpl. lia.
  - discriminate.
Defined.

(** ** The two forms of the quadrature mirror filter *)

Lemma qmf_twice_nth (g : list R) (inverse : bool) (i : nat) (x : R) :
  Nat.even (length g) = true -> nth_error g i = Some x ->
  nth_error (mapi_from 0 (qmf_sign (negb inverse))
               (rev (mapi_from 0 (qmf_sign inverse) (rev g)))) i
  = Some x.
Proof.
  intros Heven Hx.
  assert (Hi : (i < length g)%nat) by (apply nth_error_Some; congruence).
  assert (Hinner : nth_error (mapi_from 0 (qmf_sign inverse) (rev g)) (length g - Datatypes.S i)
                   = Some (qmf_sign inverse (length g - Datatypes.S i) x)).
  { apply (mapi_from_nth _ _ 0). rewrite nth_error_rev.
    destruct (Nat.ltb_spec (length g - Datatypes.S i) (length g)); [|lia].
    rewrite <- Hx. f_equal. lia. }
  assert (Houter : nth_error (rev (mapi_from 0 (qmf_sign inverse) (rev g))) i
                   = Some (qmf_sign inverse (length g - Datatypes.S i) x)).
  { rewrite nth_error_rev, mapi_from_length, length_rev.
    destruct (Nat.ltb_spec i (length g)); [exact Hinner | lia]. }
  rewrite (mapi_from_nth _ _ 0 i _ Houter). cbn [Nat.add]. f_equal.
  unfold qmf_sign, negated.
  assert (Hodd : Nat.odd (length g) = false)
    by (rewrite <- Nat.negb_even, Heven; reflexivity).
  rewrite Nat.odd_sub, Hodd by lia. cbn [xorb].
  rewrite Nat.odd_succ, <- Nat.negb_odd.
  cbn [dmul of_Z R_Double].
  destruct (Nat.odd i), inverse; cbn [negb Bool.eqb]; ring.
Qed.

(** X12.  In real arithmetic, for a sequence of even length the forward form
    of [qmf] undoes the inverse form and the inverse form undoes the forward
    form. *)
Theorem qmf_forms_are_mutually_inverse (g : list R) :
  Nat.even (length g) = true ->
  (h <- qmf g true ;; qmf h false) = Ok g
  /\ (h <- qmf g false ;; qmf h true) = Ok g.
Proof.
  intros Heven.
  assert (Hround : forall inverse,
             mapi_from 0 (qmf_sign (negb inverse))
               (rev (mapi_from 0 (qmf_sign inverse) (rev g))) = g).
  { intros inverse. apply nth_error_ext. intros i.
    destruct (nth_error g i) as [x|] eqn:Hx.
    - now apply qmf_twice_nth.
    - apply nth_error_None. apply nth_error_None in Hx.
      now rewrite mapi_from_length, length_rev, mapi_from_length, length_rev. }
  split.
  - rewrite qmf_closed_form. cbn [bind]. rewrite qmf_closed_form.
    f_equal. exact (Hround true).
  - rewrite qmf_closed_form. cbn [bind]. rewrite qmf_closed_form.
    f_equal. exact (Hround false).
Qed.

(** X12 at the sequence (3, 4). *)
Lemma qmf_forms_are_mutually_inverse_witness :
  (h <- qmf [3%R; 4%R] true ;; qmf h false) = Ok [3%R; 4%R]
  /\ (h <- qmf [3%R; 4%R] false ;; qmf h true) = Ok [3%R; 4%R].
Proof.
  apply (qmf_forms_are_mutually_inverse [3%R; 4%R]). reflexivity.
Defined.

(** ** The process generators *)

Lemma draws_length {G D : Type} (count : nat) (draw : G -> D * G) (g : G) :
  length (fst (draws count draw g)) = count.
Proof.
  revert g. induction count as [|c IH]; intros g; [reflexivity|].
  cbn [draws]. destruct (draw g) as [a g1]. specialize (IH g1).
  destruct (draws c draw g1) as [rest g2]. cbn [fst length] in *. now rewrite IH.
Qed.

Lemma vget_app_mid {A : Type} (pre : list A) (a : A) (post : list A) :
  vget (pre ++ a :: post) (Z.of_nat (length pre)) = Ok a.
Proof.
  apply vget_nth. rewrite nth_error_app2, Nat.sub_diag by lia. reflexivity.
Qed.

Lemma vset_app_mid {A : Type} (pre : list A) (a b : A) (post : list A) :
  vset (pre ++ a :: post) (Z.of_nat (length pre)) b = Ok (pre ++ b :: post).
Proof.
  unfold vset, n_elem. rewrite length_app. cbn [length].
  replace ((0 <=? Z.of_nat (length pre))
           && (Z.of_nat (length pre) <? Z.of_nat (length pre + Datatypes.S (length post))))
    with true
    by (symmetry; apply andb_true_iff; split; [apply Z.leb_le | apply Z.ltb_lt]; lia).
  now rewrite Nat2Z.id, set_nth_app.
Qed.

Section GeneratorLoops.

Context {D : Type} {Dbl : Double D}.

Lemma recur_length (next : D -> D -> D -> D) (ws : list D) (prev w0 : D) :
  length (recur next prev w0 ws) = length ws.
Proof.
  revert prev w0. induction ws as [|w ws IH]; intros prev w0; [reflexivity|].
  cbn [recur length]. now rewrite IH.
Qed.

Lemma recur_ar1 (phi : D) (ws : list D) (prev w0 : D) :
  recur (fun a _ w => dadd (dmul phi a) w) prev w0 ws = ar1_from phi prev ws.
Proof.
  revert prev w0. induction ws as [|w ws IH]; intros prev w0; [reflexivity|].
  cbn [recur ar1_from]. now rewrite IH.
Qed.

Lemma recur_ma1 (theta : D) (ws : list D) (prev w0 : D) :
  recur (fun _ w0 w => dadd (dmul theta w0) w) prev w0 ws = ma1_from theta w0 ws.
Proof.
  revert prev w0. induction ws as [|w ws IH]; intros prev w0; [reflexivity|].
  cbn [recur ma1_from]. now rewrite IH.
Qed.

Lemma recur_arma11 (phi theta : D) (ws : list D) (prev w0 : D) :
  recur (fun a w0 w => dadd (dadd (dmul phi a) (dmul theta w0)) w) prev w0 ws
  = arma11_from phi theta prev w0 ws.
Proof.
  revert prev w0. induction ws as [|w ws IH]; intros prev w0; [reflexivity|].
  cbn [recur arma11_from]. now rewrite IH.
Qed.

(** A loop over [i = k + 1, k + 2, ...] whose body writes
    [next(v(i-1), wn(i-1), wn(i))] at index [i] of [v]. *)
Lemma recurrence_loop (body : Z -> list D -> result (list D))
    (next : D -> D -> D -> D) (wn : list D) :
  (forall (pre : list D) (prev z : D) (post : list D) (w0 w : D),
      nth_error wn (length pre) = Some w0 ->
      nth_error wn (Datatypes.S (length pre)) = Some w ->
      body (Z.of_nat (length pre) + 1) (pre ++ prev :: z :: post)
      = Ok (pre ++ prev :: next prev w0 w :: post)) ->
  forall (ws wn_pre pre : list D) (prev w0 : D),
    wn = wn_pre ++ w0 :: ws -> length wn_pre = length pre ->
    for_loop (length ws) (Z.of_nat (length pre) + 1) body
      (pre ++ prev :: repeat (of_Z 0) (length ws))
    = Ok (pre ++ prev :: recur next prev w0 ws).
Proof.
  intros Hbody. induction ws as [|w ws IH]; intros wn_pre pre prev w0 Hwn Hlen;
    [reflexivity|].
  cbn [length for_loop repeat recur].
  rewrite (Hbody pre prev (of_Z 0) (repeat (of_Z 0) (length ws)) w0 w).
  - cbn [bind].
    specialize (IH (wn_pre ++ [w0]) (pre ++ [prev]) (next prev w0 w) w).
    rewrite !length_app in IH. cbn [length] in IH.
    rewrite <- !app_assoc in IH. cbn [app] in IH.
    replace (Z.of_nat (length pre + 1) + 1) with (Z.of_nat (length pre) + 1 + 1) in IH by lia.
    apply IH; [exact Hwn | lia].
  - rewrite Hwn, <- Hlen, nth_error_app2, Nat.sub_diag by lia. reflexivity.
  - rewrite Hwn, <- Hlen, nth_error_app2 by lia.
    replace (Datatypes.S (length wn_pre) - length wn_pre)%nat with 1%nat by lia.
    reflexivity.
Qed.

(** The shape of the three generators of order one: [N + 1] values [wn], a
    vector of [N + 1] zeros, the loop above, and the rows [1 .. N]. *)
Lemma order_one_generator (body : Z -> list D -> result (list D))
    (next : D -> D -> D -> D) (wn : list D) (N : Z) :
  (forall (pre : list D) (prev z : D) (post : list D) (w0 w : D),
      nth_error wn (length pre) = Some w0 ->
      nth_error wn (Datatypes.S (length pre)) = Some w ->
      body (Z.of_nat (length pre) + 1) (pre ++ prev :: z :: post)
      = Ok (pre ++ prev :: next prev w0 w :: post)) ->
  1 <= N -> n_elem wn = N + 1 ->
  (gm <- for_range 1 (N + 1) body (repeat (of_Z 0) (Z.to_nat (N + 1))) ;; rows gm 1 N)
  = Ok (recur next (of_Z 0) (hd (of_Z 0) wn) (tl wn)).
Proof.
  intros Hbody HN Hwn.
  destruct wn as [|w0 ws]; [unfold n_elem in Hwn; simpl in Hwn; lia|].
  cbn [hd tl].
  assert (Hws : length ws = Z.to_nat N) by (unfold n_elem in Hwn; simpl in Hwn; lia).
  unfold for_range.
  replace (Z.to_nat (N + 1 - 1)) with (length ws) by lia.
  replace (Z.to_nat (N + 1)) with (Datatypes.S (length ws)) by lia.
  cbn [repeat].
  pose proof (recurrence_loop body next (w0 :: ws) Hbody ws [] [] (of_Z 0) w0
                eq_refl eq_refl) as Hloop.
  cbn [length Z.of_nat app Z.add] in Hloop. rewrite Hloop.
  cbn [bind]. unfold rows.
  assert (Hlen : n_elem (of_Z 0 :: recur next (of_Z 0) w0 ws) = N + 1).
  { unfold n_elem. cbn [length]. rewrite recur_length. lia. }
  rewrite Hlen.
  destruct (1 >? N) eqn:H1; [rewrite Z.gtb_ltb in H1; apply Z.ltb_lt in H1; lia|].
  destruct (N >=? N + 1) eqn:H2; [rewrite Z.geb_leb in H2; apply Z.leb_le in H2; lia|].
  cbn [orb]. f_equal. change (Z.to_nat 1) with 1%nat. cbn [skipn].
  apply firstn_all2. rewrite recur_length. lia.
Qed.

End GeneratorLoops.

Lemma bind_assoc {A B C : Type} (m : result A) (f : A -> result B) (k : B -> result C) :
  bind (bind m f) k = bind m (fun a => bind (f a) k).
Proof. destruct m; reflexivity. Qed.

(** One iteration of a loop of an order-one generator, at index
    [length pre + 1] of a vector [pre ++ prev :: z :: post]. *)
Ltac order_one_step :=
  let pre := fresh "pre" in
  let prev := fresh "prev" in
  let z := fresh "z" in
  let post := fresh "post" in
  let w0 := fresh "w0" in
  let w := fresh "w" in
  let Hw0 := fresh "Hw0" in
  let Hw := fresh "Hw" in
  intros pre prev z post w0 w Hw0 Hw;
  replace (Z.of_nat (length pre) + 1 - 1) with (Z.of_nat (length pre)) by lia;
  replace (Z.of_nat (length pre) + 1) with (Z.of_nat (Datatypes.S (length pre))) by lia;
  rewrite ?vget_app_mid, ?(vget_nth _ _ _ Hw0), ?(vget_nth _ _ _ Hw);
  cbn [bind];
  replace (pre ++ prev :: z :: post) with ((pre ++ [prev]) ++ z :: post)
    by (now rewrite <- app_assoc);
  replace (Datatypes.S (length pre)) with (length (pre ++ [prev]))
    by (rewrite length_app; cbn [length]; lia);
  rewrite vset_app_mid, <- app_assoc; reflexivity.

Section OrderOneGenerators.

Context {G D : Type} {Dbl : Double D} {Rs : RandomSource G D}.

Lemma gen_wn_length (N : Z) (sigma2 : D) (g : G) :
  length (fst (GenProcess.gen_wn N sigma2 g)) = Z.to_nat N.
Proof. unfold GenProcess.gen_wn. apply draws_length. Qed.

Lemma gen_ar1_value (N : Z) (phi sigma2 : D) (g : G) :
  1 <= N < 2 ^ 32 - 1 ->
  GenProcess.gen_ar1 N phi sigma2 g
  = Ok (ar1_from phi (of_Z 0) (tl (fst (GenProcess.gen_wn (N + 1) sigma2 g))),
        snd (GenProcess.gen_wn (N + 1) sigma2 g)).
Proof.
  intros HN. unfold GenProcess.gen_ar1. rewrite uint_small by lia.
  pose proof (gen_wn_length (N + 1) sigma2 g) as Hlen.
  destruct (GenProcess.gen_wn (N + 1) sigma2 g) as [wn g']. cbn [fst snd] in *.
  rewrite <- bind_assoc.
  rewrite (order_one_generator _ (fun a _ w => dadd (dmul phi a) w) wn N);
    [| order_one_step | lia | unfold n_elem; lia].
  cbn [bind]. now rewrite recur_ar1.
Qed.

Lemma gen_ma1_value (N : Z) (theta sigma2 : D) (g : G) :
  1 <= N < 2 ^ 32 - 1 ->
  GenProcess.gen_ma1 N theta sigma2 g
  = Ok (ma1_from theta (hd (of_Z 0) (fst (GenProcess.gen_wn (N + 1) sigma2 g)))
          (tl (fst (GenProcess.gen_wn (N + 1) sigma2 g))),
        snd (GenProcess.gen_wn (N + 1) sigma2 g)).
Proof.
  intros HN. unfold GenProcess.gen_ma1. rewrite uint_small by lia.
  pose proof (gen_wn_length (N + 1) sigma2 g) as Hlen.
  destruct (GenProcess.gen_wn (N + 1) sigma2 g) as [wn g']. cbn [fst snd] in *.
  rewrite <- bind_assoc.
  rewrite (order_one_generator _ (fun _ w0 w => dadd (dmul theta w0) w) wn N);
    [| order_one_step | lia | unfold n_elem; lia].
  cbn [bind]. now rewrite recur_ma1.
Qed.

Lemma gen_arma11_value (N : Z) (phi theta sigma2 : D) (g : G) :
  1 <= N < 2 ^ 32 - 1 ->
  GenProcess.gen_arma11 N phi theta sigma2 g
  = Ok (arma11_from phi theta (of_Z 0)
          (hd (of_Z 0) (fst (GenProcess.gen_wn (N + 1) sigma2 g)))
          (tl (fst (GenProcess.gen_wn (N + 1) sigma2 g))),
        snd (GenProcess.gen_wn (N + 1) sigma2 g)).
Proof.
  intros HN. unfold GenProcess.gen_arma11. rewrite uint_small by lia.
  pose proof (gen_wn_length (N + 1) sigma2 g) as Hlen.
  destruct (GenProcess.gen_wn (N + 1) sigma2 g) as [wn g']. cbn [fst snd] in *.
  rewrite <- bind_assoc.
  rewrite (order_one_generator _
             (fun a w0 w => dadd (dadd (dmul phi a) (dmul theta w0)) w) wn N);
    [| order_one_step | lia | unfold n_elem; lia].
  cbn [bind]. now rewrite recur_arma11.
Qed.

Lemma order_one_generators_at_zero (phi theta sigma2 : D) (g : G) :
  GenProcess.gen_ar1 0 phi sigma2 g = Err IndexOutOfBounds
  /\ GenProcess.gen_ma1 0 theta sigma2 g = Err IndexOutOfBounds
  /\ GenProcess.gen_arma11 0 phi theta sigma2 g = Err IndexOutOfBounds.
Proof.
  unfold GenProcess.gen_ar1, GenProcess.gen_ma1, GenProcess.gen_arma11, GenProcess.gen_wn.
  change (uint (0 + 1)) with 1. change (Z.to_nat 1) with 1%nat. cbn [draws].
  destruct (rnorm (of_Z 0) (dsqrt sigma2) g) as [a g1].
  repeat split; reflexivity.
Qed.

End OrderOneGenerators.

Section OrderOneValues.

Context {G D : Type} {Dbl : Double D} {Rs : RandomSource G D}.

Lemma ar1_from_length (phi prev : D) (ws : list D) :
  length (ar1_from phi prev ws) = length ws.
Proof. rewrite <- (recur_ar1 phi ws prev prev). apply recur_length. Qed.

Lemma ma1_from_length (theta w0 : D) (ws : list D) :
  length (ma1_from theta w0 ws) = length ws.
Proof. rewrite <- (recur_ma1 theta ws w0 w0). apply recur_length. Qed.

Lemma arma11_from_length (phi theta prev w0 : D) (ws : list D) :
  length (arma11_from phi theta prev w0 ws) = length ws.
Proof. rewrite <- (recur_arma11 phi theta ws prev w0). apply recur_length. Qed.

(** X13.  gen_process.cpp, [gen_ar1], [gen_ma1] and [gen_arma11]: for a
    length [N] of zero the three generators fail at [rows(1, 0)]; for
    [1 <= N < 2^32 - 1] they draw [N + 1] innovations [w(0), ..., w(N)] and
    return the [N] values [x(1), ..., x(N)] of the recurrence started at
    [x(0) = 0]: [x(t) = phi x(t-1) + w(t)], [x(t) = theta w(t-1) + w(t)] and
    [x(t) = phi x(t-1) + theta w(t-1) + w(t)]. *)
Theorem order_one_generators_closed_form (N : Z) (phi theta sigma2 : D) (g : G) :
  0 <= N < 2 ^ 32 - 1 ->
  let wn := fst (GenProcess.gen_wn (N + 1) sigma2 g) in
  let g' := snd (GenProcess.gen_wn (N + 1) sigma2 g) in
  let x_ar1 := ar1_from phi (of_Z 0) (tl wn) in
  let x_ma1 := ma1_from theta (hd (of_Z 0) wn) (tl wn) in
  let x_arma11 := arma11_from phi theta (of_Z 0) (hd (of_Z 0) wn) (tl wn) in
  n_elem wn = N + 1
  /\ n_elem x_ar1 = N /\ n_elem x_ma1 = N /\ n_elem x_arma11 = N
  /\ GenProcess.gen_ar1 N phi sigma2 g
     = (if N =? 0 then Err IndexOutOfBounds else Ok (x_ar1, g'))
  /\ GenProcess.gen_ma1 N theta sigma2 g
     = (if N =? 0 then Err IndexOutOfBounds else Ok (x_ma1, g'))
  /\ GenProcess.gen_arma11 N phi theta sigma2 g
     = (if N =? 0 then Err IndexOutOfBounds else Ok (x_arma11, g')).
Proof.
  intros HN wn g' x_ar1 x_ma1 x_arma11.
  assert (Hwn : n_elem wn = N + 1).
  { unfold n_elem, wn. rewrite gen_wn_length. lia. }
  assert (Htl : Z.of_nat (length (tl wn)) = N).
  { revert Hwn. unfold n_elem. generalize wn. intros [|w ws] Hl; cbn [tl length] in *; lia. }
  split; [exact Hwn|].
  split; [unfold n_elem, x_ar1; now rewrite ar1_from_length|].
  split; [unfold n_elem, x_ma1; now rewrite ma1_from_length|].
  split; [unfold n_elem, x_arma11; now rewrite arma11_from_length|].
  destruct (N =? 0) eqn:H0.
  - apply Z.eqb_eq in H0. rewrite H0. apply order_one_generators_at_zero.
  - apply Z.eqb_neq in H0.
    split; [apply gen_ar1_value; lia|].
    split; [apply gen_ma1_value; lia | apply gen_arma11_value; lia].
Qed.

End OrderOneValues.

Lemma order_one_generators_closed_form_witness :
  GenProcess.gen_ar1 (Rs := counter_source) 3 0.5%float 4%float 0
  = Ok ([2%float; 5%float; 8.5%float], 4)
  /\ GenProcess.gen_ma1 (Rs := counter_source) 3 0.5%float 4%float 0
     = Ok ([2%float; 5%float; 8%float], 4)
  /\ GenProcess.gen_arma11 (Rs := counter_source) 3 0.5%float 0.5%float 4%float 0
     = Ok ([2%float; 6%float; 11%float], 4).
Proof.
  pose proof (order_one_generators_closed_form (Rs := counter_source)
                3 0.5%float 0.5%float 4%float 0 ltac:(lia)) as H.
  cbv zeta in H. destruct H as (_ & _ & _ & _ & Har & Hma & Harma).
  split; [rewrite Har; vm_compute; reflexivity|].
  split; [rewrite Hma | rewrite Harma]; vm_compute; reflexivity.
Defined.

Section BuildFileGenerators.

Context {G D : Type} {Dbl : Double D} {Rs : RandomSource G D}.

(** The loop of [gen_ar1] of build_file.cpp, which reads and writes entry
    [i - 1] at step [i]: each entry it visits is still zero when read. *)
Lemma gen_ar1_loop (phi : D) (wn : list D) (ws : list D) :
  forall (wn_pre wn_post pre post : list D),
    wn = wn_pre ++ ws ++ wn_post -> length wn_pre = length pre ->
    for_loop (length ws) (Z.of_nat (length pre) + 1)
      (fun i gm =>
         a <- vget gm (i - 1) ;;
         w <- vget wn (i - 1) ;;
         vset gm (i - 1) (dadd (dmul phi a) w))
      (pre ++ repeat (of_Z 0) (length ws) ++ post)
    = Ok (pre ++ map (fun w => dadd (dmul phi (of_Z 0)) w) ws ++ post).
Proof.
  induction ws as [|w ws IH]; intros wn_pre wn_post pre post Hwn Hlen; [reflexivity|].
  cbn [length for_loop repeat map app].
  replace (Z.of_nat (length pre) + 1 - 1) with (Z.of_nat (length pre)) by lia.
  rewrite vget_app_mid. cbn [bind].
  assert (Hw : vget wn (Z.of_nat (length pre)) = Ok w).
  { rewrite Hwn, <- Hlen. cbn [app]. apply vget_app_mid. }
  rewrite Hw. cbn [bind]. rewrite vset_app_mid. cbn [bind].
  specialize (IH (wn_pre ++ [w]) wn_post
                (pre ++ [dadd (dmul phi (of_Z 0)) w]) post).
  rewrite !length_app in IH. cbn [length] in IH.
  rewrite <- !app_assoc in IH. cbn [app] in IH.
  replace (Z.of_nat (length pre + 1) + 1) with (Z.of_nat (length pre) + 1 + 1) in IH by lia.
  apply IH; [exact Hwn | lia].
Qed.

Lemma gen_white_noise_length (N : Z) (sigma : D) (g : G) :
  length (fst (gen_white_noise N sigma g)) = Z.to_nat N.
Proof. unfold gen_white_noise. apply draws_length. Qed.

Lemma gen_ar1_zeroed_tail (N : Z) (phi sig2 : D) (g : G) :
  0 <= N ->
  let wn := fst (gen_white_noise N (dsqrt sig2) g) in
  let g' := snd (gen_white_noise N (dsqrt sig2) g) in
  gen_ar1 N phi sig2 g
  = Ok (if N =? 0 then []
        else map (fun w => dadd (dmul phi (of_Z 0)) w) (removelast wn) ++ [of_Z 0],
        g').
Proof.
  intros HN wn g'. unfold gen_ar1.
  pose proof (gen_white_noise_length N (dsqrt sig2) g) as Hlen.
  fold wn in Hlen. subst g'.
  assert (Hwn : gen_white_noise N (dsqrt sig2) g
                = (wn, snd (gen_white_noise N (dsqrt sig2) g)))
    by (unfold wn; now destruct (gen_white_noise N (dsqrt sig2) g)).
  rewrite Hwn at 1. cbn [snd].
  generalize (snd (gen_white_noise N (dsqrt sig2) g)). intros g'.
  clear Hwn. clearbody wn.
  destruct (N =? 0) eqn:H0.
  - apply Z.eqb_eq in H0. subst N. reflexivity.
  - apply Z.eqb_neq in H0.
    destruct (exists_last (l := wn)) as (ws & w & Hws).
    { intros ->. cbn [length] in Hlen. lia. }
    subst wn. rewrite length_app in Hlen. cbn [length] in Hlen.
    rewrite removelast_last. unfold for_range.
    replace (Z.to_nat (N - 1)) with (length ws) by lia.
    replace (Z.to_nat N) with (length ws + 1)%nat by lia.
    rewrite repeat_app. cbn [repeat].
    pose proof (gen_ar1_loop phi (ws ++ [w]) ws [] [w] [] [of_Z 0] eq_refl eq_refl)
      as Hloop.
    cbn [length Z.of_nat app Z.add] in Hloop. rewrite Hloop. reflexivity.
Qed.

(** X14.  build_file.cpp, [gen_ar1]: the loop runs over [i = 1, ..., N - 1]
    and assigns [gm(i - 1) = phi * gm(i - 1) + wn(i - 1)] on a vector of
    zeros, so that entry [t < N - 1] of the result is [phi * 0 + wn(t)], the
    last entry is zero and the last draw is unused; no entry depends on an
    earlier entry.  A length of zero gives the empty vector. *)
Theorem build_file_gen_ar1_is_not_recursive (N : Z) (phi sig2 : D) (g : G) :
  0 <= N ->
  let wn := fst (gen_white_noise N (dsqrt sig2) g) in
  let g' := snd (gen_white_noise N (dsqrt sig2) g) in
  n_elem wn = N
  /\ gen_ar1 N phi sig2 g
     = Ok (if N =? 0 then []
           else map (fun w => dadd (dmul phi (of_Z 0)) w) (removelast wn) ++ [of_Z 0],
           g').
Proof.
  intros HN wn g'. split.
  - unfold n_elem, wn. rewrite gen_white_noise_length. lia.
  - now apply gen_ar1_zeroed_tail.
Qed.

End BuildFileGenerators.

Lemma build_file_gen_ar1_is_not_recursive_witness :
  gen_ar1 (Rs := counter_source) 4 0.5%float 4%float 1
  = Ok ([2%float; 4%float; 6%float; 0%float], 5).
Proof.
  pose proof (build_file_gen_ar1_is_not_recursive (Rs := counter_source)
                4 0.5%float 4%float 1 ltac:(lia)) as H.
  cbv zeta in H. destruct H as [_ H]. rewrite H. vm_compute. reflexivity.
Defined.

(** ** The generators over the reals *)

Section RealGenerators.

Context {G : Type} {Rs : RandomSource G R}.

Lemma arma11_without_ma (phi prev w0 : R) (ws : list R) :
  arma11_from phi 0%R prev w0 ws = ar1_from phi prev ws.
Proof.
  revert prev w0. induction ws as [|w ws IH]; intros prev w0; [reflexivity|].
  cbn [arma11_from ar1_from]. cbv zeta. rewrite IH.
  cbn [dadd dmul R_Double].
  replace (phi * prev + 0 * w0 + w)%R with (phi * prev + w)%R by lra. reflexivity.
Qed.

Lemma arma11_without_ar (theta prev w0 : R) (ws : list R) :
  arma11_from 0%R theta prev w0 ws = ma1_from theta w0 ws.
Proof.
  revert prev w0. induction ws as [|w ws IH]; intros prev w0; [reflexivity|].
  cbn [arma11_from ma1_from]. cbv zeta. rewrite IH.
  cbn [dadd dmul R_Double].
  replace (0 * prev + theta * w0 + w)%R with (theta * w0 + w)%R by lra. reflexivity.
Qed.

(** X15.  gen_process.cpp: in real arithmetic and from the same state of
    the random generator, [gen_arma11] with [theta = 0] is [gen_ar1], and
    with [phi = 0] it is [gen_ma1]. *)
Theorem arma11_reduces_to_ar1_and_ma1 (N : Z) (phi theta sigma2 : R) (g : G) :
  0 <= N < 2 ^ 32 - 1 ->
  GenProcess.gen_arma11 N phi 0%R sigma2 g = GenProcess.gen_ar1 N phi sigma2 g
  /\ GenProcess.gen_arma11 N 0%R theta sigma2 g = GenProcess.gen_ma1 N theta sigma2 g.
Proof.
  intros HN. destruct (Z.eq_dec N 0) as [->|H0].
  - destruct (order_one_generators_at_zero phi 0%R sigma2 g) as (Har & _ & Harma).
    destruct (order_one_generators_at_zero 0%R theta sigma2 g) as (_ & Hma & Harma').
    now rewrite Har, Hma, Harma, Harma'.
  - rewrite !gen_arma11_value, gen_ar1_value, gen_ma1_value by lia.
    change (of_Z 0) with 0%R.
    now rewrite arma11_without_ma, arma11_without_ar.
Qed.

(** X16.  build_file.cpp, [gen_ar1], in real arithmetic: the result is the
    white noise with its last value replaced by zero, whatever [phi] is. *)
Theorem build_file_gen_ar1_ignores_phi (N : Z) (phi phi' sig2 : R) (g : G) :
  1 <= N ->
  gen_ar1 N phi sig2 g
  = Ok (removelast (fst (gen_white_noise N (R_sqrt.sqrt sig2) g)) ++ [0%R],
        snd (gen_white_noise N (R_sqrt.sqrt sig2) g))
  /\ gen_ar1 N phi sig2 g = gen_ar1 N phi' sig2 g.
Proof.
  intros HN.
  assert (Hval : forall p,
             gen_ar1 N p sig2 g
             = Ok (removelast (fst (gen_white_noise N (R_sqrt.sqrt sig2) g)) ++ [0%R],
                   snd (gen_white_noise N (R_sqrt.sqrt sig2) g))).
  { intros p. rewrite gen_ar1_zeroed_tail by lia.
    destruct (N =? 0) eqn:H0; [apply Z.eqb_eq in H0; lia|].
    change (dsqrt sig2) with (R_sqrt.sqrt sig2). change (of_Z 0) with 0%R.
    do 3 f_equal. rewrite <- map_id. apply map_ext. intros w.
    cbn [dadd dmul R_Double]. lra. }
  split; [apply Hval | now rewrite !Hval].
Qed.

Lemma cumsum_from_constant (acc s : R) (n : nat) :
  cumsum_from acc (repeat s n)
  = map (fun k => (acc + IZR (Z.of_nat k + 1) * s)%R) (seq 0 n).
Proof.
  revert acc. induction n as [|n IH]; intros acc; [reflexivity|].
  cbn [repeat cumsum_from seq map]. cbv zeta. rewrite IH.
  cbn [dadd R_Double]. f_equal.
  - cbn [Z.of_nat Z.add]. lra.
  - rewrite <- seq_shift, map_map. apply map_ext. intros k.
    rewrite Nat2Z.inj_succ, <- Z.add_1_r, (plus_IZR (Z.of_nat k + 1) 1). lra.
Qed.

(** X17.  [gen_drift] of build_file.cpp and [gen_dr] of gen_process.cpp, in
    real arithmetic: [N] entries, entry [t] (from zero) being
    [(t + 1) * slope]; the two functions are the same. *)
Theorem drift_is_linear (N : Z) (slope : R) :
  gen_drift N slope
  = map (fun t => (IZR (Z.of_nat t + 1) * slope)%R) (seq 0 (Z.to_nat N))
  /\ GenProcess.gen_dr N slope = gen_drift N slope.
Proof.
  split; [|reflexivity].
  unfold gen_drift, cumsum. rewrite cumsum_from_constant.
  apply map_ext. intros t. change (of_Z 0) with 0%R. lra.
Qed.

Lemma cumsum_from_length (acc : R) (x : list R) :
  length (cumsum_from acc x) = length x.
Proof.
  revert acc. induction x as [|a x IH]; intros acc; [reflexivity|].
  cbn [cumsum_from length]. cbv zeta. now rewrite IH.
Qed.

Lemma cumsum_from_increment (x : list R) :
  forall (acc : R) (i : nat),
    (Datatypes.S i < length x)%nat ->
    (nth (Datatypes.S i) (cumsum_from acc x) 0 - nth i (cumsum_from acc x) 0)%R
    = nth (Datatypes.S i) x 0%R.
Proof.
  induction x as [|a x IH]; intros acc i Hi; [cbn [length] in Hi; lia|].
  destruct i as [|i].
  - destruct x as [|b x]; [cbn [length] in Hi; lia|].
    cbn [cumsum_from nth]. cbv zeta. cbn [dadd R_Double]. lra.
  - cbn [cumsum_from]. cbv zeta.
    change (nth (Datatypes.S (Datatypes.S i)) (dadd acc a :: cumsum_from (dadd acc a) x) 0%R)
      with (nth (Datatypes.S i) (cumsum_from (dadd acc a) x) 0%R).
    change (nth (Datatypes.S i) (dadd acc a :: cumsum_from (dadd acc a) x) 0%R)
      with (nth i (cumsum_from (dadd acc a) x) 0%R).
    change (nth (Datatypes.S (Datatypes.S i)) (a :: x) 0%R) with (nth (Datatypes.S i) x 0%R).
    apply IH. cbn [length] in Hi. lia.
Qed.

(** X18.  gen_process.cpp, [gen_rw], in real arithmetic: from the same
    state of the random generator the random walk is the running sum of
    the white noise of [gen_wn]: it starts at the first draw and each of
    its increments is the next draw. *)
Theorem random_walk_increments_are_the_noise (N : Z) (sigma2 : R) (g : G) :
  let rw := fst (GenProcess.gen_rw N sigma2 g) in
  let wn := fst (GenProcess.gen_wn N sigma2 g) in
  length rw = Z.to_nat N
  /\ snd (GenProcess.gen_rw N sigma2 g) = snd (GenProcess.gen_wn N sigma2 g)
  /\ nth 0 rw 0%R = nth 0 wn 0%R
  /\ forall i : nat,
       (Datatypes.S i < length wn)%nat ->
       (nth (Datatypes.S i) rw 0 - nth i rw 0)%R = nth (Datatypes.S i) wn 0%R.
Proof.
  intros rw wn. subst rw wn. unfold GenProcess.gen_rw, GenProcess.gen_wn.
  pose proof (draws_length (Z.to_nat N) (rnorm (of_Z 0) (dsqrt sigma2)) g) as Hlen.
  destruct (draws (Z.to_nat N) (rnorm (of_Z 0) (dsqrt sigma2)) g) as [wn g'].
  cbn [fst snd] in *. unfold cumsum.
  split; [now rewrite cumsum_from_length|].
  split; [reflexivity|].
  split.
  - destruct wn as [|a wn]; [reflexivity|].
    cbn [cumsum_from nth]. cbv zeta. cbn [dadd R_Double]. change (of_Z 0) with 0%R. lra.
  - intros i Hi. now apply cumsum_from_increment.
Qed.

End RealGenerators.

Lemma arma11_reduces_to_ar1_and_ma1_witness :
  GenProcess.gen_arma11 (Rs := counter_source) 2 3%R 0%R 1%R 0
  = GenProcess.gen_ar1 (Rs := counter_source) 2 3%R 1%R 0
  /\ GenProcess.gen_arma11 (Rs := counter_source) 2 0%R 5%R 1%R 0
     = GenProcess.gen_ma1 (Rs := counter_source) 2 5%R 1%R 0.
Proof.
  apply (arma11_reduces_to_ar1_and_ma1 (Rs := counter_source) 2 3%R 5%R 1%R 0). lia.
Defined.

Lemma build_file_gen_ar1_ignores_phi_witness :
  gen_ar1 (Rs := counter_source) 3 2%R 1%R 0
  = gen_ar1 (Rs := counter_source) 3 7%R 1%R 0.
Proof.
  apply (build_file_gen_ar1_ignores_phi (Rs := counter_source) 3 2%R 7%R 1%R 0). lia.
Defined.

(** ** The modulus of a complex vector *)

(** X19.  build_file.cpp, [Mod_arma] and [Mod_squared_arma], in real
    arithmetic: both keep the length, their entries are not negative, and
    the square of an entry of [Mod_arma] is the entry of
    [Mod_squared_arma]. *)
Theorem modulus_squared_is_squared_modulus (x : list (R * R)) :
  map (fun m => (m * m)%R) (Mod_arma x) = Mod_squared_arma x
  /\ length (Mod_arma x) = length x
  /\ Forall (fun m => (0 <= m)%R) (Mod_arma x)
  /\ Forall (fun m => (0 <= m)%R) (Mod_squared_arma x).
Proof.
  unfold Mod_arma, Mod_squared_arma.
  assert (Hpos : forall c : R * R, (0 <= fst c * fst c + snd c * snd c)%R).
  { intros [a b]. cbn [fst snd]. nra. }
  split; [|split; [|split]].
  - rewrite map_map. apply map_ext. intros c. cbn [dadd dmul dsqrt R_Double].
    apply sqrt_sqrt, Hpos.
  - apply length_map.
  - apply Forall_map, Forall_forall. intros c _. cbn [dadd dmul dsqrt R_Double].
    apply sqrt_pos.
  - apply Forall_map, Forall_forall. intros c _. cbn [dadd dmul R_Double].
    apply Hpos.
Qed.

(** ** Sums of processes: [gen_arma], [gen_model] and [gen_lts] *)

Ltac outcome_step :=
  first
    [ match goal with
      | |- context [let (_, _) := ?c in _] =>
          lazymatch c with
          | (_, _) => fail
          | _ => destruct c
          end
      end
    | match goal with
      | |- context [obind ?m _] =>
          lazymatch m with
          | obind _ _ => fail
          | (if _ then _ else _) => fail
          | Returns _ => fail
          | Throws _ => fail
          | lift ?r => destruct r
          | _ => destruct m
          end
      end ];
  cbn [obind lift]; cbv beta iota zeta.

Ltac outcome_cases :=
  cbn [obind lift]; cbv beta iota zeta; repeat first [reflexivity | outcome_step].

Section ModelFacts.

Import GenModel.

Context {G D : Type} {Dbl : Double D} {Rs : RandomSource G D}
        {Ts : TimeSeries D} {Lm : Libm D}.

Lemma gen_model_body_process (N : Z) (theta : list D) (desc : list string)
    (objdesc : list (list D)) (i i_theta : Z) (x : list D) (g : G) :
  gen_model_body N theta desc objdesc i (x, i_theta, g)
  = (' (v, i_theta', g') <~ process N theta desc objdesc i i_theta g ;;
     x' <~ lift (vadd x v) ;;
     Returns (x', i_theta', g')).
Proof.
  unfold gen_model_body, process.
  destruct (vget theta i_theta) as [theta_value|e]; [|reflexivity]. cbn [lift obind].
  cbv zeta.
  destruct ((_ =? "AR1")%string || (_ =? "GM")%string); [outcome_cases|].
  destruct (_ =? "WN")%string; [outcome_cases|].
  destruct (_ =? "DR")%string; [outcome_cases|].
  destruct (_ =? "QN")%string; [outcome_cases|].
  destruct (_ =? "RW")%string; [outcome_cases|].
  outcome_cases.
Qed.

Lemma gen_lts_body_process (N : Z) (theta : list D) (desc : list string)
    (objdesc : list (list D)) (num_desc i i_theta : Z) (x : list (list D)) (g : G) :
  gen_lts_body N theta desc objdesc num_desc i (x, i_theta, g)
  = (' (v, i_theta', g') <~ process N theta desc objdesc i i_theta g ;;
     x' <~ lift (store_process x N num_desc i v) ;;
     Returns (x', i_theta', g')).
Proof.
  unfold gen_lts_body, process.
  destruct (vget theta i_theta) as [theta_value|e]; [|reflexivity]. cbn [lift obind].
  cbv zeta.
  destruct ((_ =? "AR1")%string || (_ =? "GM")%string); [outcome_cases|].
  destruct (_ =? "WN")%string; [outcome_cases|].
  destruct (_ =? "DR")%string; [outcome_cases|].
  destruct (_ =? "QN")%string; [outcome_cases|].
  destruct (_ =? "RW")%string; [outcome_cases|].
  outcome_cases.
Qed.

Lemma vplus_length (a b : list D) :
  length a = length b -> length (vplus a b) = length a.
Proof.
  intros H. unfold vplus. rewrite length_map, length_combine. lia.
Qed.

Lemma store_process_ok (comps rest : list (list D)) (r0 x v : list D) (N : Z) :
  n_elem x = N -> n_elem v = N ->
  store_process (comps ++ r0 :: rest ++ [x]) N
    (Z.of_nat (length comps + Datatypes.S (length rest))) (Z.of_nat (length comps)) v
  = Ok (comps ++ v :: rest ++ [vplus x v]).
Proof.
  intros Hx Hv. unfold store_process, set_col.
  destruct (Z.of_nat (length comps) >=? n_elem (comps ++ r0 :: rest ++ [x])) eqn:Hge.
  { rewrite Z.geb_leb in Hge. apply Z.leb_le in Hge. unfold n_elem in Hge.
    rewrite length_app in Hge. cbn [length] in Hge. lia. }
  rewrite Hv, Z.eqb_refl, vset_app_mid. cbn [bind]. unfold add_col.
  assert (Hlast : vget (comps ++ v :: rest ++ [x])
                    (Z.of_nat (length comps + Datatypes.S (length rest))) = Ok x).
  { replace (comps ++ v :: rest ++ [x]) with ((comps ++ v :: rest) ++ [x])
      by (rewrite <- app_assoc; reflexivity).
    replace (length comps + Datatypes.S (length rest))%nat
      with (length (comps ++ v :: rest))
      by (rewrite length_app; reflexivity).
    apply vget_app_mid. }
  rewrite Hlast. cbn [bind]. rewrite vget_app_mid. cbn [bind].
  unfold vadd. rewrite Hx, Hv, Z.eqb_refl. cbn [bind].
  replace (comps ++ v :: rest ++ [x]) with ((comps ++ v :: rest) ++ [x])
    by (rewrite <- app_assoc; reflexivity).
  replace (length comps + Datatypes.S (length rest))%nat
    with (length (comps ++ v :: rest))
    by (rewrite length_app; reflexivity).
  rewrite vset_app_mid, <- app_assoc. reflexivity.
Qed.

Lemma store_process_wrong_size (comps rest : list (list D)) (r0 x v : list D)
    (N num_desc : Z) :
  n_elem v <> N ->
  store_process (comps ++ r0 :: rest ++ [x]) N num_desc (Z.of_nat (length comps)) v
  = Err IncompatibleDimensions.
Proof.
  intros Hv. unfold store_process, set_col.
  destruct (Z.of_nat (length comps) >=? n_elem (comps ++ r0 :: rest ++ [x])) eqn:Hge.
  { rewrite Z.geb_leb in Hge. apply Z.leb_le in Hge. unfold n_elem in Hge.
    rewrite length_app in Hge. cbn [length] in Hge. lia. }
  apply Z.eqb_neq in Hv. rewrite Hv. reflexivity.
Qed.

Lemma gen_model_loop (N : Z) (theta : list D) (desc : list string)
    (objdesc : list (list D)) (count : nat) :
  forall (i i_theta : Z) (x : list D) (g : G),
    n_elem x = N ->
    loop_from count i (gen_model_body N theta desc objdesc) (x, i_theta, g)
    = (' (vs, i_theta', g') <~ processes count N theta desc objdesc i i_theta g ;;
       Returns (fold_left vplus vs x, i_theta', g')).
Proof.
  induction count as [|count IH]; intros i i_theta x g Hx; [reflexivity|].
  cbn [loop_from processes]. rewrite gen_model_body_process.
  destruct (process N theta desc objdesc i i_theta g) as [[[v it'] g']|f];
    [|reflexivity].
  cbn [obind]. cbv beta iota zeta. unfold vadd. rewrite Hx, (Z.eqb_sym N).
  destruct (n_elem v =? N) eqn:Hv; [|reflexivity].
  apply Z.eqb_eq in Hv. cbn [lift obind].
  rewrite IH.
  - destruct (processes count N theta desc objdesc (i + 1) it' g') as [[[vs it''] g'']|f];
      reflexivity.
  - unfold n_elem in *. rewrite vplus_length; lia.
Qed.

Lemma gen_lts_loop (N : Z) (theta : list D) (desc : list string)
    (objdesc : list (list D)) (num_desc : Z) (rest : list (list D)) :
  forall (comps : list (list D)) (i_theta : Z) (x : list D) (g : G),
    n_elem x = N -> num_desc = Z.of_nat (length comps + length rest) ->
    loop_from (length rest) (Z.of_nat (length comps))
      (gen_lts_body N theta desc objdesc num_desc) (comps ++ rest ++ [x], i_theta, g)
    = (' (vs, i_theta', g') <~
         processes (length rest) N theta desc objdesc (Z.of_nat (length comps)) i_theta g ;;
       Returns (comps ++ vs ++ [fold_left vplus vs x], i_theta', g')).
Proof.
  induction rest as [|r0 rest IH]; intros comps i_theta x g Hx Hnd; [reflexivity|].
  cbn [length loop_from processes]. rewrite gen_lts_body_process.
  destruct (process N theta desc objdesc (Z.of_nat (length comps)) i_theta g)
    as [[[v it'] g']|f]; [|reflexivity].
  cbn [obind app]. cbv beta iota zeta.
  destruct (n_elem v =? N) eqn:Hv.
  - apply Z.eqb_eq in Hv. cbn [length] in Hnd.
    pose proof (store_process_ok comps rest r0 x v N Hx Hv) as Hs.
    rewrite <- Hnd in Hs. rewrite Hs. cbn [lift obind].
    specialize (IH (comps ++ [v]) it' (vplus x v) g').
    rewrite length_app in IH. cbn [length] in IH.
    rewrite <- !app_assoc in IH. cbn [app] in IH.
    replace (Z.of_nat (length comps + 1)) with (Z.of_nat (length comps) + 1) in IH by lia.
    rewrite IH.
    + destruct (processes (length rest) N theta desc objdesc
                  (Z.of_nat (length comps) + 1) it' g') as [[[vs it''] g'']|f];
        [|reflexivity].
      cbn [obind]. cbv beta iota zeta. cbn [fold_left].
      now rewrite <- app_assoc.
    + unfold n_elem in *. rewrite vplus_length; lia.
    + lia.
  - apply Z.eqb_neq in Hv. rewrite store_process_wrong_size by assumption. reflexivity.
Qed.


Lemma gen_model_closed_form (N : Z) (theta : list D) (desc : list string)
    (objdesc : list (list D)) (g : G) :
  0 <= N -> n_elem desc < 2 ^ 32 - 1 ->
  gen_model N theta desc objdesc g
  = (' (vs, _, g') <~ processes (length desc) N theta desc objdesc 0 0 g ;;
     Returns (fold_left vplus vs (repeat (of_Z 0) (Z.to_nat N)), g')).
Proof.
  intros HN Hdesc. unfold gen_model, loop.
  rewrite uint_small by (unfold n_elem in *; lia).
  replace (Z.to_nat (n_elem desc - 0)) with (length desc) by (unfold n_elem; lia).
  rewrite gen_model_loop by (unfold n_elem; rewrite repeat_length; lia).
  destruct (processes (length desc) N theta desc objdesc 0 0 g) as [[[vs it] g']|f];
    reflexivity.
Qed.

Lemma gen_lts_closed_form (N : Z) (theta : list D) (desc : list string)
    (objdesc : list (list D)) (g : G) :
  0 <= N -> n_elem desc < 2 ^ 32 - 1 ->
  gen_lts N theta desc objdesc g
  = (' (vs, _, g') <~ processes (length desc) N theta desc objdesc 0 0 g ;;
     Returns (vs ++ [fold_left vplus vs (repeat (of_Z 0) (Z.to_nat N))], g')).
Proof.
  intros HN Hdesc. unfold gen_lts, loop.
  rewrite (uint_small (n_elem desc)) by (unfold n_elem in *; lia).
  rewrite uint_small by (unfold n_elem in *; lia).
  replace (Z.to_nat (n_elem desc - 0)) with (length desc) by (unfold n_elem; lia).
  replace (Z.to_nat (n_elem desc + 1)) with (length desc + 1)%nat by (unfold n_elem; lia).
  rewrite repeat_app. cbn [repeat].
  set (zeros := repeat (of_Z 0) (Z.to_nat N)).
  pose proof (gen_lts_loop N theta desc objdesc (n_elem desc)
                (repeat zeros (length desc)) [] 0 zeros g) as Hloop.
  rewrite repeat_length in Hloop. cbn [length Z.of_nat app] in Hloop.
  rewrite Hloop.
  - destruct (processes (length desc) N theta desc objdesc 0 0 g) as [[[vs it] g']|f];
      reflexivity.
  - unfold n_elem, zeros. rewrite repeat_length. lia.
  - reflexivity.
Qed.


Lemma gen_arma_no_terms (N n_start : Z) (sigma2 : D) (g : G) :
  0 <= N -> 0 <= n_start -> N + n_start < 2 ^ 32 ->
  gen_arma N [] [] sigma2 n_start g
  = if (0 <? n_start) && (N =? 0) then Throws (Stopped IndexOutOfBounds)
    else Returns (fst (GenProcess.gen_wn N sigma2 g),
                  snd (GenProcess.gen_wn n_start sigma2
                         (snd (GenProcess.gen_wn N sigma2 g)))).
Proof.
  intros HN Hs Hsum. unfold gen_arma, GenProcess.gen_wn.
  change (n_elem (@nil D)) with 0. cbv zeta.
  change (negb (0 =? 0)) with false. change (0 >? 0) with false.
  change (uint (0 + 0)) with 0. cbn [obind].
  assert (Hstart : (if n_start =? 0 then lift (double_to_uint (0 + 0))
                    else Returns n_start) = Returns n_start).
  { destruct (n_start =? 0) eqn:H0; [|reflexivity].
    apply Z.eqb_eq in H0. subst n_start. reflexivity. }
  rewrite Hstart. cbn [obind].
  destruct (n_start <? 0) eqn:Hneg; [apply Z.ltb_lt in Hneg; lia|].
  pose proof (draws_length (Z.to_nat N) (rnorm (of_Z 0) (dsqrt sigma2)) g) as Hlen.
  destruct (draws (Z.to_nat N) (rnorm (of_Z 0) (dsqrt sigma2)) g) as [innov g1].
  cbn [fst snd] in *.
  pose proof (draws_length (Z.to_nat n_start) (rnorm (of_Z 0) (dsqrt sigma2)) g1) as Hlen'.
  destruct (draws (Z.to_nat n_start) (rnorm (of_Z 0) (dsqrt sigma2)) g1) as [start g2].
  cbn [fst snd] in *.
  destruct (n_start >? 0) eqn:Hpos.
  - rewrite Z.gtb_ltb in Hpos. rewrite Hpos. apply Z.ltb_lt in Hpos. cbn [andb].
    assert (Hn : n_elem (start ++ innov) = n_start + N)
      by (unfold n_elem; rewrite length_app; lia).
    rewrite Hn. unfold rows. rewrite Hn.
    destruct (N =? 0) eqn:H0.
    + apply Z.eqb_eq in H0. subst N.
      rewrite uint_small by lia.
      destruct (n_start >? n_start + 0 - 1) eqn:Hgt; [reflexivity|].
      rewrite Z.gtb_ltb in Hgt. apply Z.ltb_ge in Hgt. lia.
    + apply Z.eqb_neq in H0. rewrite uint_small by lia.
      destruct (n_start >? n_start + N - 1) eqn:Hgt;
        [rewrite Z.gtb_ltb in Hgt; apply Z.ltb_lt in Hgt; lia|].
      destruct (n_start + N - 1 >=? n_start + N) eqn:Hge;
        [rewrite Z.geb_leb in Hge; apply Z.leb_le in Hge; lia|].
      cbn [orb lift obind]. do 2 f_equal.
      rewrite <- Hlen', skipn_app, skipn_all, Nat.sub_diag. cbn [skipn app].
      apply firstn_all2. lia.
  - rewrite Z.gtb_ltb in Hpos. rewrite Hpos. apply Z.ltb_ge in Hpos. cbn [andb obind].
    assert (n_start = 0) by lia. subst n_start.
    destruct start; [|cbn [length] in Hlen'; lia].
    cbn [draws] in *. reflexivity.
Qed.


(** X20.  gen_process.cpp, [gen_model] and [gen_lts], for a model of fewer
    than [2^32 - 1] processes: both run the processes of [desc] in order,
    each on the parameters that follow those of the process before and
    each required to have [N] values, and fail as the first failing process
    does; [gen_model] returns the sum of the processes, added from left to
    right to a vector of zeros, and [gen_lts] returns the processes as
    columns, followed by that sum. *)
Theorem model_is_sum_of_processes (N : Z) (theta : list D) (desc : list string)
    (objdesc : list (list D)) (g : G) :
  0 <= N -> n_elem desc < 2 ^ 32 - 1 ->
  gen_model N theta desc objdesc g
  = (' (vs, _, g') <~ processes (length desc) N theta desc objdesc 0 0 g ;;
     Returns (fold_left vplus vs (repeat (of_Z 0) (Z.to_nat N)), g'))
  /\ gen_lts N theta desc objdesc g
     = (' (vs, _, g') <~ processes (length desc) N theta desc objdesc 0 0 g ;;
        Returns (vs ++ [fold_left vplus vs (repeat (of_Z 0) (Z.to_nat N))], g')).
Proof.
  intros HN Hdesc. split.
  - now apply gen_model_closed_form.
  - now apply gen_lts_closed_form.
Qed.

(** X21.  gen_process.cpp: from the same state of the random generator,
    [gen_model] returns the last column of the matrix that [gen_lts]
    returns, leaves the generator in the same state, and fails exactly when
    [gen_lts] fails, in the same way. *)
Theorem gen_model_is_last_column_of_gen_lts (N : Z) (theta : list D)
    (desc : list string) (objdesc : list (list D)) (g : G) :
  0 <= N -> n_elem desc < 2 ^ 32 - 1 ->
  gen_model N theta desc objdesc g
  = (' (x, g') <~ gen_lts N theta desc objdesc g ;; Returns (last x [], g')).
Proof.
  intros HN Hdesc. rewrite gen_model_closed_form, gen_lts_closed_form by assumption.
  destruct (processes (length desc) N theta desc objdesc 0 0 g) as [[[vs it] g']|f];
    [|reflexivity].
  cbn [obind]. cbv beta iota zeta. now rewrite last_last.
Qed.

(** X24.  gen_process.cpp, [gen_arma] without AR and MA coefficients: with
    the burn-in [n_start = 0] it is [gen_wn]; with a burn-in [n_start > 0]
    it returns the first [N] draws and discards [n_start] further draws,
    and fails at [rows(n_start, n_start - 1)] when [N = 0]. *)
Theorem gen_arma_without_terms_is_white_noise (N n_start : Z) (sigma2 : D) (g : G) :
  0 <= N -> 0 <= n_start -> N + n_start < 2 ^ 32 ->
  gen_arma N [] [] sigma2 0 g = Returns (GenProcess.gen_wn N sigma2 g)
  /\ gen_arma N [] [] sigma2 n_start g
     = if (0 <? n_start) && (N =? 0) then Throws (Stopped IndexOutOfBounds)
       else Returns (fst (GenProcess.gen_wn N sigma2 g),
                     snd (GenProcess.gen_wn n_start sigma2
                            (snd (GenProcess.gen_wn N sigma2 g)))).
Proof.
  intros HN Hs Hsum. split; [|now apply gen_arma_no_terms].
  rewrite gen_arma_no_terms by lia. change (0 <? 0) with false. cbn [andb].
  change (GenProcess.gen_wn 0 sigma2 (snd (GenProcess.gen_wn N sigma2 g)))
    with (@nil D, snd (GenProcess.gen_wn N sigma2 g)).
  cbn [snd]. now destruct (GenProcess.gen_wn N sigma2 g).
Qed.

End ModelFacts.

Section RealModelFacts.

Import GenModel.

Context {G : Type} {Rs : RandomSource G R} {Ts : TimeSeries R}.

Lemma vplus_zeros (v : list R) : vplus (repeat 0%R (length v)) v = v.
Proof.
  unfold vplus. induction v as [|a v IH]; [reflexivity|].
  cbn [length repeat combine map fst snd]. rewrite IH.
  cbn [dadd R_Double]. f_equal. lra.
Qed.

(** A model of one process whose values [v] number [N]. *)
Lemma single_process_model {Lm : Libm R} (N : Z) (theta : list R) (name : string)
    (objdesc : list (list R)) (g : G) :
  0 <= N ->
  gen_model N theta [name] objdesc g
  = (' (v, _, g') <~ process N theta [name] objdesc 0 0 g ;;
     if n_elem v =? N then Returns (v, g') else Throws (Stopped IncompatibleDimensions)).
Proof.
  intros HN. rewrite gen_model_closed_form by (unfold n_elem; cbn [length]; lia).
  cbn [length processes].
  destruct (process N theta [name] objdesc 0 0 g) as [[[v it] g']|f]; [|reflexivity].
  cbn [obind]. cbv beta iota zeta.
  destruct (n_elem v =? N) eqn:Hv; [|reflexivity].
  apply Z.eqb_eq in Hv. cbn [obind]. cbv beta iota zeta. cbn [fold_left].
  change (of_Z 0) with 0%R.
  replace (Z.to_nat N) with (length v) by (unfold n_elem in Hv; lia).
  now rewrite vplus_zeros.
Qed.

Lemma cumsum_length (x : list R) : length (cumsum x) = length x.
Proof. apply cumsum_from_length. Qed.

(** X22.  gen_process.cpp, [gen_model], in real arithmetic, for a model of
    one process: "WN", "DR" and "RW" give [gen_wn], [gen_dr] and [gen_rw] on
    the one parameter, "AR1" and "GM" both give [gen_ar1] on the two
    parameters (its failure for [N = 0] included), and "AR1" with a single
    parameter fails on the missing variance. *)
Theorem one_process_models {Lm : Libm R} (N : Z) (a b : R) (objdesc : list (list R)) (g : G) :
  0 <= N < 2 ^ 32 - 1 ->
  gen_model N [a] ["WN"%string] objdesc g = Returns (GenProcess.gen_wn N a g)
  /\ gen_model N [a] ["DR"%string] objdesc g = Returns (GenProcess.gen_dr N a, g)
  /\ gen_model N [a] ["RW"%string] objdesc g = Returns (GenProcess.gen_rw N a g)
  /\ gen_model N [a; b] ["AR1"%string] objdesc g = lift (GenProcess.gen_ar1 N a b g)
  /\ gen_model N [a; b] ["GM"%string] objdesc g = lift (GenProcess.gen_ar1 N a b g)
  /\ gen_model N [a] ["AR1"%string] objdesc g = Throws (Stopped IndexOutOfBounds).
Proof.
  intros HN. rewrite !single_process_model by lia. unfold process.
  change (vget [a] 0) with (Ok a). change (vget [a; b] 0) with (Ok a).
  change (uint (0 + 1)) with 1.
  change (vget [a; b] 1) with (Ok b). change (vget [a] 1) with (@Err R IndexOutOfBounds).
  cbn [lift obind nth Z.to_nat]. cbv zeta.
  cbn [String.eqb Ascii.eqb Bool.eqb orb].
  assert (Har : (x <~ (x <~ lift (GenProcess.gen_ar1 N a b g) ;;
                       (let '(v, g0) := x in Returns (v, uint (1 + 1), g0))) ;;
                 (let '(v, _, g') := x in
                  if n_elem v =? N then Returns (v, g')
                  else Throws (Stopped IncompatibleDimensions)))
                = lift (GenProcess.gen_ar1 N a b g)).
  { destruct (Z.eq_dec N 0) as [->|H0].
    - destruct (order_one_generators_at_zero a a b g) as (Hz & _). now rewrite Hz.
    - rewrite gen_ar1_value by lia. cbn [lift obind]. cbv beta iota zeta.
      replace (n_elem (ar1_from a (of_Z 0) (tl (fst (GenProcess.gen_wn (N + 1) b g)))))
        with N; [now rewrite Z.eqb_refl|].
      unfold n_elem. rewrite ar1_from_length.
      pose proof (gen_wn_length (N + 1) b g) as Hlen.
      destruct (fst (GenProcess.gen_wn (N + 1) b g)); cbn [tl length] in *; lia. }
  split; [|split; [|split; [|split; [exact Har | split; [exact Har | reflexivity]]]]].
  - pose proof (gen_wn_length N a g) as Hlen.
    destruct (GenProcess.gen_wn N a g) as [v g0]. cbn [fst] in Hlen.
    cbn [obind]. cbv beta iota zeta.
    replace (n_elem v) with N by (unfold n_elem; lia). now rewrite Z.eqb_refl.
  - cbn [obind]. cbv beta iota zeta.
    replace (n_elem (GenProcess.gen_dr N a)) with N; [now rewrite Z.eqb_refl|].
    unfold n_elem, GenProcess.gen_dr. rewrite cumsum_length, repeat_length. lia.
  - assert (Hlen : length (fst (GenProcess.gen_rw N a g)) = Z.to_nat N).
    { unfold GenProcess.gen_rw.
      pose proof (draws_length (Z.to_nat N) (rnorm (of_Z 0) (dsqrt a)) g) as Hd.
      destruct (draws (Z.to_nat N) (rnorm (of_Z 0) (dsqrt a)) g) as [grw g0].
      cbn [fst] in *. now rewrite cumsum_length. }
    destruct (GenProcess.gen_rw N a g) as [v g0]. cbn [fst] in Hlen.
    cbn [obind]. cbv beta iota zeta.
    replace (n_elem v) with N by (unfold n_elem; lia). now rewrite Z.eqb_refl.
Qed.

Lemma Int_part_0 : Int_part 0 = 0.
Proof.
  unfold Int_part. pose proof (archimed 0) as [H1 H2].
  assert (0 < up 0 < 2).
  { split.
    - apply lt_IZR. lra.
    - apply lt_IZR. lra. }
  lia.
Qed.

(** X23.  gen_process.cpp, [gen_model], in real arithmetic: a process whose
    name is none of "AR1", "GM", "WN", "DR", "QN", "RW" is handled as an
    ARMA process: the model fails on [objdesc(0)] when [objdesc] is empty,
    and with the orders [(0, 0)] it is the white noise of [gen_wn]. *)
Theorem other_names_are_arma_processes (N : Z) (theta : list R) (sigma2 : R) (name : string)
    (g : G) :
  0 <= N < 2 ^ 32 ->
  name <> "AR1"%string -> name <> "GM"%string -> name <> "WN"%string ->
  name <> "DR"%string -> name <> "QN"%string -> name <> "RW"%string ->
  gen_model N (sigma2 :: theta) [name] [] g = Throws (Stopped IndexOutOfBounds)
  /\ gen_model N [sigma2] [name] [[0%R; 0%R]] g = Returns (GenProcess.gen_wn N sigma2 g).
Proof.
  intros HN H1 H2 H3 H4 H5 H6. rewrite !single_process_model by lia. unfold process.
  change (vget (sigma2 :: theta) 0) with (Ok sigma2).
  change (vget [sigma2] 0) with (Ok sigma2).
  cbn [lift obind nth Z.to_nat]. cbv zeta.
  apply String.eqb_neq in H1, H2, H3, H4, H5, H6.
  rewrite H1, H2, H3, H4, H5, H6. cbn [orb].
  split; [reflexivity|].
  assert (Hu : to_unsigned 0%R = Returns 0).
  { unfold to_unsigned. cbn [trunc_Z R_Libm]. unfold Rltb.
    destruct (Rlt_dec 0 0) as [Hlt|_]; [lra|]. now rewrite Int_part_0. }
  unfold arma_params.
  change (vget [[0%R; 0%R]] 0) with (Ok [0%R; 0%R]). cbn [lift obind].
  change (vget [0%R; 0%R] 0) with (Ok 0%R). cbn [lift obind].
  rewrite Hu. cbn [obind].
  change (vget [0%R; 0%R] 1) with (Ok 0%R). cbn [lift obind].
  rewrite Hu. cbn [obind].
  change (0 =? 0) with true. cbv zeta. cbn [obind].
  change (uint (0 + 0)) with 0. change (uint (0 + 0)) with 0.
  change (vget [sigma2] 0) with (Ok sigma2). cbn [lift obind]. cbv beta iota zeta.
  rewrite gen_arma_no_terms by lia.
  change (0 <? 0) with false. cbn [andb obind]. cbv beta iota zeta.
  pose proof (gen_wn_length N sigma2 g) as Hlen.
  destruct (GenProcess.gen_wn N sigma2 g) as [v g0]. cbn [fst snd] in *.
  change (GenProcess.gen_wn 0 sigma2 g0) with (@nil R, g0). cbn [snd].
  replace (n_elem v) with N by (unfold n_elem; lia). now rewrite Z.eqb_refl.
Qed.


End RealModelFacts.

Lemma model_is_sum_of_processes_witness :
  GenModel.gen_model (Rs := counter_source) (Ts := no_time_series)
    2 [1%R; 2%R] ["WN"%string; "DR"%string] [] 0
  = (' (vs, _, g') <~ GenModel.processes (Rs := counter_source) (Ts := no_time_series)
                        2 2 [1%R; 2%R] ["WN"%string; "DR"%string] [] 0 0 0 ;;
     Returns (fold_left GenModel.vplus vs [0%R; 0%R], g'))
  /\ GenModel.gen_lts (Rs := counter_source) (Ts := no_time_series)
       2 [1%R; 2%R] ["WN"%string; "DR"%string] [] 0
     = (' (vs, _, g') <~ GenModel.processes (Rs := counter_source) (Ts := no_time_series)
                           2 2 [1%R; 2%R] ["WN"%string; "DR"%string] [] 0 0 0 ;;
        Returns (vs ++ [fold_left GenModel.vplus vs [0%R; 0%R]], g')).
Proof.
  exact (model_is_sum_of_processes (Rs := counter_source) (Ts := no_time_series)
           2 [1%R; 2%R] ["WN"%string; "DR"%string] [] 0
           ltac:(lia) ltac:(unfold n_elem; simpl; lia)).
Defined.

Lemma gen_model_is_last_column_of_gen_lts_witness :
  GenModel.gen_model (Rs := counter_source) (Ts := no_time_series)
    3 [1%R; 0.5%R; 4%R] ["RW"%string; "AR1"%string] [] 0
  = (' (x, g') <~ GenModel.gen_lts (Rs := counter_source) (Ts := no_time_series)
                    3 [1%R; 0.5%R; 4%R] ["RW"%string; "AR1"%string] [] 0 ;;
     Returns (last x [], g')).
Proof.
  exact (gen_model_is_last_column_of_gen_lts (Rs := counter_source) (Ts := no_time_series)
           3 [1%R; 0.5%R; 4%R] ["RW"%string; "AR1"%string] [] 0
           ltac:(lia) ltac:(unfold n_elem; simpl; lia)).
Defined.

Lemma gen_arma_without_terms_is_white_noise_witness :
  GenModel.gen_arma (Rs := counter_source) (Ts := no_time_series) 3 [] [] 4%R 0 0
  = Returns (GenProcess.gen_wn (Rs := counter_source) 3 4%R 0)
  /\ GenModel.gen_arma (Rs := counter_source) (Ts := no_time_series) 3 [] [] 4%R 2 0
     = Returns (fst (GenProcess.gen_wn (Rs := counter_source) 3 4%R 0), 5).
Proof.
  exact (gen_arma_without_terms_is_white_noise
           (Rs := counter_source) (Ts := no_time_series) 3 2 4%R 0
           ltac:(lia) ltac:(lia) ltac:(lia)).
Defined.

Lemma one_process_models_witness :
  GenModel.gen_model (Rs := counter_source) (Ts := no_time_series)
    3 [2%R] ["DR"%string] [] 0
  = Returns (GenProcess.gen_dr 3 2%R, 0)
  /\ GenModel.gen_model (Rs := counter_source) (Ts := no_time_series)
       3 [2%R; 1%R] ["GM"%string] [] 0
     = lift (GenProcess.gen_ar1 (Rs := counter_source) 3 2%R 1%R 0).
Proof.
  pose proof (one_process_models (Rs := counter_source) (Ts := no_time_series)
                3 2%R 1%R [] 0 ltac:(lia)) as (_ & Hdr & _ & _ & Hgm & _).
  split; [exact Hdr | exact Hgm].
Defined.

Lemma other_names_are_arma_processes_witness :
  GenModel.gen_model (Rs := counter_source) (Ts := no_time_series)
    3 [4%R] ["wn"%string] [[0%R; 0%R]] 0
  = Returns (GenProcess.gen_wn (Rs := counter_source) 3 4%R 0).
Proof.
  apply (other_names_are_arma_processes (Rs := counter_source) (Ts := no_time_series)
           3 [] 4%R "wn" 0); [lia | discriminate ..].
Defined.

(** ** The autocovariance at every lag *)

Section AutocorrelationFacts.
Local Open Scope R_scope.

Lemma angle_add (N k t h : nat) :
  angle N k (t + h) = angle N k t + angle N k h.
Proof. unfold angle. rewrite plus_INR. unfold Rdiv. ring. Qed.

Lemma cos_angle_mod (N k u : nat) (b : R) :
  (0 < N)%nat ->
  cos (angle N k u - b) = cos (angle N k (u mod N) - b).
Proof.
  intros HN.
  assert (HNR : 0 < INR N) by (apply lt_0_INR; lia).
  rewrite (Nat.div_mod_eq u N) at 1.
  rewrite Nat.add_comm, angle_add.
  replace (angle N k (u mod N) + angle N k (N * (u / N)) - b)
    with (angle N k (u mod N) - b + 2 * INR (k * (u / N)) * PI).
  - apply cos_period.
  - unfold angle. rewrite !mult_INR. field. lra.
Qed.

Lemma angle_diff_sum_mod (N u s : nat) :
  (s < N)%nat ->
  Rsum (map (fun k => cos (angle N k u - angle N k s)) (seq 0 N))
  = if Nat.eqb (u mod N) s then INR N else 0.
Proof.
  intros Hs.
  rewrite (Rsum_map_ext _ (fun k => cos (angle N k (u mod N) - angle N k s))).
  - apply angle_diff_sum; [apply Nat.mod_upper_bound; lia | assumption].
  - intros k _. apply cos_angle_mod. lia.
Qed.

Lemma Rsum_pick (n u : nat) (f : nat -> R) :
  (u < n)%nat ->
  Rsum (map (fun s => if Nat.eqb u s then f s else 0) (seq 0 n)) = f u.
Proof.
  intros Hu.
  rewrite (Rsum_map_ext _ (fun s => if Nat.eqb u s then f u else 0)).
  - now apply Rsum_single.
  - intros s _. destruct (Nat.eqb_spec u s) as [->|_]; reflexivity.
Qed.

(** The inverse transform of the power spectrum is the circular
    autocorrelation. *)
Lemma idft_power (a : list R) (h : nat) :
  a <> [] ->
  fst (idft_entry
         (map (fun c => (dadd (dmul (fst c) (fst c)) (dmul (snd c) (snd c)), of_Z 0)) (dft a))
         h)
  = Rsum (map (fun t => nth t a 0 * nth ((t + h) mod length a) a 0) (seq 0 (length a))).
Proof.
  intros Ha.
  set (N := length a).
  assert (HN0 : (0 < N)%nat) by (unfold N; destruct a; [congruence | simpl; lia]).
  assert (HN : 0 < INR N) by (apply lt_0_INR; lia).
  unfold idft_entry, dft. cbn [fst]. rewrite !length_map, length_seq. fold N.
  rewrite (Rsum_map_ext _
             (fun k => Rsum (map (fun t => Rsum (map (fun s =>
                 nth t a 0 * nth s a 0 / 2
                 * (cos (angle N k (t + h) - angle N k s)
                    + cos (angle N k (s + h) - angle N k t)))
               (seq 0 N))) (seq 0 N)))).
  2:{ intros k Hk. apply in_seq in Hk.
      rewrite map_map, nth_map_seq by lia. cbn [fst snd dadd dmul of_Z R_Double].
      rewrite dft_power. fold N.
      rewrite Rmult_0_l, Rminus_0_r, Rmult_comm, <- Rsum_map_scal.
      apply Rsum_map_ext. intros t _. rewrite <- Rsum_map_scal.
      apply Rsum_map_ext. intros s _.
      rewrite !angle_add.
      set (A := angle N k t - angle N k s). set (B := angle N k h).
      replace (angle N k s + B - angle N k t) with (- (A - B)) by (unfold A; ring).
      rewrite cos_neg.
      replace (angle N k t + B - angle N k s) with (A + B) by (unfold A; ring).
      rewrite (cos_plus A B), (cos_minus A B). field. }
  rewrite Rsum_exchange.
  rewrite (Rsum_map_ext _
             (fun t => INR N * (nth t a 0 * nth ((t + h) mod N) a 0 / 2)
                       + Rsum (map (fun s =>
                            if Nat.eqb ((s + h) mod N) t
                            then INR N * (nth t a 0 * nth s a 0 / 2) else 0)
                          (seq 0 N)))).
  2:{ intros t Ht. apply in_seq in Ht.
      rewrite Rsum_exchange.
      rewrite (Rsum_map_ext _
                 (fun s => (if Nat.eqb ((t + h) mod N) s
                            then INR N * (nth t a 0 * nth s a 0 / 2) else 0)
                           + (if Nat.eqb ((s + h) mod N) t
                              then INR N * (nth t a 0 * nth s a 0 / 2) else 0))).
      - rewrite Rsum_map_plus. f_equal.
        rewrite (Rsum_pick N ((t + h) mod N)
                   (fun s => INR N * (nth t a 0 * nth s a 0 / 2)));
          [reflexivity | apply Nat.mod_upper_bound; lia].
      - intros s Hs. apply in_seq in Hs.
        rewrite (Rsum_map_ext _
                   (fun k => nth t a 0 * nth s a 0 / 2
                             * cos (angle N k (t + h) - angle N k s)
                             + nth t a 0 * nth s a 0 / 2
                               * cos (angle N k (s + h) - angle N k t)))
          by (intros k _; ring).
        rewrite Rsum_map_plus, !Rsum_map_scal, !angle_diff_sum_mod by lia.
        destruct (Nat.eqb ((t + h) mod N) s), (Nat.eqb ((s + h) mod N) t);
          unfold Rdiv; ring. }
  rewrite Rsum_map_plus, Rsum_exchange.
  rewrite (Rsum_map_ext
             (fun s => Rsum (map (fun t => if Nat.eqb ((s + h) mod N) t
                                           then INR N * (nth t a 0 * nth s a 0 / 2) else 0)
                                 (seq 0 N)))
             (fun s => INR N * (nth s a 0 * nth ((s + h) mod N) a 0 / 2))).
  2:{ intros s Hs. apply in_seq in Hs.
      rewrite (Rsum_pick N ((s + h) mod N)
                 (fun t => INR N * (nth t a 0 * nth s a 0 / 2)));
        [unfold Rdiv; ring | apply Nat.mod_upper_bound; lia]. }
  rewrite <- Rsum_map_plus.
  unfold Rdiv at 1. rewrite Rmult_comm, <- Rsum_map_scal.
  apply Rsum_map_ext. intros t _. field. lra.
Qed.


Lemma nth_padded (x : list R) (m k : nat) :
  nth k (x ++ repeat 0 m) 0 = nth k x 0.
Proof.
  destruct (Nat.lt_ge_cases k (length x)) as [Hk|Hk].
  - now apply app_nth1.
  - rewrite app_nth2, nth_repeat, nth_overflow by lia. reflexivity.
Qed.

Lemma Rsum_zero_tail (f : nat -> R) (m n : nat) :
  (forall t, (m <= t)%nat -> f t = 0) ->
  (m <= n)%nat ->
  Rsum (map f (seq 0 n)) = Rsum (map f (seq 0 m)).
Proof.
  intros Hf Hmn.
  assert (Hn : n = (m + (n - m))%nat) by lia.
  rewrite Hn. generalize (n - m)%nat. intros d.
  rewrite seq_app, map_app, Rsum_app.
  rewrite (Rsum_map_ext f (fun _ => 0) (seq (0 + m) d)), Rsum_map_zero; [lra|].
  intros t Ht. apply in_seq in Ht. apply Hf. lia.
Qed.

(** With as many zeros appended as the sequence is long, the circular
    autocorrelation at a lag below the length has no wrapped term. *)
Lemma padded_autocorrelation (x : list R) (h : nat) :
  (h < length x)%nat ->
  Rsum (map (fun t => nth t (x ++ repeat 0 (length x)) 0
                      * nth ((t + h) mod length (x ++ repeat 0 (length x)))
                            (x ++ repeat 0 (length x)) 0)
            (seq 0 (length (x ++ repeat 0 (length x)))))
  = Rsum (map (fun t => nth t x 0 * nth (t + h) x 0) (seq 0 (length x - h))).
Proof.
  intros Hh. rewrite length_app, repeat_length.
  set (n := length x) in *.
  rewrite (Rsum_zero_tail _ (n - h) (n + n)); [| |lia].
  - apply Rsum_map_ext. intros t Ht. apply in_seq in Ht.
    rewrite !nth_padded, Nat.mod_small by lia. reflexivity.
  - intros t Ht. rewrite !nth_padded.
    destruct (Nat.lt_ge_cases t n) as [Hlt|Hge].
    + rewrite Nat.mod_small by lia.
      rewrite (nth_overflow x (n := t + h)) by (fold n; lia). ring.
    + rewrite (nth_overflow x (n := t)) by (fold n; lia). ring.
Qed.

End AutocorrelationFacts.

(** X25.  build_file.cpp, [dft_acf], in real arithmetic: for a sequence [x]
    of [n] entries with [1 <= n < 2^30] and every lag [h < n], entry [h] of
    the result is the sum of the products [x(t) * x(t + h)] over
    [t = 0, ..., n - 1 - h], divided by [n]: the zeros appended before the
    transform keep the products that wrap around out of the sum, and no
    mean is subtracted. *)
Theorem dft_acf_is_sample_autocovariance (x : list R) (h : nat) :
  1 <= n_elem x < 2 ^ 30 -> (h < length x)%nat ->
  exists out,
    dft_acf x = Ok out
    /\ nth_error out h
       = Some (Rsum (map (fun t => nth t x 0 * nth (t + h) x 0)%R (seq 0 (length x - h)))
               / IZR (n_elem x))%R.
Proof.
  intros Hn Hh. rewrite dft_acf_nonempty by assumption.
  eexists. split; [reflexivity|].
  assert (Hpad : x ++ repeat 0%R (length x) <> [])
    by (destruct x; [unfold n_elem in Hn; simpl in Hn; lia | discriminate]).
  rewrite nth_error_firstn.
  destruct (Nat.ltb_spec h (length x)) as [_|]; [|lia].
  rewrite nth_error_map. unfold idft.
  rewrite nth_error_map_seq.
  - cbn [option_map]. f_equal. cbn [ddiv R_Double]. f_equal.
    rewrite (idft_power _ h Hpad). apply padded_autocorrelation. assumption.
  - unfold dft.
    repeat first [rewrite length_map | rewrite length_seq
                  | rewrite length_app | rewrite repeat_length].
    lia.
Qed.

Lemma dft_acf_is_sample_autocovariance_witness :
  exists out,
    dft_acf [3%R; 4%R; 5%R] = Ok out
    /\ nth_error out 1
       = Some (Rsum (map (fun t => nth t [3%R; 4%R; 5%R] 0 * nth (t + 1) [3%R; 4%R; 5%R] 0)%R
                         (seq 0 2))
               / IZR 3)%R.
Proof.
  apply (dft_acf_is_sample_autocovariance [3%R; 4%R; 5%R] 1).
  - unfold n_elem. simpl. lia.
  - simpl. lia.
Defined.
